(** * kube-janitor-go: duration grammar, deletion decision, rule engine and
      resource filter

    A shallow embedding of the Go packages [internal/janitor] and
    [internal/rules].  Go values are modelled as the code has them:
    [time.Duration] and [int64] as [Z] with the two's-complement wrap written
    out, [float64] as the IEEE-754 binary64 specification floats of the
    Standard Library, Go strings as byte strings, [map[string]T] as [gmap].

    The file has three layers: [Go] (the behaviour of the runtime and of the
    standard-library and client-library calls the packages make), [rules] and
    [janitor] (the packages themselves), and then the theorems. *)

From Stdlib Require Import ZArith Ascii List Bool Lia.
From Stdlib Require String.
From Stdlib Require Import Floats.SpecFloat.
From stdpp Require Import base gmap strings list.

Set Warnings "-register-all".
#[local] Open Scope Z_scope.

(** ** Results of fallible calls: a value or an error *)

Inductive result (E A : Type) : Type :=
| Ok (a : A)
| Err (e : E).
Arguments Ok {E A} a.
Arguments Err {E A} e.

Definition is_ok {E A} (r : result E A) : bool :=
  match r with Ok _ => true | Err _ => false end.

(** ** The Go runtime and library calls used by the packages *)

Module Go.

(** *** Machine integers *)

Definition minInt64 : Z := - 2 ^ 63.
Definition maxInt64 : Z := 2 ^ 63 - 1.

(** Two's-complement wrap of a mathematical integer to [int64]. *)
Definition wrap64 (z : Z) : Z := (z + 2 ^ 63) mod 2 ^ 64 - 2 ^ 63.

(** Wrap to [uint64]. *)
Definition wrapU64 (z : Z) : Z := z mod 2 ^ 64.

Definition inInt64 (z : Z) : bool := (minInt64 <=? z) && (z <=? maxInt64).

(** *** float64 *)

Definition float64 := spec_float.

Definition f64_mul : float64 -> float64 -> float64 := SFmul 53 1024.
Definition f64_div : float64 -> float64 -> float64 := SFdiv 53 1024.

(** Conversion of an integer to [float64] (round to nearest, ties to
    even); exact for every integer below 2^53. *)
Definition f64_of_Z (z : Z) : float64 := binary_normalize 53 1024 z 0 false.

(** The integer part of a finite float (the fraction is discarded). *)
Definition f64_trunc (x : float64) : option Z :=
  match x with
  | S754_zero _ => Some 0
  | S754_finite s m e =>
      let a := Z.shiftl (Z.pos m) e in Some (if s then - a else a)
  | S754_infinity _ | S754_nan => None
  end.

(** [int64(x)] for a [float64] x.  The language leaves the result of an
    out-of-range conversion to the implementation; the image is built for
    amd64 (Dockerfile: GOARCH=amd64), where the conversion instruction
    yields the minimum integer. *)
Definition f64_to_int64 (x : float64) : Z :=
  match f64_trunc x with
  | Some z => if inInt64 z then z else minInt64
  | None => minInt64
  end.

(** [uint64(x)]; out of range is implementation-specific as above. *)
Definition f64_to_uint64 (x : float64) : Z :=
  match f64_trunc x with
  | Some z => if (0 <=? z) && (z <? 2 ^ 64) then z else 2 ^ 63
  | None => 2 ^ 63
  end.

(** *** Bytes and digit strings *)

Definition isDigit (c : ascii) : bool :=
  let n := nat_of_ascii c in (48 <=? n)%nat && (n <=? 57)%nat.

Definition digitVal (c : ascii) : Z := Z.of_nat (nat_of_ascii c) - 48.

(** [\s] of Go's regexp syntax: tab, newline, form feed, carriage return
    and space. *)
Definition isSpace (c : ascii) : bool :=
  let n := nat_of_ascii c in
  (n =? 9)%nat || (n =? 10)%nat || (n =? 12)%nat || (n =? 13)%nat || (n =? 32)%nat.

Fixpoint spanDigits (s : string) : string * string :=
  match s with
  | String c s' =>
      if isDigit c then let '(d, r) := spanDigits s' in (String c d, r)
      else (EmptyString, s)
  | EmptyString => (EmptyString, EmptyString)
  end.

Fixpoint decimal (acc : Z) (s : string) : Z :=
  match s with
  | String c s' => decimal (acc * 10 + digitVal c) s'
  | EmptyString => acc
  end.

(** [strings.ReplaceAll(s, " ", "")]: every space byte is removed. *)
Fixpoint removeSpaces (s : string) : string :=
  match s with
  | String c s' => if Ascii.eqb c " " then removeSpaces s' else String c (removeSpaces s')
  | EmptyString => EmptyString
  end.

Definition stringEqb (a b : string) : bool := String.eqb a b.

(** *** strconv.ParseFloat(s, 64)

    On the plain decimal syntax [digits] or [digits.digits], the only
    shape the first group of the duration token pattern can take.  The
    result is the float nearest to the decimal value (ties to even); a
    value that rounds beyond the largest finite float is a range error.
    Other spellings that the library accepts (signs, exponents, hex,
    "inf") are outside this model and reported as syntax errors. *)

Inductive NumError := ErrSyntax | ErrRange.

Definition roundDecimal (n : Z) (k : nat) : float64 :=
  match n with
  | Z0 => S754_zero false
  | _ =>
      let '(q, e, l) := SFdiv_core_binary 53 1024 n 0 (10 ^ Z.of_nat k) 0 in
      binary_round_aux 53 1024 false q e l
  end.

Definition ParseFloat (s : string) : result NumError float64 :=
  let '(ip, r) := spanDigits s in
  if stringEqb ip "" then Err ErrSyntax else
  let finish (digits : string) (k : nat) :=
    match roundDecimal (decimal 0 digits) k with
    | S754_infinity _ => Err ErrRange
    | f => Ok f
    end in
  match r with
  | EmptyString => finish ip 0%nat
  | String c r' =>
      if Ascii.eqb c "." then
        let '(fp, r'') := spanDigits r' in
        if stringEqb fp "" then Err ErrSyntax
        else if stringEqb r'' "" then finish (ip +:+ fp) (String.length fp)
        else Err ErrSyntax
      else Err ErrSyntax
  end.

(** *** time.Duration and time.ParseDuration

    A [Duration] is an [int64] count of nanoseconds. *)

Definition Duration := Z.

Definition Nanosecond : Duration := 1.
Definition Microsecond : Duration := 1000 * Nanosecond.
Definition Millisecond : Duration := 1000 * Microsecond.
Definition Second : Duration := 1000 * Millisecond.
Definition Minute : Duration := 60 * Second.
Definition Hour : Duration := 60 * Minute.

Definition minDuration : Duration := minInt64.
Definition maxDuration : Duration := maxInt64.

(** The unit table of the library: ns, us, µs (U+00B5), μs (U+03BC), ms,
    s, m, h. *)
Definition unitMap (u : string) : option Z :=
  if stringEqb u "ns" then Some Nanosecond
  else if stringEqb u "us" then Some Microsecond
  else if stringEqb u "µs" then Some Microsecond
  else if stringEqb u "μs" then Some Microsecond
  else if stringEqb u "ms" then Some Millisecond
  else if stringEqb u "s" then Some Second
  else if stringEqb u "m" then Some Minute
  else if stringEqb u "h" then Some Hour
  else None.

(** [leadingInt]: the leading digits as a [uint64]; [None] on overflow
    past 2^63. *)
Fixpoint leadingInt_from (x : Z) (s : string) : option (Z * string) :=
  match s with
  | String c s' =>
      if isDigit c then
        if x >? 2 ^ 63 / 10 then None
        else
          let x' := x * 10 + digitVal c in
          if x' >? 2 ^ 63 then None else leadingInt_from x' s'
      else Some (x, s)
  | EmptyString => Some (x, s)
  end.

Definition leadingInt (s : string) : option (Z * string) := leadingInt_from 0 s.

(** [leadingFraction]: the leading digits as a numerator and a power of
    ten; digits past the capacity of a [uint64] are read and dropped. *)
Fixpoint leadingFraction_from (x : Z) (scale : float64) (overflow : bool)
    (s : string) : Z * float64 * string :=
  match s with
  | String c s' =>
      if isDigit c then
        if overflow then leadingFraction_from x scale true s'
        else if x >? (2 ^ 63 - 1) / 10 then leadingFraction_from x scale true s'
        else
          let y := x * 10 + digitVal c in
          if y >? 2 ^ 63 then leadingFraction_from x scale true s'
          else leadingFraction_from y (f64_mul scale (f64_of_Z 10)) false s'
      else (x, scale, s)
  | EmptyString => (x, scale, s)
  end.

Definition leadingFraction (s : string) : Z * float64 * string :=
  leadingFraction_from 0 (f64_of_Z 1) false s.

(** The unit of a term: the bytes up to the next '.' or digit. *)
Fixpoint spanUnit (s : string) : string * string :=
  match s with
  | String c s' =>
      if Ascii.eqb c "." || isDigit c then (EmptyString, s)
      else let '(u, r) := spanUnit s' in (String c u, r)
  | EmptyString => (EmptyString, EmptyString)
  end.

(** One pass of the term loop of [ParseDuration]: the rest of the input
    and the running total [d] (a [uint64]); [None] is the error return. *)
Definition parseTerm (d : Z) (s : string) : option (Z * string) :=
  match s with
  | EmptyString => None
  | String c0 _ =>
      if negb (Ascii.eqb c0 "." || isDigit c0) then None else
      match leadingInt s with
      | None => None
      | Some (v, s1) =>
          let pre := negb (String.length s =? String.length s1)%nat in
          let '(f, scale, post, s2) :=
            match s1 with
            | String c s1' =>
                if Ascii.eqb c "." then
                  let '(f, scale, r) := leadingFraction s1' in
                  (f, scale, negb (String.length s1' =? String.length r)%nat, r)
                else (0, f64_of_Z 1, false, s1)
            | EmptyString => (0, f64_of_Z 1, false, s1)
            end in
          if negb pre && negb post then None else
          let '(u, s3) := spanUnit s2 in
          if stringEqb u "" then None else
          match unitMap u with
          | None => None
          | Some unit =>
              if v >? 2 ^ 63 / unit then None else
              let v1 := v * unit in
              let v2 :=
                if f >? 0 then
                  wrapU64 (v1 + f64_to_uint64
                                  (f64_mul (f64_of_Z f) (f64_div (f64_of_Z unit) scale)))
                else v1 in
              if (f >? 0) && (v2 >? 2 ^ 63) then None else
              let d' := wrapU64 (d + v2) in
              if d' >? 2 ^ 63 then None else Some (d', s3)
          end
      end
  end.

Fixpoint parseTerms (fuel : nat) (d : Z) (s : string) : option Z :=
  match s with
  | EmptyString => Some d
  | _ =>
      match fuel with
      | O => None
      | S fuel' =>
          match parseTerm d s with
          | None => None
          | Some (d', s') => parseTerms fuel' d' s'
          end
      end
  end.

(** [time.ParseDuration]: an optional sign, then "0" alone or one or more
    terms [digits[.digits]unit]; [None] is the error return. *)
Definition ParseDuration (orig : string) : option Duration :=
  let '(neg, s) :=
    match orig with
    | String c s' =>
        if Ascii.eqb c "-" then (true, s')
        else if Ascii.eqb c "+" then (false, s')
        else (false, orig)
    | EmptyString => (false, orig)
    end in
  if stringEqb s "0" then Some 0
  else if stringEqb s "" then None
  else
    match parseTerms (String.length s) 0 s with
    | None => None
    | Some d =>
        if neg then Some (wrap64 (- wrap64 d))
        else if d >? 2 ^ 63 - 1 then None
        else Some d
    end.

(** *** Regular expressions with leftmost-first (backtracking) matching

    The syntax tree of the patterns the packages compile, and the match a
    backtracking engine finds first, which is the match the library
    reports.  Text is matched byte by byte; the patterns used here are
    ASCII except for the two-byte literal µ. *)

Inductive regex :=
| Empty
| BeginText
| EndText
| Class (p : ascii -> bool)
| Lit (s : string)
| Cat (r1 r2 : regex)
| Alt (r1 r2 : regex)
| Star (r : regex)
| Capture (i : nat) (r : regex).

Definition Plus (r : regex) : regex := Cat r (Star r).
Definition Quest (r : regex) : regex := Alt r Empty.

Fixpoint stripPrefix (p s : string) : option string :=
  match p, s with
  | EmptyString, _ => Some s
  | String a p', String b s' => if Ascii.eqb a b then stripPrefix p' s' else None
  | String _ _, EmptyString => None
  end.

(** The bytes of [s] in front of its suffix [s']. *)
Definition consumed (s s' : string) : string :=
  String.substring 0 (String.length s - String.length s')%nat s.

Definition captures := list (nat * string).

Fixpoint capture (i : nat) (cs : captures) : string :=
  match cs with
  | (j, v) :: cs' => if (i =? j)%nat then v else capture i cs'
  | [] => EmptyString
  end.

(** Greedy repetition of a matcher [step]: one more round when it
    succeeds and consumes something, the continuation [k] otherwise.  At
    most [n] rounds are tried, and [n] is the length of the text left. *)
Fixpoint starLoop {A : Type}
    (step : string -> captures -> (string -> captures -> option A) -> option A)
    (k : string -> captures -> option A) (n : nat) (s : string) (cs : captures)
    : option A :=
  match n with
  | O => k s cs
  | S n' =>
      match step s cs
              (fun s' cs' =>
                 if (String.length s' <? String.length s)%nat
                 then starLoop step k n' s' cs' else None) with
      | Some a => Some a
      | None => k s cs
      end
  end.

(** [backtrack total r s cs k] tries the ways [r] can match a prefix of
    [s] in priority order (first alternative first, more repetitions
    first) and hands the rest to [k]; the first way on which [k] succeeds
    wins.  [s] is a suffix of the text, whose length is [total]. *)
Fixpoint backtrack {A : Type} (total : nat) (r : regex) (s : string) (cs : captures)
    (k : string -> captures -> option A) {struct r} : option A :=
  match r with
  | Empty => k s cs
  | BeginText => if (String.length s =? total)%nat then k s cs else None
  | EndText => match s with EmptyString => k s cs | String _ _ => None end
  | Class p =>
      match s with
      | String c s' => if p c then k s' cs else None
      | EmptyString => None
      end
  | Lit l =>
      match stripPrefix l s with
      | Some s' => k s' cs
      | None => None
      end
  | Cat r1 r2 => backtrack total r1 s cs (fun s' cs' => backtrack total r2 s' cs' k)
  | Alt r1 r2 =>
      match backtrack total r1 s cs k with
      | Some a => Some a
      | None => backtrack total r2 s cs k
      end
  | Star r1 => starLoop (backtrack total r1) k (String.length s) s cs
  | Capture i r1 =>
      backtrack total r1 s cs (fun s' cs' => k s' ((i, consumed s s') :: cs'))
  end.

(** A matcher is shrinking when it hands to its continuation a suffix of
    what it was given. *)
Definition shrinking {A : Type}
    (step : string -> captures -> (string -> captures -> option A) -> option A) : Prop :=
  forall s cs k a, step s cs k = Some a ->
    exists s' cs', (String.length s' <= String.length s)%nat /\ k s' cs' = Some a.

(** A pattern that cannot match the empty string, by its shape. *)
Fixpoint consuming (r : regex) : bool :=
  match r with
  | Empty | BeginText | EndText | Star _ => false
  | Class _ => true
  | Lit l => negb (stringEqb l "")
  | Cat r1 r2 => consuming r1 || consuming r2
  | Alt r1 r2 => consuming r1 && consuming r2
  | Capture _ r1 => consuming r1
  end.

(** A match anchored at the start of the suffix [s]: the whole match
    followed by groups 1..ncap, and the unread rest. *)
Definition matchAt (total : nat) (r : regex) (ncap : nat) (s : string)
    : option (list string * string) :=
  backtrack total r s []
    (fun s' cs => Some (consumed s s' :: map (fun i => capture i cs) (seq 1 ncap), s')).

(** The leftmost match in [s]: where it starts, the match, the rest. *)
Fixpoint search (total : nat) (r : regex) (ncap : nat) (s : string)
    : option (string * list string * string) :=
  match matchAt total r ncap s with
  | Some (m, rest) => Some (s, m, rest)
  | None =>
      match s with
      | String _ s' => search total r ncap s'
      | EmptyString => None
      end
  end.

(** [re.MatchString(s)]: whether [s] contains any match. *)
Definition MatchString (r : regex) (s : string) : bool :=
  match search (String.length s) r 0 s with Some _ => true | None => false end.

(** [re.FindAllStringSubmatch(s, -1)]: successive non-overlapping
    matches.  An empty match is dropped when it touches the previous
    match, and the scan then moves on by one position. *)
Fixpoint findAll (fuel total : nat) (r : regex) (ncap : nat) (prevEnd : option nat)
    (s : string) : list (list string) :=
  match fuel with
  | O => []
  | S fuel' =>
      match search total r ncap s with
      | None => []
      | Some (start, m, rest) =>
          if (String.length rest =? String.length s)%nat then
            let accept :=
              match prevEnd with
              | Some e => negb (String.length start =? e)%nat
              | None => true
              end in
            (if accept then [m] else []) ++
            match s with
            | String _ s' => findAll fuel' total r ncap (Some (String.length rest)) s'
            | EmptyString => []
            end
          else m :: findAll fuel' total r ncap (Some (String.length rest)) rest
      end
  end.

Definition FindAllStringSubmatch (r : regex) (ncap : nat) (s : string)
    : list (list string) :=
  findAll (S (String.length s)) (String.length s) r ncap None s.

(** *** Duration.String (the %s verb on a Duration) *)

Definition digitChar (d : Z) : ascii := ascii_of_nat (Z.to_nat (d + 48)).

(** [fmtInt]: the decimal digits of [v] in front of [tail]. *)
Fixpoint fmtInt_loop (fuel : nat) (tail : string) (v : Z) : string :=
  match fuel with
  | O => tail
  | S fuel' =>
      if v >? 0 then fmtInt_loop fuel' (String (digitChar (v mod 10)) tail) (v / 10)
      else tail
  end.

Definition fmtInt (tail : string) (v : Z) : string :=
  if v =? 0 then String "0" tail else fmtInt_loop 20 tail v.

(** [fmtFrac]: the last [prec] digits of [v] as a fraction without its
    trailing zeros, and [v / 10^prec]. *)
Fixpoint fmtFrac_loop (prec : nat) (tail : string) (v : Z) (print : bool)
    : string * Z * bool :=
  match prec with
  | O => (tail, v, print)
  | S prec' =>
      let digit := v mod 10 in
      let print' := print || negb (digit =? 0) in
      fmtFrac_loop prec' (if print' then String (digitChar digit) tail else tail)
                   (v / 10) print'
  end.

Definition fmtFrac (tail : string) (v : Z) (prec : nat) : string * Z :=
  let '(w, v', print) := fmtFrac_loop prec tail v false in
  (if print then String "." w else w, v').

Definition Duration_String (d : Duration) : string :=
  let u := Z.abs d in
  let body :=
    if u <? Second then
      if u =? 0 then "0s"
      else
        let '(prec, unit) :=
          if u <? Microsecond then (0%nat, "ns")
          else if u <? Millisecond then (3%nat, "µs")
          else (6%nat, "ms") in
        let '(w, u') := fmtFrac unit u prec in
        fmtInt w u'
    else
      let '(w, u1) := fmtFrac "s" u 9 in
      let w1 := fmtInt w (u1 mod 60) in
      let u2 := u1 / 60 in
      if u2 >? 0 then
        let w2 := fmtInt (String "m" w1) (u2 mod 60) in
        let u3 := u2 / 60 in
        if u3 >? 0 then fmtInt (String "h" w2) u3 else w2
      else w1 in
  if d <? 0 then String "-" body else body.

(** *** time.Time

    An instant is counted in nanoseconds from 0001-01-01T00:00:00Z, the
    zero [Time].  Only instants parsed from text and the current wall
    clock occur here, so a monotonic reading never takes part in a
    comparison. *)

Definition Time := Z.

Definition zeroTime : Time := 0.

(** [t.Sub(u)]: the difference, saturated to the range of a Duration. *)
Definition Time_Sub (t u : Time) : Duration :=
  let d := t - u in
  if d <? minDuration then minDuration
  else if d >? maxDuration then maxDuration
  else d.

(** [time.Since(t)] when the clock reads [now]. *)
Definition Since (now t : Time) : Duration := Time_Sub now t.

Definition Time_After (t u : Time) : bool := t >? u.

(** [time.Date(t.Year(), t.Month(), t.Day(), 0, 0, 0, 0, time.UTC)] for
    a [t] in UTC: midnight of the day of [t]. *)
Definition midnightUTC (t : Time) : Time := t - t mod (24 * Hour).

Definition RFC3339 : string := "2006-01-02T15:04:05Z07:00".

(** [time.Parse(layout, value)] is the library's; the packages only rely
    on it being a function of its two arguments.  [None] is the error
    return. *)
Class TimeParser := time_Parse : string -> string -> option Time.

End Go.

(** ** Objects of the platform: unstructured trees and their accessors *)

Module k8s.
Import Go.

(** The dynamic values of a decoded object: [map[string]interface{}] and
    what it can hold. *)
Inductive value :=
| VNil
| VBool (b : bool)
| VString (s : string)
| VInt (z : Z)
| VFloat (f : float64)
| VSlice (l : list value)
| VMap (m : gmap string value).

Record Unstructured := { Object : gmap string value }.

Inductive nested := Found (v : value) | NotFound | NestedErr.

(** [NestedFieldNoCopy]: walk the field path through nested maps. *)
Fixpoint NestedFieldNoCopy_from (val : value) (fields : list string) : nested :=
  match fields with
  | [] => Found val
  | field :: fields' =>
      match val with
      | VNil => NotFound
      | VMap m =>
          match m !! field with
          | Some v => NestedFieldNoCopy_from v fields'
          | None => NotFound
          end
      | _ => NestedErr
      end
  end.

Definition NestedFieldNoCopy (obj : gmap string value) (fields : list string) : nested :=
  NestedFieldNoCopy_from (VMap obj) fields.

(** [getNestedString]: the string at the path, or "" when it is absent or
    not a string. *)
Definition getNestedString (obj : gmap string value) (fields : list string) : string :=
  match NestedFieldNoCopy obj fields with
  | Found (VString s) => s
  | _ => ""
  end.

Definition asString (v : value) : option string :=
  match v with VString s => Some s | _ => None end.

(** [NestedStringMap] as [GetAnnotations] uses it: the map at the path
    when every value in it is a string, and the nil map otherwise (a
    lookup in the nil map finds nothing). *)
Definition NestedStringMap (obj : gmap string value) (fields : list string)
    : gmap string string :=
  match NestedFieldNoCopy obj fields with
  | Found (VMap m) =>
      if bool_decide (map_Forall (fun _ v => is_Some (asString v)) m)
      then omap asString m else ∅
  | _ => ∅
  end.

Definition GetAnnotations (u : Unstructured) : gmap string string :=
  NestedStringMap (Object u) ["metadata"; "annotations"].

Definition GetKind (u : Unstructured) : string := getNestedString (Object u) ["kind"].
Definition GetName (u : Unstructured) : string :=
  getNestedString (Object u) ["metadata"; "name"].
Definition GetUID (u : Unstructured) : string :=
  getNestedString (Object u) ["metadata"; "uid"].

(** [GetCreationTimestamp]: the field parsed as RFC3339; the zero time
    when the field is absent, empty, "null" or does not parse. *)
Definition GetCreationTimestamp `{TimeParser} (u : Unstructured) : Time :=
  let str := getNestedString (Object u) ["metadata"; "creationTimestamp"] in
  if stringEqb str "" then zeroTime
  else if stringEqb str "null" then zeroTime
  else
    match time_Parse RFC3339 str with
    | Some t => t
    | None => zeroTime
    end.

End k8s.

(** ** package rules *)

Module rules.
Import Go k8s.

(** Rule represents a cleanup rule. *)
Record Rule := {
  ID : string;
  Resources : list string;
  Expression : string;
  TTL : string
}.

(** *** The expression library (CEL)

    What the type switch of [evaluateRule] can see of [out.Value()]. *)
Inductive GoValue :=
| GoBool (b : bool)
| GoString (s : string)
| GoSlice (l : list value)
| GoMap (m : gmap string value)
| GoOther.

Definition CelError := string.

(** A [cel.Program]: its [Eval] on the activation map. *)
Definition Program := gmap string value -> result CelError GoValue.

(** A [cel.Env]: [Compile] on the source of an expression, and [Program]
    on the checked syntax tree. *)
Record Env := {
  Ast : Type;
  Compile : string -> result CelError Ast;
  NewProgram : Ast -> result CelError Program
}.

(** [cel.NewEnv] with the declarations of [object] and [_context]. *)
Class Cel := cel_NewEnv : result CelError Env.

Record compiledRule := {
  rule : Rule;
  program : Program;
  ttlDuration : Duration
}.

(** Engine is the rules evaluation engine. *)
Record Engine := { rules : list compiledRule }.

Definition lower (c : ascii) : bool :=
  let n := nat_of_ascii c in (97 <=? n)%nat && (n <=? 122)%nat.

(** [^[a-z][a-z0-9-]*$] *)
Definition idRegex : regex :=
  Cat BeginText
    (Cat (Class lower)
       (Cat (Star (Class (fun c => lower c || isDigit c || Ascii.eqb c "-")))
          EndText)).

(** *** parseExtendedDuration *)

Inductive DurationError :=
| InvalidFormat (s : string)
| InvalidNumber (s : string)
| UnknownUnit (s : string).

Definition DurationError_Error (e : DurationError) : string :=
  match e with
  | InvalidFormat s => "invalid duration format: " +:+ s
  | InvalidNumber s => "invalid number in duration: " +:+ s
  | UnknownUnit s => "unknown time unit: " +:+ s
  end.

(** [(\d+(?:\.\d+)?)\s*(months?|w|d|h|m|s|ms|us|µs|ns)] *)
Definition durationRe : regex :=
  Cat (Capture 1 (Cat (Plus (Class isDigit))
                      (Quest (Cat (Lit ".") (Plus (Class isDigit))))))
    (Cat (Star (Class isSpace))
       (Capture 2
          (Alt (Cat (Lit "month") (Quest (Lit "s")))
          (Alt (Lit "w")
          (Alt (Lit "d")
          (Alt (Lit "h")
          (Alt (Lit "m")
          (Alt (Lit "s")
          (Alt (Lit "ms")
          (Alt (Lit "us")
          (Alt (Lit "µs")
               (Lit "ns")))))))))))).

Definition f64_Hour : float64 := f64_of_Z Hour.

(** The switch on the unit of a token. *)
Definition unitDuration (value : float64) (unit : string) : option Duration :=
  if stringEqb unit "month" || stringEqb unit "months" then
    Some (f64_to_int64
            (f64_mul (f64_mul (f64_mul value (f64_of_Z 30)) (f64_of_Z 24)) f64_Hour))
  else if stringEqb unit "w" then
    Some (f64_to_int64
            (f64_mul (f64_mul (f64_mul value (f64_of_Z 7)) (f64_of_Z 24)) f64_Hour))
  else if stringEqb unit "d" then
    Some (f64_to_int64 (f64_mul (f64_mul value (f64_of_Z 24)) f64_Hour))
  else if stringEqb unit "h" then Some (f64_to_int64 (f64_mul value f64_Hour))
  else if stringEqb unit "m" then Some (f64_to_int64 (f64_mul value (f64_of_Z Minute)))
  else if stringEqb unit "s" then Some (f64_to_int64 (f64_mul value (f64_of_Z Second)))
  else if stringEqb unit "ms" then
    Some (f64_to_int64 (f64_mul value (f64_of_Z Millisecond)))
  else if stringEqb unit "us" || stringEqb unit "µs" then
    Some (f64_to_int64 (f64_mul value (f64_of_Z Microsecond)))
  else if stringEqb unit "ns" then
    Some (f64_to_int64 (f64_mul value (f64_of_Z Nanosecond)))
  else None.

(** The loop over the matches: [totalDuration += unitDuration]. *)
Fixpoint sumMatches (matches : list (list string)) (totalDuration : Duration)
    : result DurationError Duration :=
  match matches with
  | [] => Ok totalDuration
  | m :: matches' =>
      match ParseFloat (nth 1 m "") with
      | Err _ => Err (InvalidNumber (nth 1 m ""))
      | Ok value =>
          let unit := nth 2 m "" in
          match unitDuration value unit with
          | None => Err (UnknownUnit unit)
          | Some d => sumMatches matches' (wrap64 (totalDuration + d))
          end
      end
  end.

(** [consumed += match[0]] over the matches. *)
Definition consumedText (matches : list (list string)) : string :=
  fold_left (fun acc m => acc +:+ nth 0 m "") matches "".

Definition parseExtendedDuration (s : string) : result DurationError Duration :=
  match ParseDuration s with
  | Some d => Ok d
  | None =>
      let matches := FindAllStringSubmatch durationRe 2 s in
      if (length matches =? 0)%nat then Err (InvalidFormat s) else
      match sumMatches matches 0 with
      | Err e => Err e
      | Ok totalDuration =>
          if negb (stringEqb (removeSpaces s) (removeSpaces (consumedText matches)))
          then Err (InvalidFormat s)
          else Ok totalDuration
      end
  end.

(** *** New: validate and compile the rules in order *)

Inductive LoadError :=
| EnvFailed (cause : CelError)
| InvalidID (id : string)
| InvalidTTL (ttl id : string) (cause : DurationError)
| CompileFailed (id : string) (cause : CelError)
| ProgramFailed (id : string) (cause : CelError).

Definition LoadError_Error (e : LoadError) : string :=
  match e with
  | EnvFailed c => "failed to create CEL environment: " +:+ c
  | InvalidID id =>
      "invalid rule ID '" +:+ id +:+ "': must be lowercase and match ^[a-z][a-z0-9-]*$"
  | InvalidTTL ttl id c =>
      "invalid TTL '" +:+ ttl +:+ "' in rule '" +:+ id +:+ "': " +:+ DurationError_Error c
  | CompileFailed id c =>
      "failed to compile expression for rule '" +:+ id +:+ "': " +:+ c
  | ProgramFailed id c =>
      "failed to create program for rule '" +:+ id +:+ "': " +:+ c
  end.

(** The body of the loop for one rule. *)
Definition compileRule (env : Env) (r : Rule) : result LoadError compiledRule :=
  if negb (MatchString idRegex (ID r)) then Err (InvalidID (ID r)) else
  match parseExtendedDuration (TTL r) with
  | Err e => Err (InvalidTTL (TTL r) (ID r) e)
  | Ok ttl =>
      match Compile env (Expression r) with
      | Err e => Err (CompileFailed (ID r) e)
      | Ok ast =>
          match NewProgram env ast with
          | Err e => Err (ProgramFailed (ID r) e)
          | Ok prog => Ok {| rule := r; program := prog; ttlDuration := ttl |}
          end
      end
  end.

(** The loop: [engine.rules = append(engine.rules, ...)], leaving at the
    first error. *)
Fixpoint compileRules (env : Env) (rs : list Rule) (acc : list compiledRule)
    : result LoadError (list compiledRule) :=
  match rs with
  | [] => Ok acc
  | r :: rs' =>
      match compileRule env r with
      | Err e => Err e
      | Ok cr => compileRules env rs' (acc ++ [cr])
      end
  end.

Definition New `{Cel} (rs : list Rule) : result LoadError Engine :=
  match cel_NewEnv with
  | Err e => Err (EnvFailed e)
  | Ok env =>
      match compileRules env rs [] with
      | Err e => Err e
      | Ok crs => Ok {| rules := crs |}
      end
  end.

(** An earlier revision of [New], kept in the sources next to the one
    above: it differs only in parsing the TTL with [time.ParseDuration],
    so the units d, w and month are errors there. *)
Inductive LoadError0 :=
| EnvFailed0 (cause : CelError)
| InvalidID0 (id : string)
| InvalidTTL0 (ttl id : string)
| CompileFailed0 (id : string) (cause : CelError)
| ProgramFailed0 (id : string) (cause : CelError).

Definition compileRule0 (env : Env) (r : Rule) : result LoadError0 compiledRule :=
  if negb (MatchString idRegex (ID r)) then Err (InvalidID0 (ID r)) else
  match ParseDuration (TTL r) with
  | None => Err (InvalidTTL0 (TTL r) (ID r))
  | Some ttl =>
      match Compile env (Expression r) with
      | Err e => Err (CompileFailed0 (ID r) e)
      | Ok ast =>
          match NewProgram env ast with
          | Err e => Err (ProgramFailed0 (ID r) e)
          | Ok prog => Ok {| rule := r; program := prog; ttlDuration := ttl |}
          end
      end
  end.

Fixpoint compileRules0 (env : Env) (rs : list Rule) (acc : list compiledRule)
    : result LoadError0 (list compiledRule) :=
  match rs with
  | [] => Ok acc
  | r :: rs' =>
      match compileRule0 env r with
      | Err e => Err e
      | Ok cr => compileRules0 env rs' (acc ++ [cr])
      end
  end.

Definition New0 `{Cel} (rs : list Rule) : result LoadError0 Engine :=
  match cel_NewEnv with
  | Err e => Err (EnvFailed0 e)
  | Ok env =>
      match compileRules0 env rs [] with
      | Err e => Err e
      | Ok crs => Ok {| rules := crs |}
      end
  end.

(** *** Evaluate *)

(** Simple pluralization function for common Kubernetes resources. *)
Definition pluralize (kind : string) : string :=
  if stringEqb kind "Pod" then "pods"
  else if stringEqb kind "Service" then "services"
  else if stringEqb kind "Deployment" then "deployments"
  else if stringEqb kind "StatefulSet" then "statefulsets"
  else if stringEqb kind "DaemonSet" then "daemonsets"
  else if stringEqb kind "ReplicaSet" then "replicasets"
  else if stringEqb kind "ConfigMap" then "configmaps"
  else if stringEqb kind "Secret" then "secrets"
  else if stringEqb kind "PersistentVolumeClaim" then "persistentvolumeclaims"
  else if stringEqb kind "PersistentVolume" then "persistentvolumes"
  else if stringEqb kind "Namespace" then "namespaces"
  else if stringEqb kind "Ingress" then "ingresses"
  else if stringEqb kind "NetworkPolicy" then "networkpolicies"
  else kind +:+ "s".

Fixpoint resourceMatches (resources : list string) (kind : string) : bool :=
  match resources with
  | [] => false
  | r :: resources' =>
      if stringEqb r "*" || stringEqb r kind || stringEqb r (pluralize kind) then true
      else resourceMatches resources' kind
  end.

(** The activation handed to the program. *)
Definition input (obj : Unstructured) : gmap string value :=
  <["object" := VMap (Object obj)]> (<["_context" := VMap ∅]> ∅).

Definition evaluateRule (cr : compiledRule) (obj : Unstructured) : bool :=
  if negb (resourceMatches (Resources (rule cr)) (GetKind obj)) then false else
  match program cr (input obj) with
  | Err _ => false
  | Ok (GoBool v) => v
  | Ok (GoString v) => negb (stringEqb v "")
  | Ok (GoSlice v) => (0 <? length v)%nat
  | Ok (GoMap v) => (0 <? size v)%nat
  | Ok GoOther => false
  end.

Fixpoint Evaluate_from (rs : list compiledRule) (obj : Unstructured)
    : option Rule * Duration :=
  match rs with
  | [] => (None, 0)
  | cr :: rs' =>
      if evaluateRule cr obj then (Some (rule cr), ttlDuration cr)
      else Evaluate_from rs' obj
  end.

(** Evaluate evaluates all rules against an object and returns the first
    matching rule. *)
Definition Evaluate (e : Engine) (obj : Unstructured) : option Rule * Duration :=
  Evaluate_from (rules e) obj.

End rules.

(** ** package janitor *)

Module janitor.
Import Go k8s.

Definition annotationTTL : string := "janitor/ttl".
Definition annotationExpires : string := "janitor/expires".

(** *** ResourceFilter *)

(** ResourceFilter handles filtering of resources and namespaces. *)
Record ResourceFilter := {
  includeResources : gmap string bool;
  excludeResources : gmap string bool;
  includeNamespaces : gmap string bool;
  excludeNamespaces : gmap string bool;
  includeAllResources : bool;
  includeAllNamespaces : bool
}.

(** [for _, r := range xs { m[r] = true }] *)
Definition markAll (xs : list string) (m : gmap string bool) : gmap string bool :=
  fold_left (fun m r => <[r := true]> m) xs m.

(** [m[k]] on a [map[string]bool]: false when the key is absent. *)
Definition index (m : gmap string bool) (k : string) : bool := default false (m !! k).

Definition NewResourceFilter
    (includeResources excludeResources includeNamespaces excludeNamespaces : list string)
    : ResourceFilter :=
  {| includeResources :=
       if (length includeResources =? 0)%nat then ∅ else markAll includeResources ∅;
     excludeResources := markAll excludeResources ∅;
     includeNamespaces :=
       if (length includeNamespaces =? 0)%nat then ∅ else markAll includeNamespaces ∅;
     excludeNamespaces := markAll excludeNamespaces ∅;
     includeAllResources := (length includeResources =? 0)%nat;
     includeAllNamespaces := (length includeNamespaces =? 0)%nat |}.

(** ShouldProcessResource checks if a resource should be processed. *)
Definition ShouldProcessResource (rf : ResourceFilter) (resource : string) : bool :=
  if index (excludeResources rf) resource then false
  else if includeAllResources rf then true
  else index (includeResources rf) resource.

(** ShouldProcessNamespace checks if a namespace should be processed. *)
Definition ShouldProcessNamespace (rf : ResourceFilter) (namespace : string) : bool :=
  if index (excludeNamespaces rf) namespace then false
  else if includeAllNamespaces rf then true
  else index (includeNamespaces rf) namespace.

(** *** ParseExtendedDuration *)

Inductive DurationError :=
| InvalidFormat (s : string)
| InvalidNumber (s : string)
| UnknownUnit (s : string).

(** [(\d+(?:\.\d+)?)\s*(months?|w|d|h|m|s|ms|us|µs|ns)] *)
Definition durationRe : regex :=
  Cat (Capture 1 (Cat (Plus (Class isDigit))
                      (Quest (Cat (Lit ".") (Plus (Class isDigit))))))
    (Cat (Star (Class isSpace))
       (Capture 2
          (Alt (Cat (Lit "month") (Quest (Lit "s")))
          (Alt (Lit "w")
          (Alt (Lit "d")
          (Alt (Lit "h")
          (Alt (Lit "m")
          (Alt (Lit "s")
          (Alt (Lit "ms")
          (Alt (Lit "us")
          (Alt (Lit "µs")
               (Lit "ns")))))))))))).

Definition f64_Hour : float64 := f64_of_Z Hour.

(** The switch on the unit of a token. *)
Definition unitDuration (value : float64) (unit : string) : option Duration :=
  if stringEqb unit "month" || stringEqb unit "months" then
    Some (f64_to_int64
            (f64_mul (f64_mul (f64_mul value (f64_of_Z 30)) (f64_of_Z 24)) f64_Hour))
  else if stringEqb unit "w" then
    Some (f64_to_int64
            (f64_mul (f64_mul (f64_mul value (f64_of_Z 7)) (f64_of_Z 24)) f64_Hour))
  else if stringEqb unit "d" then
    Some (f64_to_int64 (f64_mul (f64_mul value (f64_of_Z 24)) f64_Hour))
  else if stringEqb unit "h" then Some (f64_to_int64 (f64_mul value f64_Hour))
  else if stringEqb unit "m" then Some (f64_to_int64 (f64_mul value (f64_of_Z Minute)))
  else if stringEqb unit "s" then Some (f64_to_int64 (f64_mul value (f64_of_Z Second)))
  else if stringEqb unit "ms" then
    Some (f64_to_int64 (f64_mul value (f64_of_Z Millisecond)))
  else if stringEqb unit "us" || stringEqb unit "µs" then
    Some (f64_to_int64 (f64_mul value (f64_of_Z Microsecond)))
  else if stringEqb unit "ns" then
    Some (f64_to_int64 (f64_mul value (f64_of_Z Nanosecond)))
  else None.

(** The loop over the matches: [totalDuration += unitDuration]. *)
Fixpoint sumMatches (matches : list (list string)) (totalDuration : Duration)
    : result DurationError Duration :=
  match matches with
  | [] => Ok totalDuration
  | m :: matches' =>
      match ParseFloat (nth 1 m "") with
      | Err _ => Err (InvalidNumber (nth 1 m ""))
      | Ok value =>
          let unit := nth 2 m "" in
          match unitDuration value unit with
          | None => Err (UnknownUnit unit)
          | Some d => sumMatches matches' (wrap64 (totalDuration + d))
          end
      end
  end.

(** [consumed += match[0]] over the matches. *)
Definition consumedText (matches : list (list string)) : string :=
  fold_left (fun acc m => acc +:+ nth 0 m "") matches "".

(** ParseExtendedDuration parses duration strings with extended units:
    standard Go units h, m, s, ms, us, ns and d (days), w (weeks),
    month/months. *)
Definition ParseExtendedDuration (s : string) : result DurationError Duration :=
  match ParseDuration s with
  | Some d => Ok d
  | None =>
      let matches := FindAllStringSubmatch durationRe 2 s in
      if (length matches =? 0)%nat then Err (InvalidFormat s) else
      match sumMatches matches 0 with
      | Err e => Err e
      | Ok totalDuration =>
          if negb (stringEqb (removeSpaces s) (removeSpaces (consumedText matches)))
          then Err (InvalidFormat s)
          else Ok totalDuration
      end
  end.

(** *** parseExpirationTime *)

Definition formats : list string :=
  [RFC3339; "2006-01-02T15:04:05"; "2006-01-02T15:04"; "2006-01-02"].

(** The loop over the formats; [None] is the error return
    "unable to parse expiration time". *)
Fixpoint parseExpirationTime_from `{TimeParser} (fs : list string) (expires : string)
    : option Time :=
  match fs with
  | [] => None
  | format :: fs' =>
      match time_Parse format expires with
      | Some t => Some (if stringEqb format "2006-01-02" then midnightUTC t else t)
      | None => parseExpirationTime_from fs' expires
      end
  end.

Definition parseExpirationTime `{TimeParser} (expires : string) : option Time :=
  parseExpirationTime_from formats expires.

(** *** The controller *)

Record Config := {
  DryRun : bool;
  Interval : Duration;
  Once : bool;
  IncludeResources : list string;
  ExcludeResources : list string;
  IncludeNamespaces : list string;
  ExcludeNamespaces : list string;
  RulesFile : string;
  MaxWorkers : Z
}.

Record GroupVersionResource := {
  Group : string;
  Version : string;
  Resource : string
}.

(** WorkItem represents an item to be processed. *)
Record WorkItem := {
  wiResource : GroupVersionResource;
  wiNamespace : string;
  wiName : string;
  wiObj : Unstructured
}.

(** The dynamic client as the controller uses it: what [List] returns for
    a resource and namespace, and whether [Delete] of a name fails
    ([Some] error) or not. *)
Record DynamicClient := {
  List : GroupVersionResource -> string -> result string (list Unstructured);
  Delete : GroupVersionResource -> string -> string -> option string
}.

(** Janitor is the main cleanup controller (the fields the decision and
    the workers read). *)
Record Janitor := {
  dynamicClient : DynamicClient;
  config : Config;
  RuleEngine : option rules.Engine;
  resourceFilter : ResourceFilter
}.

(** [fmt.Sprintf] of the three reasons. *)
Definition reasonTTL (age duration : Duration) : string :=
  "TTL expired (age: " +:+ Duration_String age +:+ ", ttl: " +:+
  Duration_String duration +:+ ")".

Definition reasonExpires (expires : string) : string :=
  "Expiration time reached (" +:+ expires +:+ ")".

Definition reasonRule (id : string) (age ttl : Duration) : string :=
  "Rule '" +:+ id +:+ "' matched (age: " +:+ Duration_String age +:+ ", ttl: " +:+
  Duration_String ttl +:+ ")".

(** The decision for one object when the clock reads [now]. *)
Definition shouldDelete `{TimeParser} (j : Janitor) (now : Time) (obj : Unstructured)
    : bool * string :=
  match GetAnnotations obj !! annotationTTL with
  | Some ttl =>
      match ParseExtendedDuration ttl with
      | Err _ => (false, "")
      | Ok duration =>
          let age := Since now (GetCreationTimestamp obj) in
          if age >? duration then (true, reasonTTL age duration)
          else (false, "")
      end
  | None =>
      match GetAnnotations obj !! annotationExpires with
      | Some expires =>
          match parseExpirationTime expires with
          | None => (false, "")
          | Some expirationTime =>
              if Time_After now expirationTime then (true, reasonExpires expires)
              else (false, "")
          end
      | None =>
          match RuleEngine j with
          | Some engine =>
              match rules.Evaluate engine obj with
              | (Some rule, ttl) =>
                  let age := Since now (GetCreationTimestamp obj) in
                  if age >? ttl then (true, reasonRule (rules.ID rule) age ttl)
                  else (false, "")
              | (None, _) => (false, "")
              end
          | None => (false, "")
          end
      end
  end.

(** *** Workers: effects on the platform, the event recorder and the
    metrics registry, passed as an explicit state *)

Record ObjectReference := {
  APIVersion : string;
  Kind : string;
  refNamespace : string;
  refName : string;
  UID : string
}.

Record Event := {
  involved : ObjectReference;
  eventtype : string;
  evReason : string;
  message : string
}.

(** The counter vectors of package metrics, by label values. *)
Record Metrics := {
  ResourcesDeleted : gmap (string * string * string) nat;
  ResourcesEvaluated : gmap (string * string) nat;
  Errors : gmap string nat
}.

Record World := {
  deleteCalls : list (GroupVersionResource * string * string);
  events : list Event;
  metrics : Metrics;
  WorkQueue : list WorkItem
}.

(** [counter.WithLabelValues(k).Inc()] *)
Definition Inc `{Countable K} (k : K) (m : gmap K nat) : gmap K nat :=
  <[k := S (default 0%nat (m !! k))]> m.

Definition incDeleted (k : string * string * string) (w : World) : World :=
  {| deleteCalls := deleteCalls w; events := events w;
     metrics := {| ResourcesDeleted := Inc k (ResourcesDeleted (metrics w));
                   ResourcesEvaluated := ResourcesEvaluated (metrics w);
                   Errors := Errors (metrics w) |};
     WorkQueue := WorkQueue w |}.

Definition incEvaluated (k : string * string) (w : World) : World :=
  {| deleteCalls := deleteCalls w; events := events w;
     metrics := {| ResourcesDeleted := ResourcesDeleted (metrics w);
                   ResourcesEvaluated := Inc k (ResourcesEvaluated (metrics w));
                   Errors := Errors (metrics w) |};
     WorkQueue := WorkQueue w |}.

Definition incErrors (k : string) (w : World) : World :=
  {| deleteCalls := deleteCalls w; events := events w;
     metrics := {| ResourcesDeleted := ResourcesDeleted (metrics w);
                   ResourcesEvaluated := ResourcesEvaluated (metrics w);
                   Errors := Inc k (Errors (metrics w)) |};
     WorkQueue := WorkQueue w |}.

(** [j.EventRecorder.Event(ref, eventtype, reason, message)] *)
Definition recordEvent (e : Event) (w : World) : World :=
  {| deleteCalls := deleteCalls w; events := events w ++ [e];
     metrics := metrics w; WorkQueue := WorkQueue w |}.

(** A [Delete] call issued on the platform. *)
Definition issueDelete (c : GroupVersionResource * string * string) (w : World) : World :=
  {| deleteCalls := deleteCalls w ++ [c]; events := events w;
     metrics := metrics w; WorkQueue := WorkQueue w |}.

(** [j.WorkQueue <- item] *)
Definition enqueue (item : WorkItem) (w : World) : World :=
  {| deleteCalls := deleteCalls w; events := events w;
     metrics := metrics w; WorkQueue := WorkQueue w ++ [item] |}.

Definition EventTypeNormal : string := "Normal".
Definition EventTypeWarning : string := "Warning".

Definition processItem `{TimeParser} (j : Janitor) (now : Time) (item : WorkItem)
    (w : World) : World :=
  let '(del, reason) := shouldDelete j now (wiObj item) in
  if negb del then w else
  let ref :=
    {| APIVersion := Group (wiResource item) +:+ "/" +:+ Version (wiResource item);
       Kind := GetKind (wiObj item);
       refNamespace := wiNamespace item;
       refName := wiName item;
       UID := GetUID (wiObj item) |} in
  let target :=
    Resource (wiResource item) +:+ " " +:+ wiNamespace item +:+ "/" +:+ wiName item in
  if DryRun (config j) then
    recordEvent {| involved := ref; eventtype := EventTypeNormal;
                   evReason := "DryRunDeletion";
                   message := "DRY RUN: Would delete " +:+ target +:+ " - " +:+ reason |} w
  else
    let w1 := issueDelete (wiResource item, wiNamespace item, wiName item) w in
    match Delete (dynamicClient j) (wiResource item) (wiNamespace item) (wiName item) with
    | Some err =>
        recordEvent {| involved := ref; eventtype := EventTypeWarning;
                       evReason := "DeletionFailed";
                       message := "Failed to delete " +:+ target +:+ ": " +:+ err |}
          (incErrors "delete_resource" w1)
    | None =>
        recordEvent {| involved := ref; eventtype := EventTypeNormal;
                       evReason := "ResourceDeleted";
                       message := "Deleted " +:+ target +:+ " - " +:+ reason |}
          (incDeleted (Resource (wiResource item), wiNamespace item, reason) w1)
    end.

(** List the objects of one resource and namespace, count each as
    evaluated and hand it to the workers. *)
Definition processResources (j : Janitor) (gvr : GroupVersionResource)
    (namespace : string) (w : World) : option string * World :=
  match List (dynamicClient j) gvr namespace with
  | Err e => (Some e, w)
  | Ok items =>
      (None,
       fold_left
         (fun w obj =>
            enqueue {| wiResource := gvr; wiNamespace := namespace;
                       wiName := GetName obj; wiObj := obj |}
              (incEvaluated (Resource gvr, namespace) w))
         items w)
  end.

End janitor.

(** ** Concrete libraries and objects on which the definitions are run

    The theorems below hold for every [TimeParser] and every [Cel].  To
    evaluate the packages on concrete objects this module supplies one of
    each: a parser for the canonical zero-padded UTC spellings of the four
    layouts, and an expression environment that compiles the two boolean
    literals only. *)

Module fixtures.
Import Go k8s.

(** Read [s] against a picture: 'd' stands for a digit, any other byte
    for itself.  The digits are returned in order. *)
Fixpoint scan (picture s : string) (acc : list Z) : option (list Z) :=
  match picture, s with
  | EmptyString, EmptyString => Some (rev acc)
  | String p picture', String c s' =>
      if Ascii.eqb p "d" then
        if isDigit c then scan picture' s' (digitVal c :: acc) else None
      else if Ascii.eqb p c then scan picture' s' acc
      else None
  | _, _ => None
  end.

Definition isLeap (y : Z) : bool :=
  ((y mod 4 =? 0) && negb (y mod 100 =? 0)) || (y mod 400 =? 0).

Definition daysIn (y m : Z) : Z :=
  if m =? 2 then (if isLeap y then 29 else 28)
  else if (m =? 4) || (m =? 6) || (m =? 9) || (m =? 11) then 30
  else 31.

(** Days from 0001-01-01 to the given day of the proleptic Gregorian
    calendar. *)
Definition daysSinceYear1 (y m d : Z) : Z :=
  let y' := if m <=? 2 then y - 1 else y in
  let era := y' / 400 in
  let yoe := y' - era * 400 in
  let doy := (153 * (m + (if m >? 2 then -3 else 9)) + 2) / 5 + d - 1 in
  let doe := yoe * 365 + yoe / 4 - yoe / 100 + doy in
  era * 146097 + doe - 306.

Definition instant (y m d hh mm ss : Z) : option Time :=
  if (1 <=? m) && (m <=? 12) && (1 <=? d) && (d <=? daysIn y m)
     && (hh <? 24) && (mm <? 60) && (ss <? 60)
  then Some ((((daysSinceYear1 y m d * 24 + hh) * 60 + mm) * 60 + ss) * Second)
  else None.

Definition fields (ds : list Z) : option Time :=
  match ds with
  | [y1; y2; y3; y4; m1; m2; d1; d2] =>
      instant (((y1 * 10 + y2) * 10 + y3) * 10 + y4) (m1 * 10 + m2) (d1 * 10 + d2) 0 0 0
  | [y1; y2; y3; y4; m1; m2; d1; d2; h1; h2; n1; n2] =>
      instant (((y1 * 10 + y2) * 10 + y3) * 10 + y4) (m1 * 10 + m2) (d1 * 10 + d2)
              (h1 * 10 + h2) (n1 * 10 + n2) 0
  | [y1; y2; y3; y4; m1; m2; d1; d2; h1; h2; n1; n2; s1; s2] =>
      instant (((y1 * 10 + y2) * 10 + y3) * 10 + y4) (m1 * 10 + m2) (d1 * 10 + d2)
              (h1 * 10 + h2) (n1 * 10 + n2) (s1 * 10 + s2)
  | _ => None
  end.

Definition picture (layout : string) : option string :=
  if stringEqb layout RFC3339 then Some "dddd-dd-ddTdd:dd:ddZ"
  else if stringEqb layout "2006-01-02T15:04:05" then Some "dddd-dd-ddTdd:dd:dd"
  else if stringEqb layout "2006-01-02T15:04" then Some "dddd-dd-ddTdd:dd"
  else if stringEqb layout "2006-01-02" then Some "dddd-dd-dd"
  else None.

Definition canonicalParse (layout value : string) : option Time :=
  match picture layout with
  | Some p =>
      match scan p value [] with
      | Some ds => fields ds
      | None => None
      end
  | None => None
  end.

Definition canonical : TimeParser := canonicalParse.

(** An expression environment for the literals [true] and [false]. *)
Definition literalEnv : rules.Env :=
  {| rules.Ast := bool;
     rules.Compile := fun e =>
       if stringEqb e "true" then Ok true
       else if stringEqb e "false" then Ok false
       else Err "undeclared reference";
     rules.NewProgram := fun b => Ok (fun _ => Ok (rules.GoBool b)) |}.

Definition literals : rules.Cel := Ok literalEnv.

(** 2025-01-01T12:00:00Z, the clock reading of the scenarios. *)
Definition noon : Time :=
  default 0 (canonicalParse RFC3339 "2025-01-01T12:00:00Z").

(** An object of the given kind with the given annotations and, when
    given, a creation timestamp. *)
Definition object (kind : string) (annotations : list (string * string))
    (created : option string) : Unstructured :=
  let anns : gmap string value :=
    list_to_map (map (fun kv => (fst kv, VString (snd kv))) annotations) in
  let meta0 : gmap string value :=
    <["name" := VString "test-pod"]> (<["annotations" := VMap anns]> ∅) in
  let meta :=
    match created with
    | Some c => <["creationTimestamp" := VString c]> meta0
    | None => meta0
    end in
  {| Object := <["kind" := VString kind]> (<["metadata" := VMap meta]> ∅) |}.

Definition noClient : janitor.DynamicClient :=
  {| janitor.List := fun _ _ => Ok []; janitor.Delete := fun _ _ _ => None |}.

Definition defaultConfig (dryRun : bool) : janitor.Config :=
  {| janitor.DryRun := dryRun; janitor.Interval := 60 * Second; janitor.Once := false;
     janitor.IncludeResources := []; janitor.ExcludeResources := [];
     janitor.IncludeNamespaces := []; janitor.ExcludeNamespaces := [];
     janitor.RulesFile := ""; janitor.MaxWorkers := 5 |}.

(** A controller without rules. *)
Definition plain (dryRun : bool) : janitor.Janitor :=
  {| janitor.dynamicClient := noClient;
     janitor.config := defaultConfig dryRun;
     janitor.RuleEngine := None;
     janitor.resourceFilter := janitor.NewResourceFilter [] [] [] [] |}.

Definition sampleRule (id : string) (resources : list string) (ttl : string)
    : rules.Rule :=
  {| rules.ID := id; rules.Resources := resources;
     rules.Expression := "true"; rules.TTL := ttl |}.

(** Four compiled rules: one whose predicate fails at run time, one for
    another kind, one that yields a non-empty string, one that yields
    true. *)
Definition failing : rules.compiledRule :=
  {| rules.rule := sampleRule "by-label" ["pods"] "1h";
     rules.program := fun _ => Err "no such key: labels";
     rules.ttlDuration := Hour |}.
Definition otherKind : rules.compiledRule :=
  {| rules.rule := sampleRule "old-deployments" ["deployments"] "2h";
     rules.program := fun _ => Ok (rules.GoBool true);
     rules.ttlDuration := 2 * Hour |}.
Definition named : rules.compiledRule :=
  {| rules.rule := sampleRule "named" ["*"] "4h";
     rules.program := fun _ => Ok (rules.GoString "test-pod");
     rules.ttlDuration := 4 * Hour |}.
Definition allPods : rules.compiledRule :=
  {| rules.rule := sampleRule "all-pods" ["Pod"] "8h";
     rules.program := fun _ => Ok (rules.GoBool true);
     rules.ttlDuration := 8 * Hour |}.

Definition sampleEngine : rules.Engine :=
  {| rules.rules := [failing; otherKind; named; allPods] |}.

(** A pod created an hour before noon whose TTL is "0s", as a work item. *)
Definition expiredItem : janitor.WorkItem :=
  {| janitor.wiResource :=
       {| janitor.Group := ""; janitor.Version := "v1"; janitor.Resource := "pods" |};
     janitor.wiNamespace := "default";
     janitor.wiName := "test-pod";
     janitor.wiObj := object "Pod" [("janitor/ttl", "0s")] (Some "2025-01-01T11:00:00Z") |}.

(** A pod without creation timestamp whose TTL is the largest Duration. *)
Definition maxTtlPod : Unstructured :=
  object "Pod" [("janitor/ttl", "9223372036854775807ns")] None.

(** A dynamic client whose every delete is refused. *)
Definition refusingClient : janitor.DynamicClient :=
  {| janitor.List := fun _ _ => Ok [];
     janitor.Delete := fun _ _ _ => Some "pods 'test-pod' is forbidden" |}.

Definition refused : janitor.Janitor :=
  {| janitor.dynamicClient := refusingClient;
     janitor.config := defaultConfig false;
     janitor.RuleEngine := None;
     janitor.resourceFilter := janitor.NewResourceFilter [] [] [] [] |}.

(** A controller whose single rule matches every object at once. *)
Definition catchAll : rules.compiledRule :=
  {| rules.rule := sampleRule "catch-all" ["*"] "0s";
     rules.program := fun _ => Ok (rules.GoBool true);
     rules.ttlDuration := 0 |}.

Definition ruled : janitor.Janitor :=
  {| janitor.dynamicClient := noClient;
     janitor.config := defaultConfig false;
     janitor.RuleEngine := Some {| rules.rules := [catchAll] |};
     janitor.resourceFilter := janitor.NewResourceFilter [] [] [] [] |}.

(** A small cluster: pods in three namespaces, nodes cluster-wide, and
    a resource that cannot be deleted. *)
Definition agedPod : Unstructured :=
  object "Pod" [("janitor/ttl", "1h")] (Some "2025-01-01T10:00:00Z").

Definition clusterClient : janitor.DynamicClient :=
  {| janitor.List := fun gvr ns =>
       if stringEqb (janitor.Resource gvr) "pods" then
         if stringEqb ns "staging" then Err "timeout" else Ok [agedPod]
       else Ok [];
     janitor.Delete := fun _ _ _ => None |}.

Definition clusterJanitor : janitor.Janitor :=
  {| janitor.dynamicClient := clusterClient;
     janitor.config := defaultConfig false;
     janitor.RuleEngine := None;
     janitor.resourceFilter :=
       janitor.NewResourceFilter [] ["events"] [] ["kube-system"] |}.

Definition emptyWorld : janitor.World :=
  {| janitor.deleteCalls := []; janitor.events := [];
     janitor.metrics := {| janitor.ResourcesDeleted := ∅;
                           janitor.ResourcesEvaluated := ∅;
                           janitor.Errors := ∅ |};
     janitor.WorkQueue := [] |}.

End fixtures.

(** ** The specification's own words, to compare the code against *)

Module spec.
Import Go k8s.

(** The mandated pluralization table. *)
Definition pluralTable : list (string * string) :=
  [("Pod", "pods"); ("Service", "services"); ("Deployment", "deployments");
   ("StatefulSet", "statefulsets"); ("DaemonSet", "daemonsets");
   ("ReplicaSet", "replicasets"); ("ConfigMap", "configmaps"); ("Secret", "secrets");
   ("PersistentVolumeClaim", "persistentvolumeclaims");
   ("PersistentVolume", "persistentvolumes"); ("Namespace", "namespaces");
   ("Ingress", "ingresses"); ("NetworkPolicy", "networkpolicies")].

Fixpoint assoc (k : string) (t : list (string * string)) : option string :=
  match t with
  | [] => None
  | (k', v) :: t' => if String.eqb k k' then Some v else assoc k t'
  end.

(** admit(r) = (r ∉ excludes) ∧ (includeAll ∨ r ∈ includes), where
    includeAll means that the include sequence is empty. *)
Definition allow (includes excludes : list string) (r : string) : bool :=
  negb (bool_decide (r ∈ excludes)) &&
  (bool_decide (includes = []) || bool_decide (r ∈ includes)).

(** Coercion of a predicate result: booleans pass through; a non-empty
    string, list or map is truthy; anything else is falsy. *)
Definition truthy (v : rules.GoValue) : bool :=
  match v with
  | rules.GoBool b => b
  | rules.GoString s => negb (bool_decide (s = ""))
  | rules.GoSlice l => negb (bool_decide (l = []))
  | rules.GoMap m => negb (bool_decide (m = ∅))
  | rules.GoOther => false
  end.

Fixpoint allBytes (p : ascii -> bool) (s : string) : bool :=
  match s with
  | String c s' => p c && allBytes p s'
  | EmptyString => true
  end.

(** An ID matches ^[a-z][a-z0-9-]*$: its first byte is a lowercase
    letter and every later byte a lowercase letter, a digit or '-'. *)
Definition validID (id : string) : bool :=
  match id with
  | String c id' =>
      rules.lower c
      && allBytes (fun c => rules.lower c || isDigit c || Ascii.eqb c "-") id'
  | EmptyString => false
  end.

(** A rule that loads: a valid ID, a TTL the duration parser accepts, an
    expression that compiles to a program. *)
Definition acceptable (env : rules.Env) (r : rules.Rule) : bool :=
  validID (rules.ID r)
  && is_ok (rules.parseExtendedDuration (rules.TTL r))
  && match rules.Compile env (rules.Expression r) with
     | Ok ast => is_ok (rules.NewProgram env ast)
     | Err _ => false
     end.

(** What is stored for a rule that loads. *)
Definition compiledFrom (env : rules.Env) (r : rules.Rule) (cr : rules.compiledRule)
    : Prop :=
  rules.rule cr = r
  ∧ rules.parseExtendedDuration (rules.TTL r) = Ok (rules.ttlDuration cr)
  ∧ ∃ ast, rules.Compile env (rules.Expression r) = Ok ast
           ∧ rules.NewProgram env ast = Ok (rules.program cr).

(** A message names a rule when it quotes the rule's ID. *)
Definition names (msg id : string) : Prop :=
  ∃ pre post, msg = pre +:+ "'" +:+ id +:+ "'" +:+ post.

(** An object that differs from [obj] in one annotation only: the entry
    [k] of /metadata/annotations set to a string, or removed. *)
Definition alterMap (f : gmap string value → gmap string value) (v : value) : value :=
  match v with VMap m => VMap (f m) | _ => v end.

Definition withAnnotation (k : string) (v : option string) (obj : Unstructured)
    : Unstructured :=
  let edit (anns : gmap string value) :=
    match v with
    | Some s => <[k := VString s]> anns
    | None => delete k anns
    end in
  {| Object := alter (alterMap (alter (alterMap edit) "annotations")) "metadata"
                 (Object obj) |}.

(** The same controller with the dry-run option set to [b]. *)
Definition withDryRun (b : bool) (j : janitor.Janitor) : janitor.Janitor :=
  {| janitor.dynamicClient := janitor.dynamicClient j;
     janitor.config :=
       {| janitor.DryRun := b;
          janitor.Interval := janitor.Interval (janitor.config j);
          janitor.Once := janitor.Once (janitor.config j);
          janitor.IncludeResources := janitor.IncludeResources (janitor.config j);
          janitor.ExcludeResources := janitor.ExcludeResources (janitor.config j);
          janitor.IncludeNamespaces := janitor.IncludeNamespaces (janitor.config j);
          janitor.ExcludeNamespaces := janitor.ExcludeNamespaces (janitor.config j);
          janitor.RulesFile := janitor.RulesFile (janitor.config j);
          janitor.MaxWorkers := janitor.MaxWorkers (janitor.config j) |};
     janitor.RuleEngine := janitor.RuleEngine j;
     janitor.resourceFilter := janitor.resourceFilter j |}.

(** A metric fires between two states when some counter changed. *)
Definition firesMetric (w w' : janitor.World) : Prop :=
  janitor.metrics w' ≠ janitor.metrics w.

(** The concatenation of the matched token substrings. *)
Definition tokensText (matches : list (list string)) : string :=
  foldr (fun m acc => nth 0 m "" +:+ acc) "" matches.

(** The units that a token of the extended grammar can carry, in the
    order the pattern tries them. *)
Definition tokenUnits : list string :=
  ["months"; "month"; "w"; "d"; "h"; "m"; "s"; "us"; "µs"; "ns"].

(** A kind selector matches a kind when it is "*", the kind itself or
    the plural of the kind. *)
Definition selects (plural : string -> string) (selector kind : string) : Prop :=
  selector = "*" ∨ selector = kind ∨ selector = plural kind.

End spec.

(** ** package janitor, continued: the cleanup cycle and the workers *)

Module schema.
Import Go.

(** [strings.Count(s, "/")] *)
Fixpoint countSlash (s : string) : nat :=
  match s with
  | String c s' => if Ascii.eqb c "/" then S (countSlash s') else countSlash s'
  | EmptyString => O
  end.

(** The parts of [s] around its first "/" ([strings.Index]). *)
Fixpoint cutSlash (s : string) : string * string :=
  match s with
  | String c s' =>
      if Ascii.eqb c "/" then (EmptyString, s')
      else let '(a, b) := cutSlash s' in (String c a, b)
  | EmptyString => (EmptyString, EmptyString)
  end.

(** [schema.ParseGroupVersion]: "" and "/" are the empty group and
    version, "v1" is a version of the empty group, "apps/v1" a group and a
    version, and more than one "/" is an error. *)
Definition ParseGroupVersion (gv : string) : result string (string * string) :=
  if stringEqb gv "" || stringEqb gv "/" then Ok ("", "")
  else
    match countSlash gv with
    | O => Ok ("", gv)
    | S O => Ok (cutSlash gv)
    | _ => Err ("unexpected GroupVersion string: " +:+ gv)
    end.

End schema.

Module janitor_cycle.
Import Go k8s janitor.

(** What discovery reports for one group and version. *)
Record APIResource := {
  Name : string;
  Namespaced : bool;
  Verbs : list string
}.

Record APIResourceList := {
  GroupVersion : string;
  APIResources : list APIResource
}.

(** The two clients that the cycle reads besides the dynamic client:
    [ServerPreferredResources] of the discovery client (a list whose
    entries may be nil, or an error), and the namespace listing of the
    clientset, which is asked once per namespaced resource and may answer
    differently each time: [ListNamespaces n] is the answer to the call
    number [n] of the cycle. *)
Record Clients := {
  ServerPreferredResources : result string (list (option APIResourceList));
  ListNamespaces : nat -> result string (list string)
}.

(** The state a cycle works on: the effects of package janitor so far,
    the number of namespace listings made, and the number of observations
    of the cleanup-duration histogram. *)
Record Cycle := {
  world : World;
  namespaceCalls : nat;
  observations : nat
}.

Definition onWorld (f : World -> World) (st : Cycle) : Cycle :=
  {| world := f (world st); namespaceCalls := namespaceCalls st;
     observations := observations st |}.

Fixpoint contains (slice : list string) (item : string) : bool :=
  match slice with
  | [] => false
  | s :: slice' => if stringEqb s item then true else contains slice' item
  end.

(** [getNamespaces]: the names of the listed namespaces, or the error. *)
Definition getNamespaces (c : Clients) (st : Cycle)
    : result string (list string) * Cycle :=
  (ListNamespaces c (namespaceCalls st),
   {| world := world st; namespaceCalls := S (namespaceCalls st);
      observations := observations st |}).

(** One call of [processResources] in the cycle; a failure is counted and
    the cycle goes on. *)
Definition listAndQueue (j : Janitor) (gvr : GroupVersionResource) (ns : string)
    (st : Cycle) : Cycle :=
  match processResources j gvr ns (world st) with
  | (Some _, w) => onWorld (fun _ => incErrors "process_resources" w) st
  | (None, w) => onWorld (fun _ => w) st
  end.

(** The body of the loop over the resources of one group and version. *)
Definition cleanupResource (c : Clients) (j : Janitor) (gv : string * string)
    (st : Cycle) (resource : APIResource) : Cycle :=
  if negb (contains (Verbs resource) "list") || negb (contains (Verbs resource) "delete")
  then st
  else if negb (ShouldProcessResource (resourceFilter j) (Name resource)) then st
  else
    let gvr := {| Group := fst gv; Version := snd gv; Resource := Name resource |} in
    if Namespaced resource then
      match getNamespaces c st with
      | (Err _, st1) => onWorld (incErrors "list_namespaces") st1
      | (Ok namespaces, st1) =>
          fold_left
            (fun st ns =>
               if negb (ShouldProcessNamespace (resourceFilter j) ns) then st
               else listAndQueue j gvr ns st)
            namespaces st1
      end
    else listAndQueue j gvr "" st.

(** The body of the loop over the discovered lists. *)
Definition cleanupList (c : Clients) (j : Janitor) (st : Cycle)
    (resourceList : option APIResourceList) : Cycle :=
  match resourceList with
  | None => st
  | Some rl =>
      match schema.ParseGroupVersion (GroupVersion rl) with
      | Err _ => st
      | Ok gv => fold_left (cleanupResource c j gv) (APIResources rl) st
      end
  end.

(** The deferred [timer.ObserveDuration()]. *)
Definition observe (st : Cycle) : Cycle :=
  {| world := world st; namespaceCalls := namespaceCalls st;
     observations := S (observations st) |}.

(** One cleanup cycle; [Some] is the error return. *)
Definition cleanup (c : Clients) (j : Janitor) (st : Cycle) : option string * Cycle :=
  match ServerPreferredResources c with
  | Err e => (Some ("failed to discover resources: " +:+ e), observe st)
  | Ok resources => (None, observe (fold_left (cleanupList c j) resources st))
  end.

(** One worker, seen through the items it took from the queue, each with
    the clock reading at its decision: it runs [processItem] on them in
    order. *)
Definition worker `{TimeParser} (j : Janitor) (received : list (Time * WorkItem))
    (w : World) : World :=
  fold_left (fun w ti => processItem j (fst ti) (snd ti) w) received w.

(** The work item that [processResources] builds for a listed object. *)
Definition itemOf (gvr : GroupVersionResource) (namespace : string) (obj : Unstructured)
    : WorkItem :=
  {| wiResource := gvr; wiNamespace := namespace; wiName := GetName obj; wiObj := obj |}.

(** A work item that a cycle may queue: its resource was discovered with
    the verbs list and delete and passes the resource filter; its
    namespace passes the namespace filter, or is empty for a
    cluster-scoped resource; its object was listed for that resource and
    namespace. *)
Definition queueable (c : Clients) (j : Janitor) (resources : list (option APIResourceList))
    (item : WorkItem) : Prop :=
  (exists rl r,
     In (Some rl) resources /\ In r (APIResources rl)
     /\ schema.ParseGroupVersion (GroupVersion rl)
        = Ok (Group (wiResource item), Version (wiResource item))
     /\ Name r = Resource (wiResource item)
     /\ In "list" (Verbs r) /\ In "delete" (Verbs r)
     /\ (if Namespaced r
         then ShouldProcessNamespace (resourceFilter j) (wiNamespace item) = true
         else wiNamespace item = ""))
  /\ ShouldProcessResource (resourceFilter j) (Resource (wiResource item)) = true
  /\ exists items,
       List (dynamicClient j) (wiResource item) (wiNamespace item) = Ok items
       /\ In (wiObj item) items /\ wiName item = GetName (wiObj item).



(** [extends P st0 st]: from [st0] to [st] no delete call was issued, no
    event recorded, no deletion counted and no duration observed, and the
    queue grew by items that satisfy [P]. *)
Definition extends (P : WorkItem -> Prop) (st0 st : Cycle) : Prop :=
  deleteCalls (world st) = deleteCalls (world st0)
  /\ events (world st) = events (world st0)
  /\ ResourcesDeleted (metrics (world st)) = ResourcesDeleted (metrics (world st0))
  /\ observations st = observations st0
  /\ exists new, WorkQueue (world st) = WorkQueue (world st0) ++ new /\ Forall P new.

End janitor_cycle.

(** A cluster to run a cycle on. *)

Module cluster.
Import Go k8s.

Definition clusterClients : janitor_cycle.Clients :=
  {| janitor_cycle.ServerPreferredResources :=
       Ok [Some {| janitor_cycle.GroupVersion := "v1";
                   janitor_cycle.APIResources :=
                     [{| janitor_cycle.Name := "pods"; janitor_cycle.Namespaced := true;
                         janitor_cycle.Verbs := ["get"; "list"; "delete"] |};
                      {| janitor_cycle.Name := "nodes"; janitor_cycle.Namespaced := false;
                         janitor_cycle.Verbs := ["get"; "list"; "delete"] |};
                      {| janitor_cycle.Name := "bindings"; janitor_cycle.Namespaced := true;
                         janitor_cycle.Verbs := ["create"] |};
                      {| janitor_cycle.Name := "events"; janitor_cycle.Namespaced := true;
                         janitor_cycle.Verbs := ["list"; "delete"] |}] |};
           None];
     janitor_cycle.ListNamespaces := fun _ => Ok ["default"; "kube-system"; "staging"] |}.


Definition start : janitor_cycle.Cycle :=
  {| janitor_cycle.world := fixtures.emptyWorld;
     janitor_cycle.namespaceCalls := 0;
     janitor_cycle.observations := 0 |}.

End cluster.

(** * Theorems *)

Import Go k8s.

(** ** Resource filter *)

Lemma index_markAll (xs : list string) (m : gmap string bool) (k : string) :
  janitor.index (janitor.markAll xs m) k = bool_decide (k ∈ xs) || janitor.index m k.
Proof.
  revert m. induction xs as [|x xs IH]; intros m; simpl.
  - reflexivity.
  - unfold janitor.markAll in *. simpl. rewrite IH.
    unfold janitor.index. destruct (decide (k = x)) as [->|Hne].
    + rewrite lookup_insert_eq. simpl.
      rewrite (bool_decide_eq_true_2 (x ∈ x :: xs)) by apply list_elem_of_here.
      now rewrite orb_true_r.
    + rewrite lookup_insert_ne by congruence.
      destruct (decide (k ∈ xs)) as [Hin|Hnin].
      * rewrite !bool_decide_eq_true_2; auto using list_elem_of_further.
      * rewrite !bool_decide_eq_false_2; auto.
        intros [?|?]%elem_of_cons; contradiction.
Qed.

Lemma index_empty (k : string) : janitor.index ∅ k = false.
Proof. unfold janitor.index. now rewrite lookup_empty. Qed.

Lemma length_eqb_nil {A} `{EqDecision A} (l : list A) :
  (length l =? 0)%nat = bool_decide (l = []).
Proof. destruct l; reflexivity. Qed.

(** C8. The resource filter computes, for every resource name [r] and every
    namespace [n], exactly (r ∉ excludes) ∧ (includeAll ∨ r ∈ includes),
    where includeAll holds exactly when the include sequence given to the
    constructor is empty; an element that is in both sets is rejected. *)
Theorem resource_filter_decision
    (includes excludes includeNs excludeNs : list string) (r n : string) :
  let rf := janitor.NewResourceFilter includes excludes includeNs excludeNs in
  janitor.ShouldProcessResource rf r = spec.allow includes excludes r
  ∧ janitor.ShouldProcessNamespace rf n = spec.allow includeNs excludeNs n
  ∧ janitor.includeAllResources rf = bool_decide (includes = [])
  ∧ janitor.includeAllNamespaces rf = bool_decide (includeNs = [])
  ∧ (r ∈ excludes → janitor.ShouldProcessResource rf r = false)
  ∧ (n ∈ excludeNs → janitor.ShouldProcessNamespace rf n = false).
Proof.
  assert (Hadm : ∀ inc exc k,
    (if janitor.index (janitor.markAll exc ∅) k then false
     else if (length inc =? 0)%nat then true
     else janitor.index (if (length inc =? 0)%nat then ∅ else janitor.markAll inc ∅) k)
    = spec.allow inc exc k).
  { intros inc exc k. unfold spec.allow.
    rewrite !index_markAll, !index_empty, !orb_false_r, length_eqb_nil.
    destruct (bool_decide (k ∈ exc)); simpl; [reflexivity|].
    destruct (bool_decide (inc = [])) eqn:E; simpl; [reflexivity|].
    now rewrite index_markAll, index_empty, orb_false_r. }
  simpl. unfold janitor.ShouldProcessResource, janitor.ShouldProcessNamespace. simpl.
  rewrite !Hadm, !length_eqb_nil.
  repeat split; try reflexivity.
  - intros Hin. unfold spec.allow. now rewrite bool_decide_eq_true_2.
  - intros Hin. unfold spec.allow. now rewrite bool_decide_eq_true_2.
Qed.

Lemma resource_filter_decision_witness :
  janitor.ShouldProcessResource
    (janitor.NewResourceFilter ["pods"; "secrets"] ["pods"] [] ["kube-system"]) "pods" = false
  ∧ janitor.ShouldProcessNamespace
      (janitor.NewResourceFilter ["pods"; "secrets"] ["pods"] [] ["kube-system"])
      "kube-system" = false.
Proof.
  pose proof (resource_filter_decision ["pods"; "secrets"] ["pods"] [] ["kube-system"]
                "pods" "kube-system") as (_ & _ & _ & _ & Hr & Hn).
  split; [apply Hr | apply Hn]; apply list_elem_of_here.
Defined.

(** ** Kind matching *)

Lemma stringEqb_eq (a b : string) : stringEqb a b = true ↔ a = b.
Proof. unfold stringEqb. apply String.eqb_eq. Qed.

Lemma stringEqb_decide (a b : string) : stringEqb a b = bool_decide (a = b).
Proof.
  unfold stringEqb. destruct (String.eqb_spec a b) as [->|Hne].
  - now rewrite bool_decide_eq_true_2.
  - now rewrite bool_decide_eq_false_2.
Qed.

Lemma pluralize_table (kind : string) :
  rules.pluralize kind = default (kind +:+ "s") (spec.assoc kind spec.pluralTable).
Proof.
  unfold rules.pluralize, spec.pluralTable, spec.assoc, stringEqb.
  repeat (destruct (String.eqb kind _); [reflexivity|]).
  reflexivity.
Qed.

Lemma resourceMatches_spec (resources : list string) (kind : string) :
  rules.resourceMatches resources kind = true
  ↔ ∃ r, r ∈ resources ∧ spec.selects rules.pluralize r kind.
Proof.
  unfold spec.selects. induction resources as [|r rs IH]; simpl.
  - split; [discriminate|]. intros (r & Hin & _). inversion Hin.
  - destruct (stringEqb r "*" || stringEqb r kind || stringEqb r (rules.pluralize kind))
      eqn:E.
    + split; [intros _|reflexivity]. exists r. split; [apply list_elem_of_here|].
      rewrite !orb_true_iff, !stringEqb_eq in E. tauto.
    + rewrite IH. rewrite !orb_false_iff in E. destruct E as [[E1 E2] E3].
      split.
      * intros (r' & Hin & Hsel). exists r'. split; [now apply list_elem_of_further|easy].
      * intros (r' & Hin & Hsel).
        apply elem_of_cons in Hin as [->|Hin]; [|now exists r'].
        exfalso. destruct Hsel as [H|[H|H]]; apply stringEqb_eq in H; congruence.
Qed.

(** C7. [pluralize] maps the thirteen kinds of the mandated table to their
    listed plurals and every other kind to the kind with "s" appended, the
    case unchanged (CustomResource gives CustomResources); kind matching
    accepts a selector that is "*", the kind, or that plural. *)
Theorem pluralize_fixed_table_and_fallback :
  (∀ kind plural, (kind, plural) ∈ spec.pluralTable → rules.pluralize kind = plural)
  ∧ (∀ kind, spec.assoc kind spec.pluralTable = None →
       rules.pluralize kind = kind +:+ "s")
  ∧ rules.pluralize "CustomResource" = "CustomResources"
  ∧ (∀ resources kind,
       rules.resourceMatches resources kind = true
       ↔ ∃ r, r ∈ resources ∧ spec.selects rules.pluralize r kind).
Proof.
  split; [|split; [|split]].
  - intros kind plural Hin. unfold spec.pluralTable in Hin.
    repeat (apply elem_of_cons in Hin as [[= -> ->]|Hin]; [reflexivity|]).
    inversion Hin.
  - intros kind Hnone. now rewrite pluralize_table, Hnone.
  - reflexivity.
  - apply resourceMatches_spec.
Qed.

Lemma pluralize_fixed_table_and_fallback_witness :
  rules.pluralize "Ingress" = "ingresses"
  ∧ rules.pluralize "CronJob" = "CronJobs"
  ∧ rules.resourceMatches ["services"; "pods"] "Pod" = true.
Proof.
  destruct pluralize_fixed_table_and_fallback as (Htab & Hfall & _ & Hmatch).
  split; [|split].
  - apply Htab. unfold spec.pluralTable. do 11 apply list_elem_of_further.
    apply list_elem_of_here.
  - apply Hfall. reflexivity.
  - apply Hmatch. exists "pods". split.
    + apply list_elem_of_further, list_elem_of_here.
    + right. right. reflexivity.
Defined.

(** ** Rule evaluation *)

Lemma evaluateRule_spec (cr : rules.compiledRule) (obj : Unstructured) :
  rules.evaluateRule cr obj
  = rules.resourceMatches (rules.Resources (rules.rule cr)) (GetKind obj)
    && match rules.program cr (rules.input obj) with
       | Ok v => spec.truthy v
       | Err _ => false
       end.
Proof.
  unfold rules.evaluateRule.
  destruct (rules.resourceMatches _ _); simpl; [|reflexivity].
  destruct (rules.program cr (rules.input obj)) as [[b|s|l|m|]|e]; simpl; try reflexivity.
  - now rewrite stringEqb_decide.
  - now destruct l.
  - destruct (decide (m = ∅)) as [->|Hne].
    + now rewrite map_size_empty, bool_decide_eq_true_2.
    + rewrite bool_decide_eq_false_2 by assumption. simpl.
      apply Nat.ltb_lt. apply map_size_non_empty_iff in Hne. lia.
Qed.

Lemma Evaluate_from_none (rs : list rules.compiledRule) (obj : Unstructured) :
  Forall (fun cr => rules.evaluateRule cr obj = false) rs
  → rules.Evaluate_from rs obj = (None, 0).
Proof.
  induction 1 as [|cr rs Hcr _ IH]; simpl; [reflexivity|]. now rewrite Hcr.
Qed.

Lemma Evaluate_from_first (pre post : list rules.compiledRule) cr (obj : Unstructured) :
  Forall (fun cr => rules.evaluateRule cr obj = false) pre
  → rules.evaluateRule cr obj = true
  → rules.Evaluate_from (pre ++ cr :: post) obj
    = (Some (rules.rule cr), rules.ttlDuration cr).
Proof.
  induction 1 as [|c pre Hc _ IH]; simpl; intros Hcr.
  - now rewrite Hcr.
  - rewrite Hc. now apply IH.
Qed.

Lemma Evaluate_from_cases (rs : list rules.compiledRule) (obj : Unstructured) :
  (Forall (fun cr => rules.evaluateRule cr obj = false) rs
   ∧ rules.Evaluate_from rs obj = (None, 0))
  ∨ (∃ pre cr post, rs = pre ++ cr :: post
       ∧ Forall (fun cr => rules.evaluateRule cr obj = false) pre
       ∧ rules.evaluateRule cr obj = true
       ∧ rules.Evaluate_from rs obj = (Some (rules.rule cr), rules.ttlDuration cr)).
Proof.
  induction rs as [|c rs IH]; simpl.
  - left. split; [constructor|reflexivity].
  - destruct (rules.evaluateRule c obj) eqn:Hc.
    + right. exists [], c, rs. repeat split; [constructor|assumption].
    + destruct IH as [[Hall Hev]|(pre & cr & post & -> & Hpre & Hcr & Hev)].
      * left. split; [now constructor|assumption].
      * right. exists (c :: pre), cr, post. repeat split; try assumption.
        now constructor.
Qed.

(** C5. [Evaluate] walks the compiled rules in load order and returns the
    first rule whose kind selector matches and whose predicate result is
    truthy (booleans pass through; a non-empty string, list or map is
    truthy; anything else is falsy), with that rule's TTL; it returns
    (nil, 0) exactly when no rule matches; an evaluation error counts as a
    non-match and the walk goes on. *)
Theorem evaluate_first_match_wins (e : rules.Engine) (obj : Unstructured) :
  (∀ r d, rules.Evaluate e obj = (Some r, d)
     ↔ ∃ pre cr post, rules.rules e = pre ++ cr :: post
         ∧ Forall (fun c => rules.evaluateRule c obj = false) pre
         ∧ rules.evaluateRule cr obj = true
         ∧ r = rules.rule cr ∧ d = rules.ttlDuration cr)
  ∧ (rules.Evaluate e obj = (None, 0)
     ↔ Forall (fun c => rules.evaluateRule c obj = false) (rules.rules e))
  ∧ (∀ cr, rules.evaluateRule cr obj
       = rules.resourceMatches (rules.Resources (rules.rule cr)) (GetKind obj)
         && match rules.program cr (rules.input obj) with
            | Ok v => spec.truthy v
            | Err _ => false
            end)
  ∧ (∀ cr post err, rules.program cr (rules.input obj) = Err err
       → rules.Evaluate_from (cr :: post) obj = rules.Evaluate_from post obj).
Proof.
  unfold rules.Evaluate. split; [|split; [|split]].
  - intros r d. split.
    + intros Hev.
      destruct (Evaluate_from_cases (rules.rules e) obj)
        as [[_ Hnone]|(pre & cr & post & Heq & Hpre & Hcr & Hsome)].
      * rewrite Hnone in Hev. discriminate.
      * rewrite Hsome in Hev. injection Hev as <- <-. now exists pre, cr, post.
    + intros (pre & cr & post & -> & Hpre & Hcr & -> & ->).
      now apply Evaluate_from_first.
  - split.
    + intros Hev.
      destruct (Evaluate_from_cases (rules.rules e) obj)
        as [[Hall _]|(pre & cr & post & Heq & Hpre & Hcr & Hsome)]; [assumption|].
      rewrite Hsome in Hev. discriminate.
    + apply Evaluate_from_none.
  - intros cr. apply evaluateRule_spec.
  - intros cr post err Herr. simpl.
    now rewrite evaluateRule_spec, Herr, andb_false_r.
Qed.

Lemma evaluate_first_match_wins_witness :
  rules.Evaluate fixtures.sampleEngine (fixtures.object "Pod" [] None)
  = (Some (fixtures.sampleRule "named" ["*"] "4h"), 4 * Hour).
Proof.
  apply (proj1 (evaluate_first_match_wins fixtures.sampleEngine
                  (fixtures.object "Pod" [] None))).
  exists [fixtures.failing; fixtures.otherKind], fixtures.named, [fixtures.allPods].
  repeat split; try reflexivity.
  repeat constructor; vm_compute; reflexivity.
Defined.

(** ** Loading rules *)

Section RepeatedClass.
Context {A : Type} (k : string → captures → option A) (p : ascii → bool).
Context (step : string → captures → (string → captures → option A) → option A).
Context (kend : string → captures → option A).

Hypothesis step_class : ∀ s cs k',
  step s cs k' = match s with
                 | String c s' => if p c then k' s' cs else None
                 | EmptyString => None
                 end.
Hypothesis kend_end : ∀ s cs,
  kend s cs = match s with EmptyString => k EmptyString cs | String _ _ => None end.

(** A repeated byte class followed by the end of the text reads the
    whole text or fails. *)
Lemma starLoop_class_end (n : nat) (s : string) (cs : captures) :
  (String.length s ≤ n)%nat
  → starLoop step kend n s cs = if spec.allBytes p s then k EmptyString cs else None.
Proof.
  revert s cs. induction n as [|n IH]; intros s cs Hlen.
  - destruct s; [simpl; now rewrite kend_end|simpl in Hlen; lia].
  - destruct s as [|c s].
    + simpl. now rewrite step_class, kend_end.
    + simpl in Hlen. cbn [starLoop spec.allBytes]. rewrite step_class, kend_end.
      destruct (p c); simpl; [|reflexivity].
      replace (String.length s <? S (String.length s))%nat with true
        by (symmetry; apply Nat.ltb_lt; lia).
      rewrite IH by lia. now destruct (spec.allBytes p s), (k EmptyString cs).
Qed.
End RepeatedClass.

Lemma idRegex_off_start (total : nat) (s : string) :
  (String.length s < total)%nat → search total rules.idRegex 0 s = None.
Proof.
  induction s as [|c s IH]; intros Hlen; simpl in *.
  - unfold matchAt. simpl. destruct total; [lia|reflexivity].
  - unfold matchAt. cbn [rules.idRegex backtrack].
    replace (String.length (String c s) =? total)%nat with false
      by (symmetry; apply Nat.eqb_neq; simpl; lia).
    apply IH. lia.
Qed.

Lemma idRegex_validID (id : string) :
  MatchString rules.idRegex id = spec.validID id.
Proof.
  unfold MatchString. destruct id as [|c id]; [reflexivity|].
  cbn [search]. unfold matchAt. cbn [rules.idRegex backtrack].
  rewrite Nat.eqb_refl. cbn [spec.validID].
  destruct (rules.lower c); simpl.
  - erewrite (starLoop_class_end
                (fun s _ => Some ([consumed (String c id) s], s))
                (fun c0 => rules.lower c0 || isDigit c0 || Ascii.eqb c0 "-"));
      [|reflexivity|intros [|? ?] ?; reflexivity|lia].
    destruct (spec.allBytes _ id); [reflexivity|].
    rewrite idRegex_off_start by (simpl; lia). reflexivity.
  - rewrite idRegex_off_start by (simpl; lia). reflexivity.
Qed.

Lemma append_assoc (a b c : string) : (a +:+ b) +:+ c = a +:+ (b +:+ c).
Proof.
  induction a as [|x a IH]; [reflexivity|].
  change (String x ((a +:+ b) +:+ c) = String x (a +:+ (b +:+ c))). now f_equal.
Qed.

Lemma compileRule_ok (env : rules.Env) (r : rules.Rule) (cr : rules.compiledRule) :
  rules.compileRule env r = Ok cr → spec.compiledFrom env r cr.
Proof.
  unfold rules.compileRule, spec.compiledFrom.
  destruct (MatchString rules.idRegex (rules.ID r)); simpl; [|discriminate].
  destruct (rules.parseExtendedDuration (rules.TTL r)) as [ttl|]; [|discriminate].
  destruct (rules.Compile env (rules.Expression r)) as [ast|] eqn:Hc; [|discriminate].
  destruct (rules.NewProgram env ast) as [prog|] eqn:Hp; [|discriminate].
  intros [= <-]. simpl. repeat split. now exists ast.
Qed.

Lemma compileRule_acceptable (env : rules.Env) (r : rules.Rule) :
  is_ok (rules.compileRule env r) = spec.acceptable env r.
Proof.
  unfold rules.compileRule, spec.acceptable. rewrite idRegex_validID.
  destruct (spec.validID (rules.ID r)); simpl; [|reflexivity].
  destruct (rules.parseExtendedDuration (rules.TTL r)); simpl; [|reflexivity].
  destruct (rules.Compile env (rules.Expression r)) as [ast|]; [|reflexivity].
  now destruct (rules.NewProgram env ast).
Qed.

Lemma compileRule_err_names (env : rules.Env) (r : rules.Rule) (e : rules.LoadError) :
  rules.compileRule env r = Err e → spec.names (rules.LoadError_Error e) (rules.ID r).
Proof.
  unfold rules.compileRule, spec.names.
  destruct (MatchString rules.idRegex (rules.ID r)); simpl.
  - destruct (rules.parseExtendedDuration (rules.TTL r)) as [ttl|de].
    + destruct (rules.Compile env (rules.Expression r)) as [ast|ce].
      * destruct (rules.NewProgram env ast) as [prog|pe]; [discriminate|].
        intros [= <-]. exists "failed to create program for rule ", (": " +:+ pe).
        reflexivity.
      * intros [= <-]. exists "failed to compile expression for rule ", (": " +:+ ce).
        reflexivity.
    + intros [= <-].
      exists ("invalid TTL '" +:+ rules.TTL r +:+ "' in rule "),
             (": " +:+ rules.DurationError_Error de).
      cbn [rules.LoadError_Error]. rewrite !append_assoc. reflexivity.
  - intros [= <-]. exists "invalid rule ID ", (": must be lowercase and match ^[a-z][a-z0-9-]*$").
    reflexivity.
Qed.

Lemma compileRules_acc (env : rules.Env) (rs : list rules.Rule)
    (acc : list rules.compiledRule) :
  rules.compileRules env rs acc
  = match rules.compileRules env rs [] with
    | Ok crs => Ok (acc ++ crs)
    | Err e => Err e
    end.
Proof.
  revert acc. induction rs as [|r rs IH]; intros acc; simpl.
  - now rewrite app_nil_r.
  - destruct (rules.compileRule env r) as [cr|e]; [|reflexivity].
    rewrite (IH (acc ++ [cr])), (IH [cr]).
    destruct (rules.compileRules env rs []); [|reflexivity].
    now rewrite <- app_assoc.
Qed.

Lemma compileRules_all (env : rules.Env) (rs : list rules.Rule) :
  forallb (spec.acceptable env) rs = true
  → ∃ crs, rules.compileRules env rs [] = Ok crs ∧ Forall2 (spec.compiledFrom env) rs crs.
Proof.
  induction rs as [|r rs IH]; simpl; intros Hall.
  - exists []. split; [reflexivity|constructor].
  - apply andb_true_iff in Hall as [Hr Hrs].
    rewrite <- compileRule_acceptable in Hr.
    destruct (rules.compileRule env r) as [cr|] eqn:Hcr; [|discriminate].
    destruct (IH Hrs) as (crs & Hcrs & Hfrom).
    exists (cr :: crs). rewrite compileRules_acc, Hcrs. split; [reflexivity|].
    constructor; [now apply compileRule_ok|assumption].
Qed.

Lemma compileRules_first (env : rules.Env) (pre post : list rules.Rule) (r : rules.Rule) :
  forallb (spec.acceptable env) pre = true
  → spec.acceptable env r = false
  → ∃ e, rules.compileRules env (pre ++ r :: post) [] = Err e
         ∧ rules.compileRule env r = Err e.
Proof.
  induction pre as [|p pre IH]; simpl; intros Hpre Hr.
  - rewrite <- compileRule_acceptable in Hr.
    destruct (rules.compileRule env r) as [|e]; [discriminate|]. now exists e.
  - apply andb_true_iff in Hpre as [Hp Hpre].
    rewrite <- compileRule_acceptable in Hp.
    destruct (rules.compileRule env p) as [cp|]; [|discriminate].
    destruct (IH Hpre Hr) as (e & He & Hre). exists e.
    rewrite compileRules_acc, He. now split.
Qed.

Lemma first_unacceptable (env : rules.Env) (rs : list rules.Rule) :
  forallb (spec.acceptable env) rs = false
  → ∃ pre r post, rs = pre ++ r :: post
      ∧ forallb (spec.acceptable env) pre = true ∧ spec.acceptable env r = false.
Proof.
  induction rs as [|r rs IH]; simpl; [discriminate|].
  destruct (spec.acceptable env r) eqn:Hr; simpl.
  - intros Hrs. destruct (IH Hrs) as (pre & r' & post & -> & Hpre & Hr').
    exists (r :: pre), r', post. simpl. now rewrite Hr, Hpre.
  - intros _. now exists [], r, rs.
Qed.

(** C6. Loading is all-or-nothing.  When every rule of the list has an ID
    matching ^[a-z][a-z0-9-]*$, a TTL that the extended duration parser
    accepts ("7d" is one) and an expression that compiles, [New] returns an
    engine holding every rule, compiled, in source order.  When some rule
    fails one of the three, [New] returns an error and no engine, and the
    error message quotes the ID of the first such rule. *)
Theorem load_all_or_nothing (cel : rules.Cel) (env : rules.Env) (rs : list rules.Rule) :
  rules.cel_NewEnv = Ok env →
  (forallb (spec.acceptable env) rs = true →
     ∃ engine, rules.New rs = Ok engine
               ∧ Forall2 (spec.compiledFrom env) rs (rules.rules engine))
  ∧ (forallb (spec.acceptable env) rs = false →
     ∃ pre r post e, rs = pre ++ r :: post
       ∧ forallb (spec.acceptable env) pre = true
       ∧ spec.acceptable env r = false
       ∧ rules.New rs = Err e
       ∧ spec.names (rules.LoadError_Error e) (rules.ID r))
  ∧ rules.parseExtendedDuration "7d" = Ok (7 * 24 * Hour).
Proof.
  intros Henv. unfold rules.New. rewrite Henv. split; [|split].
  - intros Hall. destruct (compileRules_all env rs Hall) as (crs & -> & Hfrom).
    now exists {| rules.rules := crs |}.
  - intros Hbad. destruct (first_unacceptable env rs Hbad) as (pre & r & post & -> & Hpre & Hr).
    destruct (compileRules_first env pre post r Hpre Hr) as (e & -> & Hre).
    exists pre, r, post, e. repeat split; try assumption.
    exact (compileRule_err_names env r e Hre).
  - vm_compute. reflexivity.
Qed.

Lemma load_all_or_nothing_witness :
  (∃ engine,
     @rules.New fixtures.literals
       [fixtures.sampleRule "test-rule" ["pods"] "7d";
        fixtures.sampleRule "another-rule" ["deployments"] "30m"] = Ok engine
     ∧ length (rules.rules engine) = 2%nat)
  ∧ (∃ e,
     @rules.New fixtures.literals
       [fixtures.sampleRule "test-rule" ["pods"] "1h";
        fixtures.sampleRule "Test-Rule" ["pods"] "1h";
        fixtures.sampleRule "late" ["pods"] "invalid"] = Err e
     ∧ spec.names (rules.LoadError_Error e) "Test-Rule").
Proof.
  split.
  - destruct (load_all_or_nothing fixtures.literals fixtures.literalEnv
                [fixtures.sampleRule "test-rule" ["pods"] "7d";
                 fixtures.sampleRule "another-rule" ["deployments"] "30m"] eq_refl)
      as (Hgood & _ & _).
    destruct Hgood as (engine & Hnew & Hfrom); [vm_compute; reflexivity|].
    exists engine. split; [exact Hnew|].
    symmetry. exact (Forall2_length _ _ _ Hfrom).
  - destruct (load_all_or_nothing fixtures.literals fixtures.literalEnv
                [fixtures.sampleRule "test-rule" ["pods"] "1h";
                 fixtures.sampleRule "Test-Rule" ["pods"] "1h";
                 fixtures.sampleRule "late" ["pods"] "invalid"] eq_refl)
      as (_ & Hbad & _).
    destruct Hbad as (pre & r & post & e & Heq & Hpre & Hr & Hnew & Hnames);
      [vm_compute; reflexivity|].
    exists e. split; [exact Hnew|].
    destruct pre as [|p0 [|p1 pre]].
    + injection Heq as <- _. vm_compute in Hr. discriminate.
    + injection Heq as _ <- _. exact Hnames.
    + injection Heq as <- <- Heq. exfalso.
      cbn [forallb] in Hpre.
      replace (spec.acceptable fixtures.literalEnv
                 (fixtures.sampleRule "Test-Rule" ["pods"] "1h")) with false in Hpre
        by (vm_compute; reflexivity).
      rewrite andb_false_l, andb_false_r in Hpre. discriminate.
Defined.

(** The earlier revision of [New] rejects the same rule for its TTL. *)
Example earlier_New_rejects_days :
  @rules.New0 fixtures.literals [fixtures.sampleRule "test-rule" ["pods"] "7d"]
  = Err (rules.InvalidTTL0 "7d" "test-rule").
Proof. vm_compute. reflexivity. Qed.

(** ** The decision function *)

Section Decision.
Context {TP : TimeParser}.
Variables (j : janitor.Janitor) (now : Time).

Lemma shouldDelete_ttl (obj : Unstructured) (ttl : string) :
  GetAnnotations obj !! janitor.annotationTTL = Some ttl
  → janitor.shouldDelete j now obj
    = match janitor.ParseExtendedDuration ttl with
      | Err _ => (false, "")
      | Ok duration =>
          let age := Since now (GetCreationTimestamp obj) in
          if age >? duration then (true, janitor.reasonTTL age duration) else (false, "")
      end.
Proof. intros Httl. unfold janitor.shouldDelete. now rewrite Httl. Qed.

Lemma shouldDelete_expires (obj : Unstructured) (expires : string) :
  GetAnnotations obj !! janitor.annotationTTL = None
  → GetAnnotations obj !! janitor.annotationExpires = Some expires
  → janitor.shouldDelete j now obj
    = match janitor.parseExpirationTime expires with
      | None => (false, "")
      | Some t =>
          if Time_After now t then (true, janitor.reasonExpires expires) else (false, "")
      end.
Proof. intros Httl Hexp. unfold janitor.shouldDelete. now rewrite Httl, Hexp. Qed.

(** The decision reads the object through the TTL annotation and the
    creation timestamp alone once the TTL annotation is there. *)
Lemma shouldDelete_ttl_only (o1 o2 : Unstructured) :
  is_Some (GetAnnotations o1 !! janitor.annotationTTL)
  → GetAnnotations o2 !! janitor.annotationTTL = GetAnnotations o1 !! janitor.annotationTTL
  → GetCreationTimestamp o2 = GetCreationTimestamp o1
  → janitor.shouldDelete j now o2 = janitor.shouldDelete j now o1.
Proof.
  intros [ttl Httl] Hsame Hcreated.
  rewrite (shouldDelete_ttl o1 ttl Httl), (shouldDelete_ttl o2 ttl) by congruence.
  now rewrite Hcreated.
Qed.

End Decision.

(** C1. For an object carrying a janitor/ttl annotation the decision is
    delete exactly when the age is strictly greater than the parsed TTL: at
    age = ttl the object is kept, with ttl "0s" and a positive age it is
    deleted, and when the annotation does not parse the object is kept
    (the decision has no error result). *)
Theorem ttl_annotation_decision (TP : TimeParser) (j : janitor.Janitor) (now : Time)
    (obj : Unstructured) (ttl : string) :
  GetAnnotations obj !! janitor.annotationTTL = Some ttl →
  let age := Since now (GetCreationTimestamp obj) in
  (∀ d, janitor.ParseExtendedDuration ttl = Ok d →
     (fst (janitor.shouldDelete j now obj) = true ↔ age > d)
     ∧ (age > d → janitor.shouldDelete j now obj = (true, janitor.reasonTTL age d))
     ∧ (age = d → janitor.shouldDelete j now obj = (false, "")))
  ∧ (ttl = "0s" → 0 < age → fst (janitor.shouldDelete j now obj) = true)
  ∧ (is_ok (janitor.ParseExtendedDuration ttl) = false →
     janitor.shouldDelete j now obj = (false, "")).
Proof.
  intros Httl age. rewrite (shouldDelete_ttl j now obj ttl Httl). fold age.
  split; [|split].
  - intros d ->. cbv zeta. destruct (Z.gtb_spec age d) as [Hgt|Hle]; simpl.
    + repeat split; auto; lia.
    + split; [split; [discriminate|lia]|]. split; [lia|reflexivity].
  - intros -> Hpos.
    replace (janitor.ParseExtendedDuration "0s") with (Ok 0 : result janitor.DurationError Z)
      by (vm_compute; reflexivity).
    cbv zeta. destruct (Z.gtb_spec age 0) as [Hgt|Hle]; [reflexivity|lia].
  - intros Hbad. now destruct (janitor.ParseExtendedDuration ttl).
Qed.

Lemma ttl_annotation_decision_witness :
  fst (@janitor.shouldDelete fixtures.canonical (fixtures.plain false) fixtures.noon
         (fixtures.object "Pod" [("janitor/ttl", "0s")] (Some "2025-01-01T11:59:59Z")))
  = true
  ∧ @janitor.shouldDelete fixtures.canonical (fixtures.plain false) fixtures.noon
      (fixtures.object "Pod" [("janitor/ttl", "1h")] (Some "2025-01-01T11:00:00Z"))
    = (false, "")
  ∧ @janitor.shouldDelete fixtures.canonical (fixtures.plain false) fixtures.noon
      (fixtures.object "Pod" [("janitor/ttl", "invalid")] (Some "2025-01-01T10:00:00Z"))
    = (false, "").
Proof.
  split; [|split].
  - refine (proj1 (proj2 (ttl_annotation_decision fixtures.canonical (fixtures.plain false)
              fixtures.noon _ "0s" _)) eq_refl _); vm_compute; reflexivity.
  - refine (proj2 (proj2 (proj1 (ttl_annotation_decision fixtures.canonical
              (fixtures.plain false) fixtures.noon _ "1h" _) (1 * Hour) _)) _);
      vm_compute; reflexivity.
  - refine (proj2 (proj2 (ttl_annotation_decision fixtures.canonical (fixtures.plain false)
              fixtures.noon _ "invalid" _)) _); vm_compute; reflexivity.
Defined.

(** ** Expiration *)

(** C9. [parseExpirationTime] tries RFC3339, then YYYY-MM-DDTHH:MM:SS,
    then YYYY-MM-DDTHH:MM, then YYYY-MM-DD (whose result is moved to
    midnight UTC), returns the first that parses and an error when none
    does.  For an object without a TTL annotation and with a
    janitor/expires annotation that parses, the decision is delete exactly
    when now is strictly after the expiration: at now = expires the object
    is kept. *)
Theorem expiration_formats_and_strict_after (TP : TimeParser) :
  (∀ expires,
     janitor.parseExpirationTime expires
     = match time_Parse RFC3339 expires with
       | Some t => Some t
       | None =>
           match time_Parse "2006-01-02T15:04:05" expires with
           | Some t => Some t
           | None =>
               match time_Parse "2006-01-02T15:04" expires with
               | Some t => Some t
               | None =>
                   match time_Parse "2006-01-02" expires with
                   | Some t => Some (midnightUTC t)
                   | None => None
                   end
               end
           end
       end)
  ∧ (∀ (j : janitor.Janitor) (now : Time) (obj : Unstructured) (expires : string) (t : Time),
       GetAnnotations obj !! janitor.annotationTTL = None →
       GetAnnotations obj !! janitor.annotationExpires = Some expires →
       janitor.parseExpirationTime expires = Some t →
       (fst (janitor.shouldDelete j now obj) = true ↔ now > t)
       ∧ (now > t →
          janitor.shouldDelete j now obj = (true, janitor.reasonExpires expires))
       ∧ (now = t → janitor.shouldDelete j now obj = (false, ""))).
Proof.
  split.
  - intros expires. unfold janitor.parseExpirationTime, janitor.formats.
    cbn [janitor.parseExpirationTime_from].
    destruct (time_Parse RFC3339 expires); [reflexivity|].
    destruct (time_Parse "2006-01-02T15:04:05" expires); [reflexivity|].
    destruct (time_Parse "2006-01-02T15:04" expires); [reflexivity|].
    destruct (time_Parse "2006-01-02" expires); reflexivity.
  - intros j now obj expires t Httl Hexp Hparse.
    rewrite (shouldDelete_expires j now obj expires Httl Hexp), Hparse.
    unfold Time_After. destruct (Z.gtb_spec now t) as [Hgt|Hle]; simpl.
    + repeat split; auto; lia.
    + split; [split; [discriminate|lia]|]. split; [lia|reflexivity].
Qed.

Lemma expiration_formats_and_strict_after_witness :
  @janitor.shouldDelete fixtures.canonical (fixtures.plain false) fixtures.noon
    (fixtures.object "Deployment" [("janitor/expires", "2025-01-01T12:00")] None)
  = (false, "")
  ∧ @janitor.shouldDelete fixtures.canonical (fixtures.plain false) fixtures.noon
      (fixtures.object "Deployment" [("janitor/expires", "2025-01-01")] None)
    = (true, "Expiration time reached (2025-01-01)").
Proof.
  pose proof (proj2 (expiration_formats_and_strict_after fixtures.canonical)) as Hdec.
  split.
  - refine (proj2 (proj2 (Hdec (fixtures.plain false) fixtures.noon _
                            "2025-01-01T12:00" fixtures.noon _ _ _)) _);
      vm_compute; reflexivity.
  - refine (proj1 (proj2 (Hdec (fixtures.plain false) fixtures.noon _
                            "2025-01-01" (fixtures.noon - 12 * Hour) _ _ _)) _);
      vm_compute; reflexivity.
Defined.

(** ** A missing creation timestamp *)

Lemma missing_creation_is_zero (TP : TimeParser) (obj : Unstructured) :
  NestedFieldNoCopy (Object obj) ["metadata"; "creationTimestamp"] = NotFound
  → GetCreationTimestamp obj = zeroTime.
Proof.
  intros Hmissing. unfold GetCreationTimestamp, getNestedString. now rewrite Hmissing.
Qed.

Lemma since_zero_saturates (now : Time) :
  maxDuration ≤ now → Since now zeroTime = maxDuration.
Proof.
  intros Hnow. unfold Since, Time_Sub, zeroTime. rewrite Z.sub_0_r.
  assert (minDuration < 0) by (vm_compute; reflexivity).
  assert (0 < maxDuration) by (vm_compute; reflexivity).
  destruct (Z.ltb_spec now minDuration); [lia|].
  destruct (Z.gtb_spec now maxDuration); lia.
Qed.

(** C10, as the code has it.  For an object with a parseable janitor/ttl
    annotation and no /metadata/creationTimestamp field, the age is
    computed from the zero time and saturates at the largest Duration
    (2^63 - 1 ns); the object is deleted for every TTL strictly below that
    value, and kept for a TTL equal to it. *)
Theorem missing_creation_deletes_below_max (TP : TimeParser) (j : janitor.Janitor)
    (now : Time) (obj : Unstructured) (ttl : string) (d : Duration) :
  GetAnnotations obj !! janitor.annotationTTL = Some ttl →
  janitor.ParseExtendedDuration ttl = Ok d →
  NestedFieldNoCopy (Object obj) ["metadata"; "creationTimestamp"] = NotFound →
  maxDuration ≤ now →
  Since now (GetCreationTimestamp obj) = maxDuration
  ∧ (fst (janitor.shouldDelete j now obj) = true ↔ d < maxDuration)
  ∧ (d < maxDuration →
     janitor.shouldDelete j now obj = (true, janitor.reasonTTL maxDuration d)).
Proof.
  intros Httl Hparse Hmissing Hnow.
  pose proof (missing_creation_is_zero TP obj Hmissing) as Hzero.
  assert (Hage : Since now (GetCreationTimestamp obj) = maxDuration)
    by (rewrite Hzero; now apply since_zero_saturates).
  rewrite (shouldDelete_ttl j now obj ttl Httl), Hparse. cbv zeta. rewrite Hage.
  split; [reflexivity|].
  destruct (Z.gtb_spec maxDuration d) as [Hgt|Hle]; simpl.
  - repeat split; auto; lia.
  - split; [split; [discriminate|lia]|lia].
Qed.

Lemma missing_creation_deletes_below_max_witness :
  @janitor.shouldDelete fixtures.canonical (fixtures.plain false) fixtures.noon
    (fixtures.object "Pod" [("janitor/ttl", "2h")] None)
  = (true, "TTL expired (age: 2562047h47m16.854775807s, ttl: 2h0m0s)").
Proof.
  refine (proj2 (proj2 (missing_creation_deletes_below_max fixtures.canonical
            (fixtures.plain false) fixtures.noon _ "2h" (2 * Hour) _ _ _ _)) _);
    vm_compute; solve [reflexivity | discriminate].
Defined.

(** C10 as stated fails: a non-negative TTL equal to the largest Duration
    parses, the object has no creation timestamp, and it is kept. *)
Lemma missing_creation_kept_at_max_ttl :
  GetAnnotations fixtures.maxTtlPod !! janitor.annotationTTL
  = Some "9223372036854775807ns"
  ∧ janitor.ParseExtendedDuration "9223372036854775807ns" = Ok maxDuration
  ∧ 0 ≤ maxDuration
  ∧ NestedFieldNoCopy (Object fixtures.maxTtlPod) ["metadata"; "creationTimestamp"]
    = NotFound
  ∧ @janitor.shouldDelete fixtures.canonical (fixtures.plain false) fixtures.noon
      fixtures.maxTtlPod
    = (false, "").
Proof. vm_compute. repeat split; discriminate. Qed.

(** ** Dry run *)

Lemma shouldDelete_withDryRun (TP : TimeParser) (b : bool) (j : janitor.Janitor)
    (now : Time) (obj : Unstructured) :
  janitor.shouldDelete (spec.withDryRun b j) now obj = janitor.shouldDelete j now obj.
Proof. reflexivity. Qed.

Lemma processResources_withDryRun (b : bool) (j : janitor.Janitor)
    (gvr : janitor.GroupVersionResource) (namespace : string) (w : janitor.World) :
  janitor.processResources (spec.withDryRun b j) gvr namespace w
  = janitor.processResources j gvr namespace w.
Proof. reflexivity. Qed.

Lemma processItem_keep (TP : TimeParser) (j : janitor.Janitor) (now : Time)
    (item : janitor.WorkItem) (w : janitor.World) :
  fst (janitor.shouldDelete j now (janitor.wiObj item)) = false
  → janitor.processItem j now item w = w.
Proof.
  intros Hkeep. unfold janitor.processItem.
  destruct (janitor.shouldDelete j now (janitor.wiObj item)) as [del reason].
  simpl in Hkeep. now subst del.
Qed.

(** C2, as the code has it.  With dry-run enabled and a delete decision, a
    worker issues no delete call and records one normal DryRunDeletion
    event about the object, carrying the reason; it changes no metric
    counter and nothing else.  The decision and the counting and queueing
    of evaluated objects do not depend on the dry-run option. *)
Theorem dry_run_issues_no_delete (TP : TimeParser) (j : janitor.Janitor) (now : Time)
    (item : janitor.WorkItem) (w : janitor.World) :
  janitor.DryRun (janitor.config j) = true →
  fst (janitor.shouldDelete j now (janitor.wiObj item)) = true →
  let w' := janitor.processItem j now item w in
  janitor.deleteCalls w' = janitor.deleteCalls w
  ∧ janitor.metrics w' = janitor.metrics w
  ∧ janitor.WorkQueue w' = janitor.WorkQueue w
  ∧ (∃ e, janitor.events w' = janitor.events w ++ [e]
          ∧ janitor.evReason e = "DryRunDeletion"
          ∧ janitor.eventtype e = janitor.EventTypeNormal
          ∧ janitor.refName (janitor.involved e) = janitor.wiName item
          ∧ janitor.refNamespace (janitor.involved e) = janitor.wiNamespace item
          ∧ janitor.message e
            = "DRY RUN: Would delete " +:+ janitor.Resource (janitor.wiResource item)
              +:+ " " +:+ janitor.wiNamespace item +:+ "/" +:+ janitor.wiName item
              +:+ " - " +:+ snd (janitor.shouldDelete j now (janitor.wiObj item)))
  ∧ (∀ b obj, janitor.shouldDelete (spec.withDryRun b j) now obj
              = janitor.shouldDelete j now obj)
  ∧ (∀ b gvr namespace w0,
       janitor.processResources (spec.withDryRun b j) gvr namespace w0
       = janitor.processResources j gvr namespace w0).
Proof.
  intros Hdry Hdel. unfold janitor.processItem.
  destruct (janitor.shouldDelete j now (janitor.wiObj item)) as [del reason].
  simpl in Hdel. subst del. rewrite Hdry. simpl.
  repeat split; try reflexivity.
  eexists. split; [reflexivity|]. repeat split.
  cbn [janitor.message]. now rewrite !append_assoc.
Qed.

Lemma dry_run_issues_no_delete_witness :
  janitor.deleteCalls
    (@janitor.processItem fixtures.canonical (fixtures.plain true) fixtures.noon
       fixtures.expiredItem fixtures.emptyWorld) = [].
Proof.
  refine (proj1 (dry_run_issues_no_delete fixtures.canonical (fixtures.plain true)
                   fixtures.noon fixtures.expiredItem fixtures.emptyWorld _ _));
    vm_compute; reflexivity.
Defined.

(** C2 as stated fails on the metric: under dry-run a delete decision
    leaves every counter as it was. *)
Lemma dry_run_fires_no_metric :
  janitor.DryRun (janitor.config (fixtures.plain true)) = true
  ∧ fst (@janitor.shouldDelete fixtures.canonical (fixtures.plain true) fixtures.noon
           (janitor.wiObj fixtures.expiredItem)) = true
  ∧ ¬ spec.firesMetric fixtures.emptyWorld
        (@janitor.processItem fixtures.canonical (fixtures.plain true) fixtures.noon
           fixtures.expiredItem fixtures.emptyWorld).
Proof.
  split; [reflexivity|]. split; [vm_compute; reflexivity|].
  unfold spec.firesMetric. intros Hfires. apply Hfires. vm_compute. reflexivity.
Qed.

(** ** Precedence of the TTL annotation *)

Lemma annotations_present (obj : Unstructured) (k x : string) :
  GetAnnotations obj !! k = Some x
  → ∃ meta anns,
      Object obj !! "metadata" = Some (VMap meta)
      ∧ meta !! "annotations" = Some (VMap anns)
      ∧ map_Forall (fun _ v => is_Some (asString v)) anns
      ∧ GetAnnotations obj = omap asString anns.
Proof.
  unfold GetAnnotations, NestedStringMap, NestedFieldNoCopy.
  cbn [NestedFieldNoCopy_from].
  destruct (Object obj !! "metadata") as [[| | | | | |meta]|] eqn:Hm;
    try (rewrite lookup_empty; discriminate).
  destruct (meta !! "annotations") as [[| | | | | |anns]|] eqn:Ha;
    try (rewrite lookup_empty; discriminate).
  case_bool_decide as Hall; [|rewrite lookup_empty; discriminate].
  intros _. now exists meta, anns.
Qed.

Lemma GetAnnotations_withAnnotation (obj : Unstructured) (k : string) (v : option string)
    (k0 x : string) :
  GetAnnotations obj !! k0 = Some x
  → GetAnnotations (spec.withAnnotation k v obj)
    = match v with
      | Some s => <[k := s]> (GetAnnotations obj)
      | None => delete k (GetAnnotations obj)
      end.
Proof.
  intros Hk0. destruct (annotations_present obj k0 x Hk0) as (meta & anns & Hm & Ha & Hall & ->).
  unfold GetAnnotations, NestedStringMap, NestedFieldNoCopy, spec.withAnnotation.
  cbn [NestedFieldNoCopy_from Object].
  rewrite lookup_alter_eq, Hm. cbn [fmap option_fmap option_map spec.alterMap].
  rewrite lookup_alter_eq, Ha. cbn [fmap option_fmap option_map spec.alterMap].
  destruct v as [s|].
  - rewrite bool_decide_eq_true_2.
    + now rewrite omap_insert.
    + apply map_Forall_insert_2; [now exists s|assumption].
  - rewrite bool_decide_eq_true_2.
    + now rewrite omap_delete.
    + now apply map_Forall_delete.
Qed.

Lemma getNestedString_withAnnotation (obj : Unstructured) (k : string) (v : option string)
    (field : string) :
  field ≠ "annotations"
  → getNestedString (Object (spec.withAnnotation k v obj)) ["metadata"; field]
    = getNestedString (Object obj) ["metadata"; field].
Proof.
  intros Hfield. unfold getNestedString, NestedFieldNoCopy, spec.withAnnotation.
  cbn [NestedFieldNoCopy_from Object]. rewrite lookup_alter_eq.
  destruct (Object obj !! "metadata") as [[| | | | | |meta]|]; try reflexivity.
  cbn [fmap option_fmap option_map spec.alterMap].
  now rewrite lookup_alter_ne by congruence.
Qed.

Lemma GetCreationTimestamp_withAnnotation (TP : TimeParser) (obj : Unstructured)
    (k : string) (v : option string) :
  GetCreationTimestamp (spec.withAnnotation k v obj) = GetCreationTimestamp obj.
Proof.
  unfold GetCreationTimestamp.
  now rewrite getNestedString_withAnnotation by discriminate.
Qed.

(** C3. For an object whose janitor/ttl annotation is present (whether it
    parses or not), the janitor/expires annotation has no effect on the
    decision: setting it to any string or removing it leaves both the
    verdict and the reason as they were, and so do any two objects that
    agree on the TTL annotation and the creation timestamp. *)
Theorem expires_ignored_when_ttl_set (TP : TimeParser) (j : janitor.Janitor) (now : Time)
    (obj : Unstructured) :
  is_Some (GetAnnotations obj !! janitor.annotationTTL) →
  (∀ e : option string,
     janitor.shouldDelete j now (spec.withAnnotation janitor.annotationExpires e obj)
     = janitor.shouldDelete j now obj)
  ∧ (∀ e1 e2 : option string,
       janitor.shouldDelete j now (spec.withAnnotation janitor.annotationExpires e1 obj)
       = janitor.shouldDelete j now (spec.withAnnotation janitor.annotationExpires e2 obj))
  ∧ (∀ o2,
       GetAnnotations o2 !! janitor.annotationTTL
       = GetAnnotations obj !! janitor.annotationTTL →
       GetCreationTimestamp o2 = GetCreationTimestamp obj →
       janitor.shouldDelete j now o2 = janitor.shouldDelete j now obj).
Proof.
  intros Httl.
  assert (Hone : ∀ e : option string,
    janitor.shouldDelete j now (spec.withAnnotation janitor.annotationExpires e obj)
    = janitor.shouldDelete j now obj).
  { intros e. apply shouldDelete_ttl_only; [assumption| |].
    - destruct Httl as [ttl Httl].
      rewrite (GetAnnotations_withAnnotation obj _ e _ ttl Httl).
      destruct e; [now rewrite lookup_insert_ne|now rewrite lookup_delete_ne].
    - apply GetCreationTimestamp_withAnnotation. }
  split; [exact Hone|]. split.
  - intros e1 e2. now rewrite !Hone.
  - intros o2 Hsame Hcreated. now apply shouldDelete_ttl_only.
Qed.

Lemma expires_ignored_when_ttl_set_witness :
  @janitor.shouldDelete fixtures.canonical (fixtures.plain false) fixtures.noon
    (spec.withAnnotation janitor.annotationExpires (Some "2020-01-01")
       (fixtures.object "Pod" [("janitor/ttl", "2h")] (Some "2025-01-01T11:00:00Z")))
  = (false, "")
  ∧ @janitor.shouldDelete fixtures.canonical (fixtures.plain false) fixtures.noon
      (fixtures.object "Pod" [("janitor/expires", "2020-01-01")]
         (Some "2025-01-01T11:00:00Z"))
    = (true, "Expiration time reached (2020-01-01)").
Proof.
  split; [|vm_compute; reflexivity].
  assert (Httl : is_Some (GetAnnotations
                            (fixtures.object "Pod" [("janitor/ttl", "2h")]
                               (Some "2025-01-01T11:00:00Z"))
                          !! janitor.annotationTTL))
    by (exists "2h"; vm_compute; reflexivity).
  rewrite (proj1 (expires_ignored_when_ttl_set fixtures.canonical (fixtures.plain false)
                    fixtures.noon _ Httl)).
  vm_compute. reflexivity.
Defined.

(** ** The extended duration parser *)

Lemma append_nil_r (a : string) : a +:+ "" = a.
Proof.
  induction a as [|x a IH]; [reflexivity|].
  change (String x (a +:+ "") = String x a). now f_equal.
Qed.

Lemma consumedText_tokens (matches : list (list string)) :
  janitor.consumedText matches = spec.tokensText matches.
Proof.
  unfold janitor.consumedText.
  assert (Hacc : ∀ acc,
    fold_left (fun acc m => acc +:+ nth 0 m "") matches acc
    = acc +:+ spec.tokensText matches).
  { induction matches as [|m ms IH]; intros acc; simpl.
    - now rewrite append_nil_r.
    - now rewrite IH, append_assoc. }
  now rewrite Hacc.
Qed.

Lemma extended_accepts_only_complete (s : string) (d : Duration) :
  ParseDuration s = None
  → janitor.ParseExtendedDuration s = Ok d
  → FindAllStringSubmatch janitor.durationRe 2 s ≠ []
    ∧ janitor.sumMatches (FindAllStringSubmatch janitor.durationRe 2 s) 0 = Ok d
    ∧ removeSpaces s
      = removeSpaces (spec.tokensText (FindAllStringSubmatch janitor.durationRe 2 s)).
Proof.
  intros Hnative. unfold janitor.ParseExtendedDuration. rewrite Hnative.
  destruct (FindAllStringSubmatch janitor.durationRe 2 s) as [|m ms] eqn:Hms;
    [discriminate|].
  cbn [length Nat.eqb].
  destruct (janitor.sumMatches (m :: ms) 0) as [total|]; [|discriminate].
  rewrite consumedText_tokens.
  destruct (stringEqb _ _) eqn:Heq; simpl; [|discriminate].
  intros [= ->]. repeat split; [discriminate|]. now apply stringEqb_eq.
Qed.

Lemma extended_rejects_incomplete (s : string) :
  ParseDuration s = None
  → removeSpaces s
    ≠ removeSpaces (spec.tokensText (FindAllStringSubmatch janitor.durationRe 2 s))
  → is_ok (janitor.ParseExtendedDuration s) = false.
Proof.
  intros Hnative Hdiff.
  destruct (janitor.ParseExtendedDuration s) as [d|] eqn:Hparse; [|reflexivity].
  destruct (extended_accepts_only_complete s d Hnative Hparse) as (_ & _ & Heq).
  contradiction.
Qed.

(** C4. The extended duration parser accepts "1month2w3d12h30m" as exactly
    47 days 12 hours 30 minutes and rejects "2w3x", "invalid" and the empty
    string.  "2w3x" yields the token "2w" and is rejected by the
    completeness check; in general an input that the native parser refuses
    is accepted only when, spaces removed, it equals the concatenation of
    the matched tokens, and is rejected whenever the two differ. *)
Theorem extended_duration_parser :
  janitor.ParseExtendedDuration "1month2w3d12h30m"
  = Ok (47 * (24 * Hour) + 12 * Hour + 30 * Minute)
  ∧ janitor.ParseExtendedDuration "2w3x" = Err (janitor.InvalidFormat "2w3x")
  ∧ janitor.ParseExtendedDuration "invalid" = Err (janitor.InvalidFormat "invalid")
  ∧ janitor.ParseExtendedDuration "" = Err (janitor.InvalidFormat "")
  ∧ (ParseDuration "2w3x" = None
     ∧ FindAllStringSubmatch janitor.durationRe 2 "2w3x" = [["2w"; "2"; "w"]]
     ∧ janitor.sumMatches [["2w"; "2"; "w"]] 0 = Ok (14 * (24 * Hour))
     ∧ removeSpaces "2w3x" ≠ removeSpaces (spec.tokensText [["2w"; "2"; "w"]]))
  ∧ (∀ s, ParseDuration s = None →
       (removeSpaces s
        ≠ removeSpaces (spec.tokensText (FindAllStringSubmatch janitor.durationRe 2 s)) →
        is_ok (janitor.ParseExtendedDuration s) = false)
       ∧ (∀ d, janitor.ParseExtendedDuration s = Ok d →
            FindAllStringSubmatch janitor.durationRe 2 s ≠ []
            ∧ removeSpaces s
              = removeSpaces
                  (spec.tokensText (FindAllStringSubmatch janitor.durationRe 2 s)))).
Proof.
  split; [vm_compute; reflexivity|].
  split; [vm_compute; reflexivity|].
  split; [vm_compute; reflexivity|].
  split; [vm_compute; reflexivity|].
  split.
  - repeat split; try (vm_compute; reflexivity). vm_compute. discriminate.
  - intros s Hnative. split.
    + now apply extended_rejects_incomplete.
    + intros d Hparse.
      destruct (extended_accepts_only_complete s d Hnative Hparse) as (Hne & _ & Heq).
      now split.
Qed.

Lemma extended_duration_parser_witness :
  is_ok (janitor.ParseExtendedDuration "1d 12x") = false
  ∧ removeSpaces "2w 3d 12h"
    = removeSpaces
        (spec.tokensText (FindAllStringSubmatch janitor.durationRe 2 "2w 3d 12h")).
Proof.
  pose proof (proj2 (proj2 (proj2 (proj2 (proj2 extended_duration_parser))))) as Hgen.
  split.
  - refine (proj1 (Hgen "1d 12x" _) _); vm_compute; [reflexivity|discriminate].
  - refine (proj2 (proj2 (Hgen "2w 3d 12h" _) (17 * (24 * Hour) + 12 * Hour) _));
      vm_compute; reflexivity.
Defined.

(** The check removes spaces (U+0020) only: a tab between two tokens is
    matched by no token and is not removed, so the input is rejected. *)
Example extended_duration_tab_between_tokens :
  janitor.ParseExtendedDuration "2w 3d" = Ok (17 * (24 * Hour))
  ∧ janitor.ParseExtendedDuration ("2w" +:+ String "009" "3d")
    = Err (janitor.InvalidFormat ("2w" +:+ String "009" "3d")).
Proof. vm_compute. split; reflexivity. Qed.

(** The two packages carry the same parser: [rules.parseExtendedDuration]
    and [janitor.ParseExtendedDuration] accept the same inputs and give the
    same duration for each. *)
Lemma parsers_agree (s : string) :
  is_ok (rules.parseExtendedDuration s) = is_ok (janitor.ParseExtendedDuration s)
  ∧ ∀ d, rules.parseExtendedDuration s = Ok d ↔ janitor.ParseExtendedDuration s = Ok d.
Proof.
  assert (Hsum : ∀ ms total,
    match rules.sumMatches ms total, janitor.sumMatches ms total with
    | Ok a, Ok b => a = b
    | Err _, Err _ => True
    | _, _ => False
    end).
  { induction ms as [|m ms IH]; intros total; simpl; [reflexivity|].
    destruct (ParseFloat (nth 1 m "")) as [value|]; [|exact I].
    change (rules.unitDuration value (nth 2 m "")) with
      (janitor.unitDuration value (nth 2 m "")).
    destruct (janitor.unitDuration value (nth 2 m "")); [apply IH|exact I]. }
  unfold rules.parseExtendedDuration, janitor.ParseExtendedDuration.
  change rules.durationRe with janitor.durationRe.
  change rules.consumedText with janitor.consumedText.
  destruct (ParseDuration s) as [d0|]; [split; [reflexivity|]; intros x; split; congruence|].
  destruct (length (FindAllStringSubmatch janitor.durationRe 2 s) =? 0)%nat;
    [split; [reflexivity|]; intros x; split; discriminate|].
  specialize (Hsum (FindAllStringSubmatch janitor.durationRe 2 s) 0).
  destruct (rules.sumMatches _ 0) as [a|], (janitor.sumMatches _ 0) as [b|];
    try contradiction.
  - subst. destruct (negb _);
      [split; [reflexivity|]; intros x; split; discriminate|].
    split; [reflexivity|]. intros x; split; congruence.
  - split; [reflexivity|]. intros x; split; discriminate.
Qed.

(** ** The bounded loops of the library models never run out of rounds *)

Lemma leadingInt_from_length (x : Z) (s : string) (v : Z) (r : string) :
  leadingInt_from x s = Some (v, r) → (String.length r ≤ String.length s)%nat.
Proof.
  revert x. induction s as [|c s IH]; intros x; simpl.
  - intros [= _ <-]. reflexivity.
  - destruct (isDigit c).
    + destruct (x >? 2 ^ 63 / 10); [discriminate|].
      destruct (x * 10 + digitVal c >? 2 ^ 63); [discriminate|].
      intros H. apply IH in H. lia.
    + intros [= _ <-]. reflexivity.
Qed.

Lemma leadingFraction_from_length (x : Z) (scale : float64) (overflow : bool) (s : string) :
  (String.length (snd (leadingFraction_from x scale overflow s)) ≤ String.length s)%nat.
Proof.
  revert x scale overflow. induction s as [|c s IH]; intros x scale overflow; simpl.
  - reflexivity.
  - destruct (isDigit c); [|reflexivity].
    destruct overflow; [etransitivity; [apply IH|lia]|].
    destruct (x >? (2 ^ 63 - 1) / 10); [etransitivity; [apply IH|lia]|].
    destruct (x * 10 + digitVal c >? 2 ^ 63); etransitivity; try apply IH; lia.
Qed.

Lemma spanUnit_length (s : string) :
  String.length s
  = (String.length (fst (spanUnit s)) + String.length (snd (spanUnit s)))%nat.
Proof.
  induction s as [|c s IH]; simpl; [reflexivity|].
  destruct (Ascii.eqb c "." || isDigit c); [reflexivity|].
  destruct (spanUnit s) as [u r]. simpl in *. lia.
Qed.

(** Every term of a duration consumes at least its unit. *)
Lemma parseTerm_shrinks (d : Z) (s : string) (d' : Z) (s' : string) :
  parseTerm d s = Some (d', s') → (String.length s' < String.length s)%nat.
Proof.
  unfold parseTerm. destruct s as [|c0 s0]; [discriminate|].
  destruct (negb (Ascii.eqb c0 "." || isDigit c0)); [discriminate|].
  destruct (leadingInt (String c0 s0)) as [[v s1]|] eqn:Hint; [|discriminate].
  apply leadingInt_from_length in Hint.
  set (tail := match s1 with
               | String c s1' =>
                   if Ascii.eqb c "." then
                     let '(f, scale, r) := leadingFraction s1' in
                     (f, scale, negb (String.length s1' =? String.length r)%nat, r)
                   else (0, f64_of_Z 1, false, s1)
               | EmptyString => (0, f64_of_Z 1, false, s1)
               end).
  assert (Htail : (String.length (snd tail) ≤ String.length s1)%nat).
  { subst tail. destruct s1 as [|c s1']; [reflexivity|].
    destruct (Ascii.eqb c "."); [|reflexivity].
    pose proof (leadingFraction_from_length 0 (f64_of_Z 1) false s1') as Hfrac.
    unfold leadingFraction. destruct (leadingFraction_from _ _ _ s1') as [[f sc] r].
    simpl in *. lia. }
  destruct tail as [[[f scale] post] s2]. simpl in Htail.
  destruct (negb _ && negb post); [discriminate|].
  pose proof (spanUnit_length s2) as Hunit.
  destruct (spanUnit s2) as [u s3]. simpl in Hunit.
  destruct (stringEqb u "") eqn:Hu; [discriminate|].
  assert (0 < String.length u)%nat.
  { destruct u; [discriminate|simpl; lia]. }
  destruct (unitMap u) as [unit|]; [|discriminate].
  destruct (v >? 2 ^ 63 / unit); [discriminate|].
  destruct ((f >? 0) && _); [discriminate|].
  destruct (wrapU64 _ >? 2 ^ 63); [discriminate|].
  intros [= _ <-]. lia.
Qed.

Lemma parseTerms_fuel (n m : nat) (d : Z) (s : string) :
  (String.length s ≤ n)%nat → (String.length s ≤ m)%nat
  → parseTerms n d s = parseTerms m d s.
Proof.
  revert m d s. induction n as [|n IH]; intros m d s Hn Hm.
  - destruct s; [now destruct m|simpl in Hn; lia].
  - destruct s as [|c s]; [now destruct m|].
    destruct m as [|m]; [simpl in Hm; lia|].
    cbn [parseTerms].
    destruct (parseTerm d (String c s)) as [[d' s']|] eqn:Hterm; [|reflexivity].
    apply parseTerm_shrinks in Hterm. apply IH; simpl in *; lia.
Qed.

Section Shrinking.
Context {A : Type} (total : nat).

Lemma starLoop_shrinking
    (step : string → captures → (string → captures → option A) → option A) (n : nat) :
  shrinking step → shrinking (fun s cs k => starLoop step k n s cs).
Proof.
  intros Hstep. induction n as [|n IH]; intros s cs k0 a; simpl.
  - intros Hk. now exists s, cs.
  - destruct (step s cs _) as [a'|] eqn:Hround.
    + intros [= ->]. apply Hstep in Hround as (s1 & cs1 & Hlen & Hcont).
      destruct (String.length s1 <? String.length s)%nat; [|discriminate].
      apply IH in Hcont as (s' & cs' & Hlen' & Hk). exists s', cs'. split; [lia|exact Hk].
    + intros Hk. now exists s, cs.
Qed.

Lemma stripPrefix_length (p s s' : string) :
  stripPrefix p s = Some s' → (String.length s' ≤ String.length s)%nat.
Proof.
  revert s. induction p as [|a p IH]; intros s; simpl.
  - intros [= ->]. reflexivity.
  - destruct s as [|b s]; [discriminate|].
    destruct (Ascii.eqb a b); [|discriminate]. intros H. apply IH in H. simpl. lia.
Qed.

Lemma backtrack_shrinking (r : regex) : shrinking (A := A) (backtrack total r).
Proof.
  induction r as [| | |p|l|r1 IH1 r2 IH2|r1 IH1 r2 IH2|r1 IH1|i r1 IH1];
    intros s cs k a; cbn [backtrack].
  - intros Hk. now exists s, cs.
  - destruct (String.length s =? total)%nat; [|discriminate]. intros Hk. now exists s, cs.
  - destruct s; [|discriminate]. intros Hk. now exists EmptyString, cs.
  - destruct s as [|c s]; [discriminate|]. destruct (p c); [|discriminate].
    intros Hk. exists s, cs. split; [simpl; lia|exact Hk].
  - destruct (stripPrefix l s) as [s'|] eqn:Hp; [|discriminate].
    intros Hk. exists s', cs. split; [now apply stripPrefix_length in Hp|exact Hk].
  - intros H. apply IH1 in H as (s1 & cs1 & Hlen1 & H).
    apply IH2 in H as (s2 & cs2 & Hlen2 & H). exists s2, cs2. split; [lia|exact H].
  - destruct (backtrack total r1 s cs k) as [a'|] eqn:H1.
    + intros [= ->]. now apply IH1 in H1.
    + apply IH2.
  - apply (starLoop_shrinking (backtrack total r1) (String.length s) IH1 s cs k a).
  - intros H. apply IH1 in H as (s1 & cs1 & Hlen & H).
    exists s1, ((i, consumed s s1) :: cs1). split; [exact Hlen|exact H].
Qed.

End Shrinking.

Lemma backtrack_consuming {A : Type} (total : nat) (r : regex) (s : string)
    (cs : captures) (k : string → captures → option A) (a : A) :
  consuming r = true
  → backtrack total r s cs k = Some a
  → ∃ s' cs', (String.length s' < String.length s)%nat ∧ k s' cs' = Some a.
Proof.
  revert s cs k.
  induction r as [| | |p|l|r1 IH1 r2 IH2|r1 IH1 r2 IH2|r1 IH1|i r1 IH1];
    intros s cs k; cbn [consuming backtrack]; try discriminate.
  - intros _. destruct s as [|c s]; [discriminate|]. destruct (p c); [|discriminate].
    intros Hk. exists s, cs. split; [simpl; lia|exact Hk].
  - intros Hl. destruct (stripPrefix l s) as [s'|] eqn:Hp; [|discriminate].
    intros Hk. exists s', cs. split; [|exact Hk].
    destruct l as [|x l]; [discriminate|]. simpl in Hp.
    destruct s as [|y s]; [discriminate|]. destruct (Ascii.eqb x y); [|discriminate].
    apply stripPrefix_length in Hp. simpl. lia.
  - intros Hor H. apply orb_true_iff in Hor as [H1|H2].
    + apply (IH1 _ _ _ H1) in H as (s1 & cs1 & Hlen1 & H).
      apply backtrack_shrinking in H as (s2 & cs2 & Hlen2 & H).
      exists s2, cs2. split; [lia|exact H].
    + apply backtrack_shrinking in H as (s1 & cs1 & Hlen1 & H).
      apply (IH2 _ _ _ H2) in H as (s2 & cs2 & Hlen2 & H).
      exists s2, cs2. split; [lia|exact H].
  - intros Hand. apply andb_true_iff in Hand as [H1 H2].
    destruct (backtrack total r1 s cs k) as [a'|] eqn:Hfirst.
    + intros [= ->]. now apply (IH1 _ _ _ H1) in Hfirst.
    + now apply IH2.
  - intros H1 H. apply (IH1 _ _ _ H1) in H as (s1 & cs1 & Hlen & H).
    exists s1, ((i, consumed s s1) :: cs1). split; [exact Hlen|exact H].
Qed.

(** A duration token is never empty, so the scan for tokens always moves
    on by a whole token and never stops inside a multi-byte character. *)
Lemma duration_token_consumes (total : nat) (s : string) (m : list string)
    (rest : string) :
  matchAt total janitor.durationRe 2 s = Some (m, rest)
  → (String.length rest < String.length s)%nat.
Proof.
  unfold matchAt. intros H.
  apply backtrack_consuming in H as (s' & cs' & Hlen & [= _ <-]);
    [exact Hlen|reflexivity].
Qed.

Lemma matchAt_length (total : nat) (r : regex) (ncap : nat) (s : string)
    (m : list string) (rest : string) :
  matchAt total r ncap s = Some (m, rest) → (String.length rest ≤ String.length s)%nat.
Proof.
  unfold matchAt. intros H.
  apply backtrack_shrinking in H as (s' & cs' & Hlen & [= _ <-]). exact Hlen.
Qed.

Lemma search_length (total : nat) (r : regex) (ncap : nat) (s start : string)
    (m : list string) (rest : string) :
  search total r ncap s = Some (start, m, rest)
  → (String.length rest ≤ String.length s)%nat.
Proof.
  induction s as [|c s IH]; cbn [search].
  - destruct (matchAt total r ncap "") as [[m0 rest0]|] eqn:Hm; [|discriminate].
    intros [= _ _ <-]. now apply matchAt_length in Hm.
  - destruct (matchAt total r ncap (String c s)) as [[m0 rest0]|] eqn:Hm.
    + intros [= _ _ <-]. now apply matchAt_length in Hm.
    + intros H. apply IH in H. simpl. lia.
Qed.

(** The scan for all matches ends within one round per byte, plus one. *)
Lemma findAll_fuel (n m total : nat) (r : regex) (ncap : nat) (prevEnd : option nat)
    (s : string) :
  (String.length s < n)%nat → (String.length s < m)%nat
  → findAll n total r ncap prevEnd s = findAll m total r ncap prevEnd s.
Proof.
  revert m prevEnd s. induction n as [|n IH]; intros m prevEnd s Hn Hm; [lia|].
  destruct m as [|m]; [lia|]. cbn [findAll].
  destruct (search total r ncap s) as [[[start m0] rest]|] eqn:Hsearch; [|reflexivity].
  apply search_length in Hsearch.
  destruct (String.length rest =? String.length s)%nat eqn:Hempty.
  - f_equal. destruct s as [|c s]; [reflexivity|]. apply IH; simpl in *; lia.
  - apply Nat.eqb_neq in Hempty. f_equal. apply IH; lia.
Qed.

(** * Further properties of the packages *)

(** ** Workers outside dry-run *)

Lemma Inc_lookup `{Countable K} (k k' : K) (m : gmap K nat) :
  default 0%nat (janitor.Inc k m !! k')
  = (default 0%nat (m !! k') + if bool_decide (k = k') then 1 else 0)%nat.
Proof.
  unfold janitor.Inc. case_bool_decide as Hk.
  - subst. rewrite lookup_insert_eq. simpl. lia.
  - rewrite lookup_insert_ne by assumption. lia.
Qed.

(** With dry-run off, a delete decision and a platform that accepts the
    delete: exactly one delete call for the item's coordinate, namespace
    and name; the deleted counter of (resource, namespace, reason) grows
    by one and no other counter moves; one normal ResourceDeleted event
    is recorded. *)
Theorem live_delete_success (TP : TimeParser) (j : janitor.Janitor) (now : Time)
    (item : janitor.WorkItem) (w : janitor.World) (reason : string) :
  janitor.DryRun (janitor.config j) = false →
  janitor.shouldDelete j now (janitor.wiObj item) = (true, reason) →
  janitor.Delete (janitor.dynamicClient j) (janitor.wiResource item)
    (janitor.wiNamespace item) (janitor.wiName item) = None →
  let w' := janitor.processItem j now item w in
  janitor.deleteCalls w'
  = janitor.deleteCalls w
    ++ [(janitor.wiResource item, janitor.wiNamespace item, janitor.wiName item)]
  ∧ (∀ k, default 0%nat (janitor.ResourcesDeleted (janitor.metrics w') !! k)
          = (default 0%nat (janitor.ResourcesDeleted (janitor.metrics w) !! k)
             + if bool_decide
                    ((janitor.Resource (janitor.wiResource item),
                      janitor.wiNamespace item, reason) = k)
               then 1 else 0)%nat)
  ∧ janitor.Errors (janitor.metrics w') = janitor.Errors (janitor.metrics w)
  ∧ janitor.ResourcesEvaluated (janitor.metrics w')
    = janitor.ResourcesEvaluated (janitor.metrics w)
  ∧ janitor.WorkQueue w' = janitor.WorkQueue w
  ∧ ∃ e, janitor.events w' = janitor.events w ++ [e]
         ∧ janitor.evReason e = "ResourceDeleted"
         ∧ janitor.eventtype e = janitor.EventTypeNormal
         ∧ janitor.refName (janitor.involved e) = janitor.wiName item
         ∧ janitor.refNamespace (janitor.involved e) = janitor.wiNamespace item.
Proof.
  intros Hlive Hdel Hok. unfold janitor.processItem.
  rewrite Hdel, Hlive, Hok. simpl.
  repeat split; try reflexivity.
  - intros k. apply Inc_lookup.
  - eexists. repeat split.
Qed.

Lemma live_delete_success_witness :
  janitor.deleteCalls
    (@janitor.processItem fixtures.canonical (fixtures.plain false) fixtures.noon
       fixtures.expiredItem fixtures.emptyWorld)
  = [(janitor.wiResource fixtures.expiredItem, "default", "test-pod")].
Proof.
  refine (proj1 (live_delete_success fixtures.canonical (fixtures.plain false)
                   fixtures.noon fixtures.expiredItem fixtures.emptyWorld
                   "TTL expired (age: 1h0m0s, ttl: 0s)" _ _ _));
    vm_compute; reflexivity.
Defined.

(** With dry-run off, a delete decision and a platform that refuses the
    delete: the call is still issued once, the error counter
    delete_resource grows by one, the deleted counter does not move, and
    one warning DeletionFailed event carrying the platform's error is
    recorded. *)
Theorem live_delete_failure (TP : TimeParser) (j : janitor.Janitor) (now : Time)
    (item : janitor.WorkItem) (w : janitor.World) (err : string) :
  janitor.DryRun (janitor.config j) = false →
  fst (janitor.shouldDelete j now (janitor.wiObj item)) = true →
  janitor.Delete (janitor.dynamicClient j) (janitor.wiResource item)
    (janitor.wiNamespace item) (janitor.wiName item) = Some err →
  let w' := janitor.processItem j now item w in
  janitor.deleteCalls w'
  = janitor.deleteCalls w
    ++ [(janitor.wiResource item, janitor.wiNamespace item, janitor.wiName item)]
  ∧ (∀ k, default 0%nat (janitor.Errors (janitor.metrics w') !! k)
          = (default 0%nat (janitor.Errors (janitor.metrics w) !! k)
             + if bool_decide ("delete_resource" = k) then 1 else 0)%nat)
  ∧ janitor.ResourcesDeleted (janitor.metrics w')
    = janitor.ResourcesDeleted (janitor.metrics w)
  ∧ janitor.ResourcesEvaluated (janitor.metrics w')
    = janitor.ResourcesEvaluated (janitor.metrics w)
  ∧ janitor.WorkQueue w' = janitor.WorkQueue w
  ∧ ∃ e, janitor.events w' = janitor.events w ++ [e]
         ∧ janitor.evReason e = "DeletionFailed"
         ∧ janitor.eventtype e = janitor.EventTypeWarning
         ∧ janitor.message e
           = "Failed to delete " +:+ janitor.Resource (janitor.wiResource item)
             +:+ " " +:+ janitor.wiNamespace item +:+ "/" +:+ janitor.wiName item
             +:+ ": " +:+ err.
Proof.
  intros Hlive Hdel Hfail. unfold janitor.processItem.
  destruct (janitor.shouldDelete j now (janitor.wiObj item)) as [del reason].
  simpl in Hdel. subst del. rewrite Hlive, Hfail. simpl.
  repeat split; try reflexivity.
  - intros k. apply Inc_lookup.
  - eexists. split; [reflexivity|]. repeat split.
    cbn [janitor.message]. now rewrite !append_assoc.
Qed.

Lemma live_delete_failure_witness :
  default 0%nat
    (janitor.Errors
       (janitor.metrics
          (@janitor.processItem fixtures.canonical fixtures.refused fixtures.noon
             fixtures.expiredItem fixtures.emptyWorld)) !! "delete_resource")
  = 1%nat.
Proof.
  assert (Hdel : fst (@janitor.shouldDelete fixtures.canonical fixtures.refused
                        fixtures.noon (janitor.wiObj fixtures.expiredItem)) = true)
    by (vm_compute; reflexivity).
  rewrite (proj1 (proj2 (live_delete_failure fixtures.canonical fixtures.refused
             fixtures.noon fixtures.expiredItem fixtures.emptyWorld
             "pods 'test-pod' is forbidden" eq_refl Hdel eq_refl)) "delete_resource").
  reflexivity.
Defined.

Lemma processItem_effects (TP : TimeParser) (j : janitor.Janitor) (now : Time)
    (item : janitor.WorkItem) (w : janitor.World) :
  let decided := fst (janitor.shouldDelete j now (janitor.wiObj item)) in
  let w' := janitor.processItem j now item w in
  janitor.deleteCalls w'
  = janitor.deleteCalls w
    ++ (if decided && negb (janitor.DryRun (janitor.config j))
        then [(janitor.wiResource item, janitor.wiNamespace item, janitor.wiName item)]
        else [])
  ∧ length (janitor.events w')
    = (length (janitor.events w) + if decided then 1 else 0)%nat
  ∧ janitor.WorkQueue w' = janitor.WorkQueue w
  ∧ janitor.ResourcesEvaluated (janitor.metrics w')
    = janitor.ResourcesEvaluated (janitor.metrics w)
  ∧ (decided = false → w' = w).
Proof.
  unfold janitor.processItem.
  destruct (janitor.shouldDelete j now (janitor.wiObj item)) as [[|] reason]; simpl.
  - destruct (janitor.DryRun (janitor.config j)); simpl.
    + rewrite app_nil_r, length_app. simpl. repeat split; try reflexivity. discriminate.
    + destruct (janitor.Delete _ _ _ _); simpl; rewrite length_app; simpl;
        repeat split; try reflexivity; discriminate.
  - rewrite app_nil_r, Nat.add_0_r. repeat split; reflexivity.
Qed.

(** Whatever the mode and the platform's answer, a worker handling one
    item issues a delete call only when the decision is delete and dry-run
    is off, and then exactly one, for that item; it records exactly one
    event per delete decision and none otherwise; it never touches the
    queue or the evaluated counter; an item that is kept leaves everything
    as it was. *)
Theorem worker_item_effects (TP : TimeParser) (j : janitor.Janitor) (now : Time)
    (item : janitor.WorkItem) (w : janitor.World) :
  janitor.deleteCalls (janitor.processItem j now item w)
  = janitor.deleteCalls w
    ++ (if fst (janitor.shouldDelete j now (janitor.wiObj item))
           && negb (janitor.DryRun (janitor.config j))
        then [(janitor.wiResource item, janitor.wiNamespace item, janitor.wiName item)]
        else [])
  ∧ length (janitor.events (janitor.processItem j now item w))
    = (length (janitor.events w)
       + if fst (janitor.shouldDelete j now (janitor.wiObj item)) then 1 else 0)%nat
  ∧ janitor.WorkQueue (janitor.processItem j now item w) = janitor.WorkQueue w
  ∧ janitor.ResourcesEvaluated (janitor.metrics (janitor.processItem j now item w))
    = janitor.ResourcesEvaluated (janitor.metrics w)
  ∧ (fst (janitor.shouldDelete j now (janitor.wiObj item)) = false →
     janitor.processItem j now item w = w).
Proof. apply processItem_effects. Qed.

Lemma worker_item_effects_witness :
  @janitor.processItem fixtures.canonical (fixtures.plain false) fixtures.noon
    {| janitor.wiResource := janitor.wiResource fixtures.expiredItem;
       janitor.wiNamespace := "default"; janitor.wiName := "fresh";
       janitor.wiObj := fixtures.object "Pod" [("janitor/ttl", "2h")]
                          (Some "2025-01-01T11:00:00Z") |}
    fixtures.emptyWorld
  = fixtures.emptyWorld.
Proof.
  refine (proj2 (proj2 (proj2 (proj2 (worker_item_effects fixtures.canonical
            (fixtures.plain false) fixtures.noon _ fixtures.emptyWorld)))) _).
  vm_compute. reflexivity.
Defined.

(** A worker that takes a sequence of items from the queue issues delete
    calls for exactly those it decided to delete, in the order it took
    them, and none at all under dry-run; it records one event per delete
    decision. *)
Theorem worker_deletes_exactly_decided (TP : TimeParser) (j : janitor.Janitor)
    (received : list (Time * janitor.WorkItem)) (w : janitor.World) :
  let decided :=
    List.filter
      (fun ti => fst (janitor.shouldDelete j (fst ti) (janitor.wiObj (snd ti))))
      received in
  janitor.deleteCalls (janitor_cycle.worker j received w)
  = janitor.deleteCalls w
    ++ (if janitor.DryRun (janitor.config j) then []
        else map (fun ti => (janitor.wiResource (snd ti), janitor.wiNamespace (snd ti),
                             janitor.wiName (snd ti))) decided)
  ∧ length (janitor.events (janitor_cycle.worker j received w))
    = (length (janitor.events w) + length decided)%nat
  ∧ janitor.WorkQueue (janitor_cycle.worker j received w) = janitor.WorkQueue w.
Proof.
  unfold janitor_cycle.worker. revert w.
  induction received as [|[now item] received IH]; intros w; cbn [fold_left List.filter].
  - destruct (janitor.DryRun _); rewrite app_nil_r; simpl; repeat split; lia.
  - destruct (processItem_effects TP j now item w) as (Hd & He & Hq & _).
    destruct (IH (janitor.processItem j now item w)) as (IHd & IHe & IHq).
    cbn [fst snd]. rewrite IHd, IHe, IHq, Hd, He, Hq.
    destruct (fst (janitor.shouldDelete j now (janitor.wiObj item)));
      destruct (janitor.DryRun (janitor.config j)); simpl;
      rewrite <- ?app_assoc, ?app_nil_r; simpl; repeat split; lia.
Qed.

(** ** The decision as a whole *)

Lemma append_nonempty (c : ascii) (a b : string) : String c a +:+ b ≠ "".
Proof. intros H. change (String c (a +:+ b) = "") in H. discriminate. Qed.

(** The reason is non-empty exactly when the decision is delete. *)
Theorem reason_iff_delete (TP : TimeParser) (j : janitor.Janitor) (now : Time)
    (obj : Unstructured) :
  fst (janitor.shouldDelete j now obj) = true ↔ snd (janitor.shouldDelete j now obj) ≠ "".
Proof.
  unfold janitor.shouldDelete.
  assert (Hkeep : fst (false, "") = true ↔ snd (false, "") ≠ "")
    by (simpl; split; [discriminate|congruence]).
  assert (Hdel : ∀ c a b, fst (true, String c a +:+ b) = true
                          ↔ snd (true, String c a +:+ b) ≠ "")
    by (intros; simpl; split; [intros _; apply append_nonempty|reflexivity]).
  destruct (GetAnnotations obj !! janitor.annotationTTL) as [ttl|].
  - destruct (janitor.ParseExtendedDuration ttl); [|exact Hkeep].
    cbv zeta. destruct (_ >? _); [apply Hdel|exact Hkeep].
  - destruct (GetAnnotations obj !! janitor.annotationExpires) as [expires|].
    + destruct (janitor.parseExpirationTime expires); [|exact Hkeep].
      destruct (Time_After now _); [apply Hdel|exact Hkeep].
    + destruct (janitor.RuleEngine j) as [engine|]; [|exact Hkeep].
      destruct (rules.Evaluate engine obj) as [[r|] ttl]; [|exact Hkeep].
      cbv zeta. destruct (_ >? _); [apply Hdel|exact Hkeep].
Qed.

(** Without either annotation the rules decide: no engine keeps; with an
    engine the object is deleted exactly when some rule matches and the
    age is strictly greater than the TTL of the first matching rule, and
    the reason names that rule. *)
Theorem rules_decide_without_annotations (TP : TimeParser) (j : janitor.Janitor)
    (now : Time) (obj : Unstructured) :
  GetAnnotations obj !! janitor.annotationTTL = None →
  GetAnnotations obj !! janitor.annotationExpires = None →
  let age := Since now (GetCreationTimestamp obj) in
  (janitor.RuleEngine j = None → janitor.shouldDelete j now obj = (false, ""))
  ∧ (∀ engine, janitor.RuleEngine j = Some engine →
       (rules.Evaluate engine obj = (None, 0) →
        janitor.shouldDelete j now obj = (false, ""))
       ∧ (∀ r ttl, rules.Evaluate engine obj = (Some r, ttl) →
            (fst (janitor.shouldDelete j now obj) = true ↔ age > ttl)
            ∧ (age > ttl →
               janitor.shouldDelete j now obj
               = (true, janitor.reasonRule (rules.ID r) age ttl)))).
Proof.
  intros Httl Hexp age. unfold janitor.shouldDelete. rewrite Httl, Hexp. fold age.
  split.
  - now intros ->.
  - intros engine ->. split.
    + now intros ->.
    + intros r ttl ->. destruct (Z.gtb_spec age ttl) as [Hgt|Hle]; simpl.
      * repeat split; auto; lia.
      * split; [split; [discriminate|lia]|lia].
Qed.

Lemma rules_decide_without_annotations_witness :
  @janitor.shouldDelete fixtures.canonical fixtures.ruled fixtures.noon
    (fixtures.object "Pod" [] (Some "2025-01-01T11:00:00Z"))
  = (true, "Rule 'catch-all' matched (age: 1h0m0s, ttl: 0s)").
Proof.
  refine (proj2 (proj2 (proj2 (rules_decide_without_annotations fixtures.canonical
            fixtures.ruled fixtures.noon _ _ _) _ eq_refl)
                   (fixtures.sampleRule "catch-all" ["*"] "0s") 0 _) _);
    vm_compute; reflexivity.
Defined.

(** An annotation short-circuits the rules: once janitor/ttl or
    janitor/expires is present, expired or not, parseable or not, the
    decision is the same for every controller, whatever rules it has. *)
Theorem annotations_shadow_rules (TP : TimeParser) (now : Time) (obj : Unstructured) :
  is_Some (GetAnnotations obj !! janitor.annotationTTL)
  ∨ is_Some (GetAnnotations obj !! janitor.annotationExpires) →
  ∀ j j', janitor.shouldDelete j now obj = janitor.shouldDelete j' now obj.
Proof.
  intros Hann j j'. unfold janitor.shouldDelete.
  destruct (GetAnnotations obj !! janitor.annotationTTL); [reflexivity|].
  destruct (GetAnnotations obj !! janitor.annotationExpires); [reflexivity|].
  destruct Hann as [[? [=]]|[? [=]]].
Qed.

Lemma annotations_shadow_rules_witness :
  @janitor.shouldDelete fixtures.canonical fixtures.ruled fixtures.noon
    (fixtures.object "Pod" [("janitor/expires", "not a date")]
       (Some "2025-01-01T11:00:00Z"))
  = (false, "").
Proof.
  rewrite (annotations_shadow_rules fixtures.canonical fixtures.noon
             (fixtures.object "Pod" [("janitor/expires", "not a date")]
                (Some "2025-01-01T11:00:00Z"))
             (or_intror (ex_intro (fun x => _ = Some x) "not a date" eq_refl))
             fixtures.ruled (fixtures.plain false)).
  vm_compute. reflexivity.
Defined.

Lemma Since_mono (now now' t : Time) : now ≤ now' → Since now t ≤ Since now' t.
Proof.
  intros Hle. unfold Since, Time_Sub.
  assert (minDuration < maxDuration) by (vm_compute; reflexivity).
  repeat match goal with
         | |- context [?a <? ?b] => destruct (Z.ltb_spec a b)
         | |- context [?a >? ?b] => destruct (Z.gtb_spec a b)
         end; lia.
Qed.

(** A delete decision is stable in time: an object that is to be deleted
    at one instant is to be deleted at every later instant. *)
Theorem delete_is_stable (TP : TimeParser) (j : janitor.Janitor) (now now' : Time)
    (obj : Unstructured) :
  now ≤ now' →
  fst (janitor.shouldDelete j now obj) = true →
  fst (janitor.shouldDelete j now' obj) = true.
Proof.
  intros Hle. pose proof (Since_mono now now' (GetCreationTimestamp obj) Hle) as Hage.
  unfold janitor.shouldDelete.
  destruct (GetAnnotations obj !! janitor.annotationTTL) as [ttl|].
  - destruct (janitor.ParseExtendedDuration ttl) as [d|]; [|discriminate]. cbv zeta.
    destruct (Z.gtb_spec (Since now (GetCreationTimestamp obj)) d); [|discriminate].
    intros _. destruct (Z.gtb_spec (Since now' (GetCreationTimestamp obj)) d);
      [reflexivity|lia].
  - destruct (GetAnnotations obj !! janitor.annotationExpires) as [expires|].
    + destruct (janitor.parseExpirationTime expires) as [t|]; [|discriminate].
      unfold Time_After. destruct (Z.gtb_spec now t); [|discriminate].
      intros _. destruct (Z.gtb_spec now' t); [reflexivity|lia].
    + destruct (janitor.RuleEngine j) as [engine|]; [|discriminate].
      destruct (rules.Evaluate engine obj) as [[r|] ttl]; [|discriminate]. cbv zeta.
      destruct (Z.gtb_spec (Since now (GetCreationTimestamp obj)) ttl); [|discriminate].
      intros _. destruct (Z.gtb_spec (Since now' (GetCreationTimestamp obj)) ttl);
        [reflexivity|lia].
Qed.

Lemma delete_is_stable_witness :
  fst (@janitor.shouldDelete fixtures.canonical (fixtures.plain false)
         (fixtures.noon + Hour)
         (fixtures.object "Pod" [("janitor/ttl", "1h")] (Some "2025-01-01T10:00:00Z")))
  = true.
Proof.
  refine (delete_is_stable fixtures.canonical (fixtures.plain false) fixtures.noon
            (fixtures.noon + Hour) _ _ _); vm_compute; [discriminate|reflexivity].
Defined.

(** ** Listing and queueing *)

Lemma processResources_fold (gvr : janitor.GroupVersionResource) (namespace : string)
    (items : list Unstructured) (w : janitor.World) :
  let w' :=
    fold_left
      (fun w obj =>
         janitor.enqueue {| janitor.wiResource := gvr; janitor.wiNamespace := namespace;
                            janitor.wiName := GetName obj; janitor.wiObj := obj |}
           (janitor.incEvaluated (janitor.Resource gvr, namespace) w))
      items w in
  janitor.WorkQueue w'
  = janitor.WorkQueue w ++ map (janitor_cycle.itemOf gvr namespace) items
  ∧ (∀ k, default 0%nat (janitor.ResourcesEvaluated (janitor.metrics w') !! k)
          = (default 0%nat (janitor.ResourcesEvaluated (janitor.metrics w) !! k)
             + if bool_decide ((janitor.Resource gvr, namespace) = k)
               then length items else 0)%nat)
  ∧ janitor.deleteCalls w' = janitor.deleteCalls w
  ∧ janitor.events w' = janitor.events w
  ∧ janitor.ResourcesDeleted (janitor.metrics w') = janitor.ResourcesDeleted (janitor.metrics w)
  ∧ janitor.Errors (janitor.metrics w') = janitor.Errors (janitor.metrics w).
Proof.
  revert w. induction items as [|obj items IH]; intros w; cbn [fold_left].
  - simpl. rewrite app_nil_r. repeat split; try reflexivity.
    intros k. destruct (bool_decide _); lia.
  - specialize (IH (janitor.enqueue
                      {| janitor.wiResource := gvr; janitor.wiNamespace := namespace;
                         janitor.wiName := GetName obj; janitor.wiObj := obj |}
                      (janitor.incEvaluated (janitor.Resource gvr, namespace) w))).
    cbv zeta in IH. destruct IH as (Hq & Hc & Hd & He & Hrd & Herr).
    rewrite Hq, Hd, He, Hrd, Herr. simpl.
    repeat split; try reflexivity.
    + now rewrite <- app_assoc.
    + intros k. rewrite Hc. simpl. rewrite Inc_lookup.
      destruct (bool_decide _); lia.
Qed.



(** ** The cleanup cycle *)

Lemma contains_In (slice : list string) (item : string) :
  janitor_cycle.contains slice item = true ↔ In item slice.
Proof.
  induction slice as [|s slice IH]; simpl.
  - split; [discriminate|tauto].
  - destruct (stringEqb s item) eqn:E.
    + apply stringEqb_eq in E. tauto.
    + rewrite IH. split; [tauto|]. intros [->|H]; [|exact H].
      unfold stringEqb in E. rewrite String.eqb_refl in E. discriminate.
Qed.

Section CycleInvariant.
Variable P : janitor.WorkItem → Prop.

Lemma extends_refl (st : janitor_cycle.Cycle) : janitor_cycle.extends P st st.
Proof.
  unfold janitor_cycle.extends. repeat split. exists []. now rewrite app_nil_r.
Qed.

Lemma extends_trans (st0 st1 st2 : janitor_cycle.Cycle) :
  janitor_cycle.extends P st0 st1 → janitor_cycle.extends P st1 st2
  → janitor_cycle.extends P st0 st2.
Proof.
  intros (Hd1 & He1 & Hr1 & Ho1 & new1 & Hq1 & Hp1) (Hd2 & He2 & Hr2 & Ho2 & new2 & Hq2 & Hp2).
  unfold janitor_cycle.extends. repeat split; try congruence.
  exists (new1 ++ new2). rewrite Hq2, Hq1, <- app_assoc. split; [reflexivity|].
  apply Forall_app. now split.
Qed.

Lemma fold_left_extends {B : Type} (f : janitor_cycle.Cycle → B → janitor_cycle.Cycle)
    (l : list B) :
  (∀ st x, In x l → janitor_cycle.extends P st (f st x))
  → ∀ st, janitor_cycle.extends P st (fold_left f l st).
Proof.
  induction l as [|x l IH]; intros Hstep st; cbn [fold_left].
  - apply extends_refl.
  - eapply extends_trans; [apply Hstep; now left|].
    apply IH. intros st' y Hy. apply Hstep. now right.
Qed.

Lemma listAndQueue_extends (j : janitor.Janitor) (gvr : janitor.GroupVersionResource)
    (ns : string) (st : janitor_cycle.Cycle) :
  (∀ items obj, janitor.List (janitor.dynamicClient j) gvr ns = Ok items → In obj items
                → P (janitor_cycle.itemOf gvr ns obj))
  → janitor_cycle.extends P st (janitor_cycle.listAndQueue j gvr ns st).
Proof.
  intros HP. unfold janitor_cycle.listAndQueue, janitor.processResources.
  destruct (janitor.List (janitor.dynamicClient j) gvr ns) as [items|e] eqn:Hlist.
  - destruct (processResources_fold gvr ns items (janitor_cycle.world st))
      as (Hq & _ & Hd & He & Hr & _).
    unfold janitor_cycle.extends, janitor_cycle.onWorld. cbn.
    repeat split; try assumption.
    exists (map (janitor_cycle.itemOf gvr ns) items). split; [exact Hq|].
    apply Forall_forall. intros item Hin. apply list_elem_of_In in Hin.
    apply in_map_iff in Hin as (obj & <- & Hobj).
    now apply (HP items).
  - unfold janitor_cycle.extends, janitor_cycle.onWorld. cbn.
    repeat split. exists []. now rewrite app_nil_r.
Qed.

End CycleInvariant.

Lemma cleanupResource_extends (c : janitor_cycle.Clients) (j : janitor.Janitor)
    (resources : list (option janitor_cycle.APIResourceList))
    (rl : janitor_cycle.APIResourceList) (gv : string * string)
    (r : janitor_cycle.APIResource) (st : janitor_cycle.Cycle) :
  In (Some rl) resources → In r (janitor_cycle.APIResources rl)
  → schema.ParseGroupVersion (janitor_cycle.GroupVersion rl) = Ok gv
  → janitor_cycle.extends (janitor_cycle.queueable c j resources) st
      (janitor_cycle.cleanupResource c j gv st r).
Proof.
  intros Hrl Hr Hgv. unfold janitor_cycle.cleanupResource.
  destruct (janitor_cycle.contains (janitor_cycle.Verbs r) "list") eqn:Hlist;
    [|apply extends_refl].
  destruct (janitor_cycle.contains (janitor_cycle.Verbs r) "delete") eqn:Hdelete;
    [|apply extends_refl].
  apply contains_In in Hlist, Hdelete. cbn [negb orb].
  destruct (janitor.ShouldProcessResource (janitor.resourceFilter j) (janitor_cycle.Name r))
    eqn:Hfilter; [|apply extends_refl].
  cbn [negb].
  set (gvr := {| janitor.Group := fst gv; janitor.Version := snd gv;
                 janitor.Resource := janitor_cycle.Name r |}).
  assert (Hqueue : ∀ ns,
    (if janitor_cycle.Namespaced r
     then janitor.ShouldProcessNamespace (janitor.resourceFilter j) ns = true
     else ns = "")
    → ∀ items obj, janitor.List (janitor.dynamicClient j) gvr ns = Ok items → In obj items
      → janitor_cycle.queueable c j resources (janitor_cycle.itemOf gvr ns obj)).
  { intros ns Hns items obj Hitems Hobj. unfold janitor_cycle.queueable. cbn.
    split; [|split; [exact Hfilter|]].
    - exists rl, r. destruct gv as [g v]. now repeat split.
    - now exists items. }
  destruct (janitor_cycle.Namespaced r) eqn:Hnamespaced.
  - unfold janitor_cycle.getNamespaces.
    destruct (janitor_cycle.ListNamespaces c (janitor_cycle.namespaceCalls st))
      as [namespaces|e].
    + eapply extends_trans;
        [|apply fold_left_extends; intros st' ns _;
          destruct (janitor.ShouldProcessNamespace (janitor.resourceFilter j) ns) eqn:Hns;
          [apply listAndQueue_extends, Hqueue, Hns|apply extends_refl]].
      unfold janitor_cycle.extends. cbn. repeat split. exists []. now rewrite app_nil_r.
    + unfold janitor_cycle.extends, janitor_cycle.onWorld. cbn.
      repeat split. exists []. now rewrite app_nil_r.
  - apply listAndQueue_extends, Hqueue. reflexivity.
Qed.

Lemma cleanupList_extends (c : janitor_cycle.Clients) (j : janitor.Janitor)
    (resources : list (option janitor_cycle.APIResourceList))
    (rl : option janitor_cycle.APIResourceList) (st : janitor_cycle.Cycle) :
  In rl resources
  → janitor_cycle.extends (janitor_cycle.queueable c j resources) st
      (janitor_cycle.cleanupList c j st rl).
Proof.
  intros Hrl. unfold janitor_cycle.cleanupList.
  destruct rl as [rl|]; [|apply extends_refl].
  destruct (schema.ParseGroupVersion (janitor_cycle.GroupVersion rl)) as [gv|] eqn:Hgv;
    [|apply extends_refl].
  apply fold_left_extends. intros st' r Hr.
  now apply (cleanupResource_extends c j resources rl).
Qed.

Lemma cleanup_extends (c : janitor_cycle.Clients) (j : janitor.Janitor)
    (resources : list (option janitor_cycle.APIResourceList)) (st : janitor_cycle.Cycle) :
  janitor_cycle.extends (janitor_cycle.queueable c j resources) st
    (fold_left (janitor_cycle.cleanupList c j) resources st).
Proof.
  apply fold_left_extends. intros st' rl Hrl. now apply cleanupList_extends.
Qed.

(** A cycle queues only what it may: when discovery succeeds, every work
    item added to the queue is for a resource that discovery reported with
    both the list and the delete verb and that the resource filter admits,
    in a namespace that the namespace filter admits (the empty namespace
    for a cluster-scoped resource), and carries an object that was listed
    for that resource and namespace; the items queued before stay in
    front. *)
Theorem cycle_queues_only_admitted (c : janitor_cycle.Clients) (j : janitor.Janitor)
    (resources : list (option janitor_cycle.APIResourceList)) (st : janitor_cycle.Cycle) :
  janitor_cycle.ServerPreferredResources c = Ok resources →
  fst (janitor_cycle.cleanup c j st) = None
  ∧ ∃ new,
      janitor.WorkQueue (janitor_cycle.world (snd (janitor_cycle.cleanup c j st)))
      = janitor.WorkQueue (janitor_cycle.world st) ++ new
      ∧ Forall (janitor_cycle.queueable c j resources) new.
Proof.
  intros Hdisc. unfold janitor_cycle.cleanup. rewrite Hdisc. split; [reflexivity|].
  destruct (cleanup_extends c j resources st) as (_ & _ & _ & _ & new & Hq & Hnew).
  now exists new.
Qed.

Lemma cycle_queues_only_admitted_witness :
  ∃ new,
    janitor.WorkQueue
      (janitor_cycle.world
         (snd (janitor_cycle.cleanup cluster.clusterClients fixtures.clusterJanitor
                 cluster.start)))
    = [] ++ new
    ∧ Forall (janitor_cycle.queueable cluster.clusterClients fixtures.clusterJanitor
                (default [] (match janitor_cycle.ServerPreferredResources
                                     cluster.clusterClients with
                             | Ok l => Some l
                             | Err _ => None
                             end))) new.
Proof.
  exact (proj2 (cycle_queues_only_admitted cluster.clusterClients
                  fixtures.clusterJanitor _ cluster.start eq_refl)).
Defined.



Lemma namespace_filter_true (includes excludes includeNs excludeNs : list string)
    (ns : string) :
  janitor.ShouldProcessNamespace
    (janitor.NewResourceFilter includes excludes includeNs excludeNs) ns = true
  → ¬ In ns excludeNs ∧ (includeNs = [] ∨ In ns includeNs).
Proof.
  unfold janitor.ShouldProcessNamespace. cbn.
  rewrite index_markAll, index_empty, orb_false_r.
  case_bool_decide as Hexc; [discriminate|]. intros H.
  rewrite list_elem_of_In in Hexc. split; [exact Hexc|].
  destruct includeNs as [|n includeNs]; [now left|]. right.
  cbn [length Nat.eqb] in H.
  rewrite index_markAll, index_empty, orb_false_r in H.
  apply bool_decide_eq_true_1 in H. now apply list_elem_of_In.
Qed.

Lemma resource_filter_true (includes excludes includeNs excludeNs : list string)
    (r : string) :
  janitor.ShouldProcessResource
    (janitor.NewResourceFilter includes excludes includeNs excludeNs) r = true
  → ¬ In r excludes ∧ (includes = [] ∨ In r includes).
Proof.
  unfold janitor.ShouldProcessResource. cbn.
  rewrite index_markAll, index_empty, orb_false_r.
  case_bool_decide as Hexc; [discriminate|]. intros H.
  rewrite list_elem_of_In in Hexc. split; [exact Hexc|].
  destruct includes as [|n includes]; [now left|]. right.
  cbn [length Nat.eqb] in H.
  rewrite index_markAll, index_empty, orb_false_r in H.
  apply bool_decide_eq_true_1 in H. now apply list_elem_of_In.
Qed.

(** Exclusions hold for the whole cycle: with a filter built from the
    configured lists, no work item queued by a cycle is in an excluded
    namespace or of an excluded resource, whatever the objects carry; with
    a non-empty include list every queued item is of an included resource,
    and in an included namespace unless it is cluster-scoped.  The empty
    namespace of cluster-scoped objects is not subject to the namespace
    lists. *)
Theorem exclusions_hold_for_the_cycle (c : janitor_cycle.Clients) (j : janitor.Janitor)
    (includes excludes includeNs excludeNs : list string) (st : janitor_cycle.Cycle) :
  janitor.resourceFilter j
  = janitor.NewResourceFilter includes excludes includeNs excludeNs →
  ∃ new,
    janitor.WorkQueue (janitor_cycle.world (snd (janitor_cycle.cleanup c j st)))
    = janitor.WorkQueue (janitor_cycle.world st) ++ new
    ∧ ∀ item, In item new →
        ¬ In (janitor.Resource (janitor.wiResource item)) excludes
        ∧ (includes = [] ∨ In (janitor.Resource (janitor.wiResource item)) includes)
        ∧ (janitor.wiNamespace item = ""
           ∨ (¬ In (janitor.wiNamespace item) excludeNs
              ∧ (includeNs = [] ∨ In (janitor.wiNamespace item) includeNs))).
Proof.
  intros Hfilter. unfold janitor_cycle.cleanup.
  destruct (janitor_cycle.ServerPreferredResources c) as [resources|e]; cbn.
  - destruct (cleanup_extends c j resources st) as (_ & _ & _ & _ & new & Hq & Hnew).
    exists new. split; [exact Hq|]. intros item Hin.
    rewrite Forall_forall in Hnew. apply list_elem_of_In in Hin.
    destruct (Hnew item Hin) as ((rl & r & _ & _ & _ & _ & _ & _ & Hns) & Hres & _).
    rewrite Hfilter in Hres, Hns.
    apply resource_filter_true in Hres as [Hexc Hinc]. split; [exact Hexc|].
    split; [exact Hinc|].
    destruct (janitor_cycle.Namespaced r); [|now left].
    right. now apply namespace_filter_true in Hns.
  - exists []. rewrite app_nil_r. split; [reflexivity|]. intros item [].
Qed.

Lemma exclusions_hold_for_the_cycle_witness :
  ∃ new,
    janitor.WorkQueue
      (janitor_cycle.world
         (snd (janitor_cycle.cleanup cluster.clusterClients fixtures.clusterJanitor
                 cluster.start)))
    = [] ++ new
    ∧ ∀ item, In item new →
        ¬ In (janitor.Resource (janitor.wiResource item)) ["events"]
        ∧ (@nil string = [] ∨ In (janitor.Resource (janitor.wiResource item)) [])
        ∧ (janitor.wiNamespace item = ""
           ∨ (¬ In (janitor.wiNamespace item) ["kube-system"]
              ∧ (@nil string = [] ∨ In (janitor.wiNamespace item) []))).
Proof.
  exact (exclusions_hold_for_the_cycle cluster.clusterClients fixtures.clusterJanitor
           [] ["events"] [] ["kube-system"] cluster.start eq_refl).
Defined.

(** ** A whole pass: a cycle, then a worker on what it queued *)

Lemma worker_calls_decided (TP : TimeParser) (j : janitor.Janitor)
    (received : list (Time * janitor.WorkItem)) (w : janitor.World) :
  ∃ calls,
    janitor.deleteCalls (janitor_cycle.worker j received w) = janitor.deleteCalls w ++ calls
    ∧ (janitor.DryRun (janitor.config j) = true → calls = [])
    ∧ ∀ call, In call calls →
        ∃ now item, In (now, item) received
          ∧ fst (janitor.shouldDelete j now (janitor.wiObj item)) = true
          ∧ call = (janitor.wiResource item, janitor.wiNamespace item, janitor.wiName item).
Proof.
  unfold janitor_cycle.worker. revert w.
  induction received as [|[now item] received IH]; intros w; cbn [fold_left].
  - exists []. rewrite app_nil_r. repeat split. intros call [].
  - destruct (processItem_effects TP j now item w) as (Hd & _).
    destruct (IH (janitor.processItem j now item w)) as (calls & Hcalls & Hdry & Hin).
    cbn [fst snd]. rewrite Hcalls, Hd, <- app_assoc.
    eexists. split; [reflexivity|]. split.
    + intros Hmode. rewrite Hmode, andb_false_r. now rewrite (Hdry Hmode).
    + intros call Hcall. apply in_app_or in Hcall as [Hcall|Hcall].
      * destruct (fst (janitor.shouldDelete j now (janitor.wiObj item))) eqn:Hdec;
          [|destruct Hcall].
        destruct (negb _); [|destruct Hcall]. destruct Hcall as [<-|[]].
        exists now, item. split; [now left|]. now split.
      * destruct (Hin call Hcall) as (now' & item' & Hrec & Hdec & ->).
        exists now', item'. split; [now right|]. now split.
Qed.

(** The controller deletes only what it listed and decided: when a cycle
    starts on an empty queue and a worker then takes the queued items in
    order, at any clock readings, every delete call issued is for a queued
    item that the cycle was allowed to queue and whose decision was
    delete; under dry-run the whole pass issues no delete call. *)
Theorem pass_deletes_only_listed_and_decided (TP : TimeParser) (c : janitor_cycle.Clients)
    (j : janitor.Janitor) (resources : list (option janitor_cycle.APIResourceList))
    (st : janitor_cycle.Cycle) (received : list (Time * janitor.WorkItem)) :
  janitor_cycle.ServerPreferredResources c = Ok resources →
  janitor.WorkQueue (janitor_cycle.world st) = [] →
  map snd received
  = janitor.WorkQueue (janitor_cycle.world (snd (janitor_cycle.cleanup c j st))) →
  ∃ calls,
    janitor.deleteCalls
      (janitor_cycle.worker j received
         (janitor_cycle.world (snd (janitor_cycle.cleanup c j st))))
    = janitor.deleteCalls (janitor_cycle.world st) ++ calls
    ∧ (janitor.DryRun (janitor.config j) = true → calls = [])
    ∧ ∀ call, In call calls →
        ∃ now item, In (now, item) received
          ∧ janitor_cycle.queueable c j resources item
          ∧ fst (janitor.shouldDelete j now (janitor.wiObj item)) = true
          ∧ call = (janitor.wiResource item, janitor.wiNamespace item, janitor.wiName item).
Proof.
  intros Hdisc Hempty Hreceived.
  destruct (worker_calls_decided TP j received
              (janitor_cycle.world (snd (janitor_cycle.cleanup c j st))))
    as (calls & Hcalls & Hdry & Hin).
  exists calls. split; [|split; [exact Hdry|]].
  - rewrite Hcalls. f_equal. unfold janitor_cycle.cleanup. rewrite Hdisc. cbn.
    now destruct (cleanup_extends c j resources st) as (Hd & _).
  - intros call Hcall. destruct (Hin call Hcall) as (now & item & Hrec & Hdec & ->).
    exists now, item. split; [exact Hrec|]. split; [|now split].
    assert (Hitem : In item (map snd received))
      by (apply in_map_iff; now exists (now, item)).
    rewrite Hreceived in Hitem. revert Hitem.
    unfold janitor_cycle.cleanup. rewrite Hdisc. cbn.
    destruct (cleanup_extends c j resources st) as (_ & _ & _ & _ & new & Hq & Hnew).
    rewrite Hq, Hempty. cbn. intros Hitem.
    rewrite Forall_forall in Hnew. apply Hnew. now apply list_elem_of_In.
Qed.

Lemma pass_deletes_only_listed_and_decided_witness :
  ∃ calls,
    janitor.deleteCalls
      (@janitor_cycle.worker fixtures.canonical fixtures.clusterJanitor
         [(fixtures.noon,
           janitor_cycle.itemOf
             {| janitor.Group := ""; janitor.Version := "v1"; janitor.Resource := "pods" |}
             "default" fixtures.agedPod)]
         (janitor_cycle.world
            (snd (janitor_cycle.cleanup cluster.clusterClients fixtures.clusterJanitor
                    cluster.start))))
    = [] ++ calls
    ∧ (janitor.DryRun (janitor.config fixtures.clusterJanitor) = true → calls = []).
Proof.
  destruct (pass_deletes_only_listed_and_decided fixtures.canonical
              cluster.clusterClients fixtures.clusterJanitor _ cluster.start
              [(fixtures.noon,
                janitor_cycle.itemOf
                  {| janitor.Group := ""; janitor.Version := "v1";
                     janitor.Resource := "pods" |}
                  "default" fixtures.agedPod)]
              eq_refl eq_refl ltac:(vm_compute; reflexivity))
    as (calls & Hcalls & Hdry & _).
  exists calls. split; [exact Hcalls|exact Hdry].
Defined.

(** ** More on the rule engine *)

Lemma Evaluate_from_app (a b : list rules.compiledRule) (obj : Unstructured) :
  rules.Evaluate_from (a ++ b) obj
  = match rules.Evaluate_from a obj with
    | (Some r, d) => (Some r, d)
    | (None, _) => rules.Evaluate_from b obj
    end.
Proof.
  induction a as [|cr a IH]; simpl; [reflexivity|].
  now destruct (rules.evaluateRule cr obj).
Qed.

(** Rules appended to an engine only matter for objects that no earlier
    rule matches: evaluating the concatenation of two rule tables gives
    the match of the first table when it has one and the result of the
    second table otherwise. *)
Theorem later_rules_are_fallbacks (a b : list rules.compiledRule) (obj : Unstructured) :
  rules.Evaluate {| rules.rules := a ++ b |} obj
  = match rules.Evaluate {| rules.rules := a |} obj with
    | (Some r, d) => (Some r, d)
    | (None, _) => rules.Evaluate {| rules.rules := b |} obj
    end.
Proof. apply Evaluate_from_app. Qed.

Lemma resourceMatches_app (a b : list string) (kind : string) :
  rules.resourceMatches (a ++ b) kind
  = rules.resourceMatches a kind || rules.resourceMatches b kind.
Proof.
  induction a as [|r a IH]; simpl; [reflexivity|].
  now destruct (stringEqb r "*" || stringEqb r kind || stringEqb r (rules.pluralize kind)).
Qed.

(** Kind selectors: a rule without selectors matches no object, whatever
    its predicate yields; a selector list containing "*" matches every
    kind; the selectors of a list are alternatives; and a single selector
    matches a kind only when it is "*", the kind byte for byte, or the
    plural that [pluralize] gives for the kind. *)
Theorem kind_selectors (cr : rules.compiledRule) (obj : Unstructured)
    (a b : list string) (kind : string) :
  (rules.Resources (rules.rule cr) = [] → rules.evaluateRule cr obj = false)
  ∧ (In "*" a → rules.resourceMatches a kind = true)
  ∧ rules.resourceMatches (a ++ b) kind
    = rules.resourceMatches a kind || rules.resourceMatches b kind
  ∧ (∀ selector, rules.resourceMatches [selector] kind = true
       → selector = "*" ∨ selector = kind ∨ selector = rules.pluralize kind).
Proof.
  split; [|split; [|split]].
  - intros Hnone. unfold rules.evaluateRule. now rewrite Hnone.
  - intros Hstar. apply resourceMatches_spec. exists "*".
    split; [now apply list_elem_of_In|now left].
  - apply resourceMatches_app.
  - intros selector Hsel. apply resourceMatches_spec in Hsel as (r & Hin & Hr).
    apply list_elem_of_singleton in Hin as ->. exact Hr.
Qed.

Lemma kind_selectors_witness :
  rules.evaluateRule
    {| rules.rule := fixtures.sampleRule "no-kinds" [] "1h";
       rules.program := fun _ => Ok (rules.GoBool true);
       rules.ttlDuration := Hour |}
    (fixtures.object "Pod" [] None) = false
  ∧ rules.resourceMatches ["deployments"; "*"] "CronJob" = true.
Proof.
  split.
  - refine (proj1 (kind_selectors _ _ [] [] "Pod") _). reflexivity.
  - refine (proj1 (proj2 (kind_selectors fixtures.catchAll (fixtures.object "Pod" [] None)
                            ["deployments"; "*"] [] "CronJob")) _).
    right. left. reflexivity.
Defined.

Lemma compileRules_app (env : rules.Env) (a b : list rules.Rule) :
  rules.compileRules env (a ++ b) []
  = match rules.compileRules env a [] with
    | Err e => Err e
    | Ok ca =>
        match rules.compileRules env b [] with
        | Err e => Err e
        | Ok cb => Ok (ca ++ cb)
        end
    end.
Proof.
  induction a as [|r a IH]; simpl.
  - now destruct (rules.compileRules env b []).
  - destruct (rules.compileRule env r) as [cr|e]; [|reflexivity].
    rewrite (compileRules_acc env (a ++ b)), (compileRules_acc env a), IH.
    destruct (rules.compileRules env a []) as [ca|]; [|reflexivity].
    now destruct (rules.compileRules env b []).
Qed.

(** Rules load one by one: loading the concatenation of two rule lists
    succeeds exactly when loading each succeeds, and the engine then holds
    the rules of the first followed by those of the second; the error of
    the first list comes first.  So the empty list loads to an empty
    engine, and a list that repeats a rule, ID included, loads as well:
    duplicate IDs are not rejected. *)
Theorem rules_load_one_by_one (cel : rules.Cel) (env : rules.Env) (a b : list rules.Rule) :
  rules.cel_NewEnv = Ok env →
  rules.New (a ++ b)
  = match rules.New a with
    | Err e => Err e
    | Ok ea =>
        match rules.New b with
        | Err e => Err e
        | Ok eb => Ok {| rules.rules := rules.rules ea ++ rules.rules eb |}
        end
    end
  ∧ rules.New [] = Ok {| rules.rules := [] |}
  ∧ (∀ ea, rules.New a = Ok ea →
       rules.New (a ++ a) = Ok {| rules.rules := rules.rules ea ++ rules.rules ea |}).
Proof.
  intros Henv.
  assert (Happ : ∀ x y, rules.New (x ++ y)
    = match rules.New x with
      | Err e => Err e
      | Ok ea =>
          match rules.New y with
          | Err e => Err e
          | Ok eb => Ok {| rules.rules := rules.rules ea ++ rules.rules eb |}
          end
      end).
  { intros x y. unfold rules.New. rewrite Henv, compileRules_app.
    destruct (rules.compileRules env x []); [|reflexivity].
    now destruct (rules.compileRules env y []). }
  split; [apply Happ|]. split.
  - unfold rules.New. now rewrite Henv.
  - intros ea Hea. now rewrite Happ, Hea.
Qed.

Lemma rules_load_one_by_one_witness :
  ∃ engine,
    @rules.New fixtures.literals
      ([fixtures.sampleRule "test-rule" ["pods"] "7d"]
       ++ [fixtures.sampleRule "test-rule" ["pods"] "7d"]) = Ok engine
    ∧ length (rules.rules engine) = 2%nat.
Proof.
  destruct (@rules.New fixtures.literals [fixtures.sampleRule "test-rule" ["pods"] "7d"])
    as [ea|] eqn:Hea; [|vm_compute in Hea; discriminate].
  eexists. split.
  - exact (proj2 (proj2 (rules_load_one_by_one fixtures.literals fixtures.literalEnv
                           [fixtures.sampleRule "test-rule" ["pods"] "7d"] [] eq_refl))
             ea Hea).
  - vm_compute in Hea. injection Hea as <-. reflexivity.
Defined.

Lemma compileRules_each (env : rules.Env) (rs : list rules.Rule)
    (crs : list rules.compiledRule) :
  rules.compileRules env rs [] = Ok crs
  → Forall2 (fun r cr => rules.compileRule env r = Ok cr) rs crs.
Proof.
  revert crs. induction rs as [|r rs IH]; intros crs; simpl.
  - intros [= <-]. constructor.
  - destruct (rules.compileRule env r) as [cr|] eqn:Hcr; [|discriminate].
    rewrite compileRules_acc.
    destruct (rules.compileRules env rs []) as [tail|]; [|discriminate].
    intros [= <-]. constructor; [exact Hcr|]. now apply IH.
Qed.

(** What a loaded engine returns is what was loaded: if [New] built the
    engine from a rule list and [Evaluate] returns a rule and a TTL for an
    object, then that rule is one of the list, its ID matches the ID
    pattern, one of its selectors matches the object's kind, and the TTL
    is the value of the rule's own TTL text under the extended duration
    parser. *)
Theorem evaluate_returns_loaded_rule (cel : rules.Cel) (rs : list rules.Rule)
    (engine : rules.Engine) (obj : Unstructured) (r : rules.Rule) (d : Duration) :
  rules.New rs = Ok engine →
  rules.Evaluate engine obj = (Some r, d) →
  In r rs
  ∧ spec.validID (rules.ID r) = true
  ∧ rules.resourceMatches (rules.Resources r) (GetKind obj) = true
  ∧ rules.parseExtendedDuration (rules.TTL r) = Ok d.
Proof.
  unfold rules.New. destruct rules.cel_NewEnv as [env|]; [|discriminate].
  destruct (rules.compileRules env rs []) as [crs|] eqn:Hcrs; [|discriminate].
  intros [= <-]. unfold rules.Evaluate. cbn [rules.rules].
  apply compileRules_each in Hcrs. intros Hev.
  destruct (Evaluate_from_cases crs obj)
    as [[_ Hnone]|(pre & cr & post & -> & _ & Hcr & Hsome)]; [congruence|].
  rewrite Hsome in Hev. injection Hev as <- <-.
  apply Forall2_app_inv_r in Hcrs as (rpre & rpost & _ & Hpost & ->).
  apply Forall2_cons_inv_r in Hpost as (r0 & rpost' & Hr0 & _ & ->).
  pose proof (compileRule_ok env r0 cr Hr0) as (Hrule & Httl & _). subst r0.
  split; [apply in_or_app; right; now left|].
  split.
  - pose proof (compileRule_acceptable env (rules.rule cr)) as Hacc.
    rewrite Hr0 in Hacc. unfold spec.acceptable in Hacc. simpl in Hacc.
    symmetry in Hacc. apply andb_true_iff in Hacc as [Hacc _].
    now apply andb_true_iff in Hacc as [Hid _].
  - split; [|exact Httl].
    rewrite evaluateRule_spec in Hcr. now apply andb_true_iff in Hcr as [Hkind _].
Qed.

Lemma evaluate_returns_loaded_rule_witness :
  rules.parseExtendedDuration "7d" = Ok (7 * (24 * Hour)).
Proof.
  destruct (@rules.New fixtures.literals [fixtures.sampleRule "test-rule" ["pods"] "7d"])
    as [engine|] eqn:Hnew; [|vm_compute in Hnew; discriminate].
  refine (proj2 (proj2 (proj2 (evaluate_returns_loaded_rule fixtures.literals
            [fixtures.sampleRule "test-rule" ["pods"] "7d"] engine
            (fixtures.object "Pod" [] None)
            (fixtures.sampleRule "test-rule" ["pods"] "7d") (7 * (24 * Hour)) Hnew _)))).
  vm_compute in Hnew. injection Hnew as <-. vm_compute. reflexivity.
Defined.

(** The checks of a rule run in a fixed order, and the first that fails
    names the error: an ID outside the pattern is reported as an invalid
    ID whatever the TTL and the expression are; with a valid ID, a TTL
    that does not parse is reported as an invalid TTL whatever the
    expression is; only then does a compile failure show.  An ID is
    inside the pattern exactly when its first byte is a lower-case letter
    and every other byte a lower-case letter, a digit or '-'; the empty ID
    is outside. *)
Theorem rule_checks_in_order (env : rules.Env) (r : rules.Rule) :
  MatchString rules.idRegex (rules.ID r) = spec.validID (rules.ID r)
  ∧ spec.validID "" = false
  ∧ (spec.validID (rules.ID r) = false →
     rules.compileRule env r = Err (rules.InvalidID (rules.ID r)))
  ∧ (spec.validID (rules.ID r) = true →
     ∀ e, rules.parseExtendedDuration (rules.TTL r) = Err e →
          rules.compileRule env r = Err (rules.InvalidTTL (rules.TTL r) (rules.ID r) e))
  ∧ (spec.validID (rules.ID r) = true →
     is_ok (rules.parseExtendedDuration (rules.TTL r)) = true →
     ∀ e, rules.Compile env (rules.Expression r) = Err e →
          rules.compileRule env r = Err (rules.CompileFailed (rules.ID r) e)).
Proof.
  unfold rules.compileRule. rewrite idRegex_validID.
  split; [reflexivity|]. split; [reflexivity|]. split; [|split].
  - now intros ->.
  - intros -> e ->. reflexivity.
  - intros -> Httl e ->.
    destruct (rules.parseExtendedDuration (rules.TTL r)); [reflexivity|discriminate].
Qed.

Lemma rule_checks_in_order_witness :
  rules.compileRule fixtures.literalEnv
    {| rules.ID := "Test-Rule"; rules.Resources := ["pods"];
       rules.Expression := "this is not valid"; rules.TTL := "invalid" |}
  = Err (rules.InvalidID "Test-Rule").
Proof.
  refine (proj1 (proj2 (proj2 (rule_checks_in_order fixtures.literalEnv _))) _).
  reflexivity.
Defined.

(** ** More on the resource filter *)

Lemma bool_decide_In_ext (a b : list string) (x : string) :
  (∀ y, In y a ↔ In y b) → bool_decide (x ∈ a) = bool_decide (x ∈ b).
Proof.
  intros Hsame. apply bool_decide_ext. rewrite !list_elem_of_In. apply Hsame.
Qed.

Lemma same_elements_nil (a b : list string) :
  (∀ y, In y a ↔ In y b) → (length a =? 0)%nat = (length b =? 0)%nat.
Proof.
  intros Hsame. destruct a as [|x a], b as [|y b]; try reflexivity.
  - destruct (proj2 (Hsame y)). now left.
  - destruct (proj1 (Hsame x)). now left.
Qed.

Lemma ShouldProcessResource_eq (includes excludes includeNs excludeNs : list string)
    (r : string) :
  janitor.ShouldProcessResource
    (janitor.NewResourceFilter includes excludes includeNs excludeNs) r
  = negb (bool_decide (r ∈ excludes))
    && ((length includes =? 0)%nat || bool_decide (r ∈ includes)).
Proof.
  unfold janitor.ShouldProcessResource. cbn.
  rewrite index_markAll, index_empty, orb_false_r.
  destruct (bool_decide (r ∈ excludes)); [reflexivity|]. simpl.
  destruct includes as [|x includes]; [reflexivity|]. cbn [length Nat.eqb orb].
  now rewrite index_markAll, index_empty, orb_false_r.
Qed.

Lemma ShouldProcessNamespace_eq (includes excludes includeNs excludeNs : list string)
    (n : string) :
  janitor.ShouldProcessNamespace
    (janitor.NewResourceFilter includes excludes includeNs excludeNs) n
  = negb (bool_decide (n ∈ excludeNs))
    && ((length includeNs =? 0)%nat || bool_decide (n ∈ includeNs)).
Proof.
  unfold janitor.ShouldProcessNamespace. cbn.
  rewrite index_markAll, index_empty, orb_false_r.
  destruct (bool_decide (n ∈ excludeNs)); [reflexivity|]. simpl.
  destruct includeNs as [|x includeNs]; [reflexivity|]. cbn [length Nat.eqb orb].
  now rewrite index_markAll, index_empty, orb_false_r.
Qed.

(** The filter depends on its four lists as sets only: lists with the same
    elements, in any order and with any repetition, give the same
    decisions; the resource decision does not depend on the namespace
    lists nor the namespace decision on the resource lists. *)
Theorem filter_lists_are_sets
    (includes excludes includeNs excludeNs includes' excludes' includeNs' excludeNs'
       : list string) (r n : string) :
  (∀ x, In x includes ↔ In x includes') →
  (∀ x, In x excludes ↔ In x excludes') →
  (janitor.ShouldProcessResource
     (janitor.NewResourceFilter includes excludes includeNs excludeNs) r
   = janitor.ShouldProcessResource
       (janitor.NewResourceFilter includes' excludes' includeNs' excludeNs') r)
  ∧ (janitor.ShouldProcessNamespace
       (janitor.NewResourceFilter includeNs excludeNs includes excludes) n
     = janitor.ShouldProcessNamespace
         (janitor.NewResourceFilter includeNs' excludeNs' includes' excludes') n).
Proof.
  intros Hinc Hexc.
  rewrite !ShouldProcessResource_eq, !ShouldProcessNamespace_eq.
  rewrite (bool_decide_In_ext excludes excludes' r Hexc),
    (bool_decide_In_ext includes includes' r Hinc),
    (bool_decide_In_ext excludes excludes' n Hexc),
    (bool_decide_In_ext includes includes' n Hinc),
    (same_elements_nil includes includes' Hinc).
  split; reflexivity.
Qed.

Lemma filter_lists_are_sets_witness :
  janitor.ShouldProcessResource
    (janitor.NewResourceFilter ["pods"; "jobs"; "pods"] ["jobs"] [] []) "pods"
  = janitor.ShouldProcessResource
      (janitor.NewResourceFilter ["jobs"; "pods"] ["jobs"; "jobs"] ["default"] []) "pods".
Proof.
  refine (proj1 (filter_lists_are_sets ["pods"; "jobs"; "pods"] ["jobs"] [] []
                   ["jobs"; "pods"] ["jobs"; "jobs"] ["default"] [] "pods" "" _ _));
    intros x; simpl; tauto.
Defined.

(** Lists only ever narrow the filter in one direction: adding names to
    the exclude list never admits a resource that was rejected, and
    adding names to a non-empty include list never rejects a resource that
    was admitted; an empty include list admits more than any non-empty
    one. *)
Theorem filter_is_monotone (includes excludes includeNs excludeNs more : list string)
    (r : string) :
  (janitor.ShouldProcessResource
     (janitor.NewResourceFilter includes (excludes ++ more) includeNs excludeNs) r = true →
   janitor.ShouldProcessResource
     (janitor.NewResourceFilter includes excludes includeNs excludeNs) r = true)
  ∧ (includes ≠ [] →
     janitor.ShouldProcessResource
       (janitor.NewResourceFilter includes excludes includeNs excludeNs) r = true →
     janitor.ShouldProcessResource
       (janitor.NewResourceFilter (includes ++ more) excludes includeNs excludeNs) r = true)
  ∧ (janitor.ShouldProcessResource
       (janitor.NewResourceFilter includes excludes includeNs excludeNs) r = true →
     janitor.ShouldProcessResource
       (janitor.NewResourceFilter [] excludes includeNs excludeNs) r = true).
Proof.
  rewrite !ShouldProcessResource_eq. split; [|split].
  - intros H. apply andb_true_iff in H as [Hexc Hinc]. rewrite Hinc, andb_true_r.
    apply negb_true_iff, bool_decide_eq_false_1 in Hexc.
    apply negb_true_iff, bool_decide_eq_false_2. intros Hin. apply Hexc.
    apply elem_of_app. now left.
  - intros Hne H. apply andb_true_iff in H as [Hexc Hinc]. rewrite Hexc. simpl.
    destruct includes as [|x includes]; [congruence|]. cbn [length Nat.eqb orb] in *.
    apply bool_decide_eq_true_1 in Hinc. apply bool_decide_eq_true_2.
    change (r ∈ (x :: includes) ++ more). apply elem_of_app. now left.
  - intros H. apply andb_true_iff in H as [Hexc _]. now rewrite Hexc.
Qed.

Lemma filter_is_monotone_witness :
  janitor.ShouldProcessResource (janitor.NewResourceFilter ["pods"] [] [] []) "pods" = true.
Proof.
  refine (proj1 (filter_is_monotone ["pods"] [] [] [] ["events"] "pods") _).
  reflexivity.
Defined.

(** ** More on the extended duration parser *)

Lemma substring_0_0 (s : string) : String.substring 0 0 s = "".
Proof. now destruct s. Qed.

Lemma consumed_stripPrefix (u s s' : string) :
  stripPrefix u s = Some s' → consumed s s' = u.
Proof.
  unfold consumed. revert s. induction u as [|a u IH]; intros s; simpl.
  - intros [= ->]. rewrite Nat.sub_diag. apply substring_0_0.
  - destruct s as [|b s]; [discriminate|].
    destruct (Ascii.eqb_spec a b) as [->|]; [|discriminate].
    intros Hstrip. pose proof (stripPrefix_length u s s' Hstrip) as Hlen.
    cbn [String.length].
    replace (S (String.length s) - String.length s')%nat
      with (S (String.length s - String.length s')) by lia.
    cbn [String.substring]. f_equal. now apply IH.
Qed.

Lemma stripPrefix_app (a b s s' s'' : string) :
  stripPrefix a s = Some s' → stripPrefix b s' = Some s''
  → stripPrefix (a +:+ b) s = Some s''.
Proof.
  revert s. induction a as [|x a IH]; intros s; simpl.
  - now intros [= ->].
  - destruct s as [|y s]; [discriminate|].
    change (String x a +:+ b) with (String x (a +:+ b)). cbn [stripPrefix].
    destruct (Ascii.eqb x y); [apply IH|discriminate].
Qed.

Lemma stripPrefix_longer_none (a b s : string) :
  stripPrefix a s = None → stripPrefix (a +:+ b) s = None.
Proof.
  revert s. induction a as [|x a IH]; intros s; simpl; [discriminate|].
  change (String x a +:+ b) with (String x (a +:+ b)). cbn [stripPrefix].
  destruct s as [|y s]; [reflexivity|]. destruct (Ascii.eqb x y); [apply IH|reflexivity].
Qed.

(** The unit of a token is the first unit of the pattern, in its order,
    that the text continues with. *)
Lemma unit_group_captures {A : Type} (total : nat) (s cs : _)
    (k : string → captures → option A) (a : A) :
  (∀ s' cs', k s' cs' ≠ None)
  → backtrack total
      (Capture 2
         (Alt (Cat (Lit "month") (Quest (Lit "s")))
         (Alt (Lit "w") (Alt (Lit "d") (Alt (Lit "h") (Alt (Lit "m") (Alt (Lit "s")
         (Alt (Lit "ms") (Alt (Lit "us") (Alt (Lit "µs") (Lit "ns")))))))))))
      s cs k = Some a
  → ∃ u s', In u spec.tokenUnits ∧ k s' ((2%nat, u) :: cs) = Some a.
Proof.
  intros Htotal. cbn [backtrack Quest].
  assert (Hlit : ∀ u s', stripPrefix u s = Some s' → In u spec.tokenUnits
                 → k s' ((2%nat, consumed s s') :: cs) = Some a
                 → ∃ u s', In u spec.tokenUnits ∧ k s' ((2%nat, u) :: cs) = Some a).
  { intros u s' Hstrip Hin Hk. exists u, s'. split; [exact Hin|].
    now rewrite <- (consumed_stripPrefix u s s' Hstrip). }
  assert (Hsome : ∀ (x : option A) (y : A), x ≠ None
                  → match x with Some v => Some v | None => Some y end = x)
    by (intros [v|] y Hx; [reflexivity|congruence]).
  destruct (stripPrefix "month" s) as [s1|] eqn:Hmonth.
  - destruct (stripPrefix "s" s1) as [s2|] eqn:Hs.
    + destruct (k s2 _) as [v|] eqn:Hk; [|now apply Htotal in Hk].
      intros [= <-]. apply (Hlit "months" s2); [|simpl; tauto|exact Hk].
      exact (stripPrefix_app "month" "s" s s1 s2 Hmonth Hs).
    + destruct (k s1 _) as [v|] eqn:Hk; [|now apply Htotal in Hk].
      intros [= <-]. apply (Hlit "month" s1); [exact Hmonth|simpl; tauto|exact Hk].
  - repeat match goal with
           | |- context [stripPrefix ?u s] =>
               lazymatch u with
               | "ms" => fail
               | _ =>
                   let s' := fresh "s" in
                   let Hu := fresh "Hu" in
                   destruct (stripPrefix u s) as [s'|] eqn:Hu;
                   [destruct (k s' _) as [v|] eqn:Hk; [|now apply Htotal in Hk];
                    intros [= <-]; apply (Hlit u s'); [exact Hu|simpl; tauto|exact Hk]|]
               end
           end.
    assert (Hms : stripPrefix "ms" s = None)
      by (apply (stripPrefix_longer_none "m" "s" s); assumption).
    rewrite Hms.
    repeat match goal with
           | |- context [stripPrefix ?u s] =>
               let s' := fresh "s" in
               let Hu := fresh "Hu" in
               destruct (stripPrefix u s) as [s'|] eqn:Hu;
               [destruct (k s' _) as [v|] eqn:Hk; [|now apply Htotal in Hk];
                intros [= <-]; apply (Hlit u s'); [exact Hu|simpl; tauto|exact Hk]|]
           end.
    discriminate.
Qed.

Lemma duration_token_unit (total : nat) (s : string) (m : list string) (rest : string) :
  matchAt total janitor.durationRe 2 s = Some (m, rest)
  → In (nth 2 m "") spec.tokenUnits.
Proof.
  unfold matchAt, janitor.durationRe. intros H.
  change (backtrack total (Cat ?a ?b) ?s ?cs ?k)
    with (backtrack total a s cs (fun s' cs' => backtrack total b s' cs' k)) in H.
  apply backtrack_shrinking in H as (s1 & cs1 & _ & H).
  change (backtrack total (Cat ?a ?b) ?s ?cs ?k)
    with (backtrack total a s cs (fun s' cs' => backtrack total b s' cs' k)) in H.
  apply backtrack_shrinking in H as (s2 & cs2 & _ & H).
  apply unit_group_captures in H as (u & s3 & Hu & H); [|discriminate].
  injection H as <- _. cbn. exact Hu.
Qed.

Lemma search_matchAt (total : nat) (r : regex) (ncap : nat) (s start : string)
    (m : list string) (rest : string) :
  search total r ncap s = Some (start, m, rest)
  → matchAt total r ncap start = Some (m, rest).
Proof.
  induction s as [|c s IH]; cbn [search].
  - destruct (matchAt total r ncap "") as [[m0 rest0]|] eqn:Hm; [|discriminate].
    now intros [= <- <- <-].
  - destruct (matchAt total r ncap (String c s)) as [[m0 rest0]|] eqn:Hm.
    + now intros [= <- <- <-].
    + apply IH.
Qed.

Lemma findAll_matchAt (fuel total : nat) (r : regex) (ncap : nat) (prevEnd : option nat)
    (s : string) (m : list string) :
  In m (findAll fuel total r ncap prevEnd s)
  → ∃ start rest, matchAt total r ncap start = Some (m, rest).
Proof.
  revert prevEnd s. induction fuel as [|fuel IH]; intros prevEnd s; cbn [findAll];
    [intros []|].
  destruct (search total r ncap s) as [[[start m0] rest]|] eqn:Hsearch; [|intros []].
  apply search_matchAt in Hsearch.
  destruct (String.length rest =? String.length s)%nat.
  - intros Hin. apply in_app_or in Hin as [Hin|Hin].
    + destruct (match prevEnd with Some e => _ | None => true end); [|destruct Hin].
      destruct Hin as [<-|[]]. now exists start, rest.
    + destruct s as [|c s]; [destruct Hin|]. now apply IH in Hin.
  - intros [<-|Hin]; [now exists start, rest|]. now apply IH in Hin.
Qed.

Lemma unitDuration_known (value : float64) (u : string) :
  In u spec.tokenUnits → janitor.unitDuration value u ≠ None.
Proof.
  unfold spec.tokenUnits. intros Hin.
  repeat (destruct Hin as [<-|Hin]; [discriminate|]). destruct Hin.
Qed.

Lemma sumMatches_error (matches : list (list string)) (total : Duration)
    (e : janitor.DurationError) :
  (∀ m, In m matches → In (nth 2 m "") spec.tokenUnits)
  → janitor.sumMatches matches total = Err e
  → ∃ m, In m matches ∧ e = janitor.InvalidNumber (nth 1 m "")
         ∧ is_ok (ParseFloat (nth 1 m "")) = false.
Proof.
  revert total. induction matches as [|m matches IH]; intros total Hunits; simpl;
    [discriminate|].
  destruct (ParseFloat (nth 1 m "")) as [value|] eqn:Hfloat.
  - destruct (janitor.unitDuration value (nth 2 m "")) as [d|] eqn:Hunit.
    + intros H. apply IH in H as (m' & Hin & He & Hbad); [|intros; apply Hunits; now right].
      exists m'. split; [now right|now split].
    + exfalso. apply (unitDuration_known value (nth 2 m "")); [|exact Hunit].
      apply Hunits. now left.
  - intros [= <-]. exists m. split; [now left|]. now rewrite Hfloat.
Qed.

(** The errors of the extended parser.  Every token that the pattern
    finds carries one of the units months, month, w, d, h, m, s, us, µs,
    ns: never ms, because m is tried first, so milliseconds are understood
    by the native parser only.  Hence the parser never reports an unknown
    unit; it fails either with "invalid duration format" for its whole
    input or with "invalid number" for the number of a token that does not
    fit a float64. *)
Theorem extended_parser_errors (s : string) :
  (∀ m, In m (FindAllStringSubmatch janitor.durationRe 2 s)
        → In (nth 2 m "") spec.tokenUnits ∧ nth 2 m "" ≠ "ms")
  ∧ (∀ u, janitor.ParseExtendedDuration s ≠ Err (janitor.UnknownUnit u))
  ∧ (∀ e, janitor.ParseExtendedDuration s = Err e →
       e = janitor.InvalidFormat s
       ∨ ∃ m, In m (FindAllStringSubmatch janitor.durationRe 2 s)
              ∧ e = janitor.InvalidNumber (nth 1 m "")
              ∧ is_ok (ParseFloat (nth 1 m "")) = false).
Proof.
  assert (Hunits : ∀ m, In m (FindAllStringSubmatch janitor.durationRe 2 s)
                        → In (nth 2 m "") spec.tokenUnits).
  { intros m Hin. apply findAll_matchAt in Hin as (start & rest & Hm).
    now apply duration_token_unit in Hm. }
  assert (Herr : ∀ e, janitor.ParseExtendedDuration s = Err e →
       e = janitor.InvalidFormat s
       ∨ ∃ m, In m (FindAllStringSubmatch janitor.durationRe 2 s)
              ∧ e = janitor.InvalidNumber (nth 1 m "")
              ∧ is_ok (ParseFloat (nth 1 m "")) = false).
  { intros e. unfold janitor.ParseExtendedDuration.
    destruct (ParseDuration s); [discriminate|].
    destruct (length _ =? 0)%nat; [intros [= <-]; now left|].
    destruct (janitor.sumMatches _ 0) as [d|e'] eqn:Hsum.
    - destruct (negb _); [intros [= <-]; now left|discriminate].
    - intros [= <-]. right. now apply (sumMatches_error _ 0). }
  split; [|split; [|exact Herr]].
  - intros m Hin. specialize (Hunits m Hin). split; [exact Hunits|].
    intros Hms. rewrite Hms in Hunits. unfold spec.tokenUnits in Hunits.
    repeat (destruct Hunits as [Hunits|Hunits]; [discriminate|]). destruct Hunits.
  - intros u Hu. apply Herr in Hu as [Hu|(m & _ & Hu & _)]; discriminate.
Qed.

Lemma extended_parser_errors_witness :
  In (nth 2 ["500m"; "500"; "m"] "") spec.tokenUnits
  ∧ nth 2 ["500m"; "500"; "m"] "" ≠ "ms".
Proof.
  refine (proj1 (extended_parser_errors "1d500ms") ["500m"; "500"; "m"] _).
  vm_compute. right. left. reflexivity.
Defined.

(** ** Malformed annotations and event references *)

(** A malformed annotation protects the object.  If janitor/ttl is present
    and does not parse, the object is kept at every instant by every
    controller, even when janitor/expires holds a past instant and a rule
    would match; if janitor/ttl is absent and janitor/expires does not
    parse in any of the four layouts, the object is kept as well. *)
Theorem malformed_annotation_protects (TP : TimeParser) (j : janitor.Janitor) (now : Time)
    (obj : Unstructured) :
  (∀ ttl, GetAnnotations obj !! janitor.annotationTTL = Some ttl →
          is_ok (janitor.ParseExtendedDuration ttl) = false →
          janitor.shouldDelete j now obj = (false, ""))
  ∧ (∀ expires, GetAnnotations obj !! janitor.annotationTTL = None →
                GetAnnotations obj !! janitor.annotationExpires = Some expires →
                (∀ format, In format janitor.formats → time_Parse format expires = None) →
                janitor.shouldDelete j now obj = (false, "")).
Proof.
  split.
  - intros ttl Httl Hbad. rewrite (shouldDelete_ttl j now obj ttl Httl).
    now destruct (janitor.ParseExtendedDuration ttl).
  - intros expires Httl Hexp Hnone.
    rewrite (shouldDelete_expires j now obj expires Httl Hexp).
    unfold janitor.parseExpirationTime, janitor.formats in *.
    cbn [janitor.parseExpirationTime_from].
    rewrite !Hnone by (simpl; tauto). reflexivity.
Qed.

Lemma malformed_annotation_protects_witness :
  @janitor.shouldDelete fixtures.canonical fixtures.ruled fixtures.noon
    (fixtures.object "Pod" [("janitor/ttl", "soon"); ("janitor/expires", "2020-01-01")]
       (Some "2020-01-01T00:00:00Z"))
  = (false, "").
Proof.
  refine (proj1 (malformed_annotation_protects fixtures.canonical fixtures.ruled
                   fixtures.noon _) "soon" _ _); vm_compute; reflexivity.
Defined.

(** Every event that a worker records refers to the item it handled: the
    kind and uid are read from the object, namespace and name come from
    the work item, and the API version is the group, a slash and the
    version, so that for the core group, whose name is empty, it is the
    version with a leading slash. *)
Theorem events_refer_to_the_item (TP : TimeParser) (j : janitor.Janitor) (now : Time)
    (item : janitor.WorkItem) (w : janitor.World) (e : janitor.Event) :
  In e (janitor.events (janitor.processItem j now item w)) →
  In e (janitor.events w)
  ∨ (janitor.involved e
     = {| janitor.APIVersion :=
            janitor.Group (janitor.wiResource item) +:+ "/"
            +:+ janitor.Version (janitor.wiResource item);
          janitor.Kind := GetKind (janitor.wiObj item);
          janitor.refNamespace := janitor.wiNamespace item;
          janitor.refName := janitor.wiName item;
          janitor.UID := GetUID (janitor.wiObj item) |}
     ∧ (janitor.Group (janitor.wiResource item) = "" →
        janitor.APIVersion (janitor.involved e)
        = String "/" (janitor.Version (janitor.wiResource item)))
     ∧ fst (janitor.shouldDelete j now (janitor.wiObj item)) = true
     ∧ In (janitor.evReason e) ["DryRunDeletion"; "DeletionFailed"; "ResourceDeleted"]).
Proof.
  unfold janitor.processItem.
  destruct (janitor.shouldDelete j now (janitor.wiObj item)) as [[|] reason];
    cbn [negb fst]; [|now left].
  assert (Hcore : ∀ g v, g = "" → g +:+ "/" +:+ v = String "/" v) by now intros g v ->.
  destruct (janitor.DryRun (janitor.config j)).
  - cbn. intros Hin. apply in_app_or in Hin as [Hin|[<-|[]]]; [now left|right].
    cbn. repeat split; auto.
  - destruct (janitor.Delete _ _ _ _); cbn; intros Hin;
      apply in_app_or in Hin as [Hin|[<-|[]]]; try (now left); right; cbn;
      repeat split; auto; simpl; tauto.
Qed.

Lemma events_refer_to_the_item_witness :
  match janitor.events
          (@janitor.processItem fixtures.canonical (fixtures.plain true) fixtures.noon
             fixtures.expiredItem fixtures.emptyWorld) with
  | e :: _ => janitor.APIVersion (janitor.involved e) = "/v1"
  | [] => False
  end.
Proof.
  destruct (janitor.events
              (@janitor.processItem fixtures.canonical (fixtures.plain true) fixtures.noon
                 fixtures.expiredItem fixtures.emptyWorld)) as [|e evs] eqn:Hev;
    [vm_compute in Hev; discriminate Hev|].
  destruct (events_refer_to_the_item fixtures.canonical (fixtures.plain true)
              fixtures.noon fixtures.expiredItem fixtures.emptyWorld e)
    as [[]|(_ & Hcore & _)]; [rewrite Hev; now left|].
  exact (Hcore eq_refl).
Defined.

(** ** Failures inside a cycle *)




